(** * Secure download links: token lifecycle and verification engine

    A shallow embedding of [src/utils/secureDownloads.ts] and the properties
    of its token generation, verification pipeline, audit logging and
    revocation.

    Layout:
    - [JS]       strings as sequences of UTF-16 code units, with the string
                 built-ins the module calls ([trim], [encodeURIComponent]);
    - [Host]     what the module takes from where it runs: the case mapping
                 behind [toLowerCase] and the time zone of the machine;
    - [RegExp]   a small regular-expression engine (derivatives) and the
                 literal used by [validateEmail];
    - [Store]    the tables of the datastore, the calls the module issues
                 against it and their effect;
    - [Async]    programs as trees of datastore calls: every [await] of the
                 source is one node, so that the same definition can be run
                 to completion or interleaved with other requests;
    - [Downloads] the functions of the module;
    - [Concurrent] requests in flight and their interleavings;
    - [Spec]     the vocabulary of the specification: the quota invariant,
                 the ordered checks, the shapes of e-mail addresses;
    - [Examples] a small shop to run the functions on;
    - [Admin], [Life] the administrative functions, and the vocabulary for
                 the life of a token;
    - the theorems, over any host, and then their instances on the shop. *)

From Stdlib Require Import List ZArith NArith Lia Bool String Ascii.
Import ListNotations.

Set Implicit Arguments.

(* ================================================================== *)
(** ** JavaScript strings *)

Module JS.

(** A JavaScript string is a sequence of 16-bit code units. *)
Definition CodeUnit := N.
Bind Scope N_scope with CodeUnit.
Definition JSString := list CodeUnit.

(** String literals of the source, written as Rocq strings. *)
Definition js (s : string) : JSString :=
  List.map N_of_ascii (list_ascii_of_string s).

Fixpoint eqb (a b : JSString) : bool :=
  match a, b with
  | [], [] => true
  | x :: a', y :: b' => N.eqb x y && eqb a' b'
  | _, _ => false
  end.

(** [WhiteSpace] and [LineTerminator] of ECMAScript: the characters removed
    by [String.prototype.trim] and matched by [\s]. *)
Definition isWhiteSpace (c : CodeUnit) : bool :=
  ((9 <=? c) && (c <=? 13) || (c =? 32) || (c =? 160) || (c =? 5760)
   || (8192 <=? c) && (c <=? 8202) || (c =? 8232) || (c =? 8233)
   || (c =? 8239) || (c =? 8287) || (c =? 12288) || (c =? 65279))%N.

Fixpoint trimStart (s : JSString) : JSString :=
  match s with
  | c :: s' => if isWhiteSpace c then trimStart s' else s
  | [] => []
  end.

Definition trimEnd (s : JSString) : JSString := rev (trimStart (rev s)).

Definition trim (s : JSString) : JSString := trimEnd (trimStart s).

(** *** [encodeURIComponent] *)

Definition hexDigit (n : N) : CodeUnit :=
  if (n <? 10)%N then (48 + n)%N else (55 + n)%N.

Definition percent (byte : N) : JSString :=
  [37%N; hexDigit (byte / 16); hexDigit (byte mod 16)].

(** A-Z a-z 0-9 - _ . ! ~ * ' ( ) are left as they are. *)
Definition uriUnreserved (c : CodeUnit) : bool :=
  ((65 <=? c) && (c <=? 90) || (97 <=? c) && (c <=? 122)
   || (48 <=? c) && (c <=? 57)
   || (c =? 45) || (c =? 95) || (c =? 46) || (c =? 33) || (c =? 126)
   || (c =? 42) || (c =? 39) || (c =? 40) || (c =? 41))%N.

Definition utf8 (cp : N) : list N :=
  if (cp <? 128)%N then [cp]
  else if (cp <? 2048)%N then [192 + cp / 64; 128 + cp mod 64]%N
  else if (cp <? 65536)%N then
    [224 + cp / 4096; 128 + (cp / 64) mod 64; 128 + cp mod 64]%N
  else
    [240 + cp / 262144; 128 + (cp / 4096) mod 64;
     128 + (cp / 64) mod 64; 128 + cp mod 64]%N.

Definition isHighSurrogate (c : CodeUnit) : bool :=
  ((55296 <=? c) && (c <=? 56319))%N.
Definition isLowSurrogate (c : CodeUnit) : bool :=
  ((56320 <=? c) && (c <=? 57343))%N.

Definition encodePoint (cp : N) : JSString :=
  if uriUnreserved cp then [cp] else flat_map percent (utf8 cp).

(** [None] stands for the [URIError] raised on a lone surrogate. *)
Fixpoint encodeURIComponent (s : JSString) : option JSString :=
  match s with
  | [] => Some []
  | c :: rest =>
      if isLowSurrogate c then None
      else if isHighSurrogate c then
        match rest with
        | d :: rest' =>
            if isLowSurrogate d then
              option_map
                (app (encodePoint ((c - 55296) * 1024 + (d - 56320) + 65536)))
                (encodeURIComponent rest')
            else None
        | [] => None
        end
      else option_map (app (encodePoint c)) (encodeURIComponent rest)
  end.

End JS.
Export JS.

(* ================================================================== *)
(** ** The host *)

Module Host.

(** Two things the module calls are decided by where it runs and are no part
    of the repository: the case mapping of the runtime, which follows the
    Unicode tables, and the time zone of the machine, which decides what the
    local hours of a [Date] are.  Both are taken as they come: every
    definition and every theorem below is over any host.

    - [toLowerCase] is [String.prototype.toLowerCase];
    - [LocalTZA t isUTC] is the local time zone adjustment of ECMA-262, in
      milliseconds: the offset of local time from UTC at the instant [t]
      when [isUTC] is [true], and at the local time [t] otherwise. *)
Class Runtime := {
  toLowerCase : JSString -> JSString;
  LocalTZA : Z -> bool -> Z
}.

End Host.
Export Host.

(* ================================================================== *)
(** ** Regular expressions *)

Module RegExp.

(** The fragment of the regular-expression syntax the module uses: character
    classes, concatenation, alternation and repetition. *)
Inductive Regex : Type :=
| Void
| Eps
| Class (p : CodeUnit -> bool)
| Seq (r1 r2 : Regex)
| Alt (r1 r2 : Regex)
| Star (r : Regex).

(** [r+] *)
Definition Plus (r : Regex) : Regex := Seq r (Star r).

(** A literal character. *)
Definition Chr (c : CodeUnit) : Regex := Class (N.eqb c).

Fixpoint nullable (r : Regex) : bool :=
  match r with
  | Void => false
  | Eps => true
  | Class _ => false
  | Seq r1 r2 => nullable r1 && nullable r2
  | Alt r1 r2 => nullable r1 || nullable r2
  | Star _ => true
  end.

Fixpoint deriv (c : CodeUnit) (r : Regex) : Regex :=
  match r with
  | Void => Void
  | Eps => Void
  | Class p => if p c then Eps else Void
  | Seq r1 r2 =>
      if nullable r1 then Alt (Seq (deriv c r1) r2) (deriv c r2)
      else Seq (deriv c r1) r2
  | Alt r1 r2 => Alt (deriv c r1) (deriv c r2)
  | Star r1 => Seq (deriv c r1) (Star r1)
  end.

(** [/^r$/.test(s)]: the whole string has to match. *)
Fixpoint test (r : Regex) (s : JSString) : bool :=
  match s with
  | [] => nullable r
  | c :: s' => test (deriv c r) s'
  end.

(** The language of an expression, as a relation. *)
Inductive Matches : Regex -> JSString -> Prop :=
| MEps : Matches Eps []
| MClass p c : p c = true -> Matches (Class p) [c]
| MSeq r1 r2 s1 s2 :
    Matches r1 s1 -> Matches r2 s2 -> Matches (Seq r1 r2) (s1 ++ s2)
| MAltL r1 r2 s : Matches r1 s -> Matches (Alt r1 r2) s
| MAltR r1 r2 s : Matches r2 s -> Matches (Alt r1 r2) s
| MStarNil r : Matches (Star r) []
| MStarApp r s1 s2 :
    Matches r s1 -> Matches (Star r) s2 -> Matches (Star r) (s1 ++ s2).

End RegExp.
Export RegExp.

(* ================================================================== *)
(** ** The datastore *)

Module Store.

(** Identifiers are opaque and assigned by the datastore. *)
Definition Id := N.
Bind Scope N_scope with Id.

(** Instants, in milliseconds since the epoch.  The source carries them as
    ISO-8601 strings ([toISOString]) and reads them back with [new Date]. *)
Definition Timestamp := Z.
Bind Scope Z_scope with Timestamp.

(** Row of [project_documents], as embedded by the lookup. *)
Record ProjectDocument := {
  doc_id : Id;
  doc_name : JSString;
  doc_url : JSString
}.

(** Row of [secure_download_tokens]. *)
Record SecureDownloadToken := {
  id : Id;
  token : JSString;
  document_id : Id;
  recipient_email : JSString;
  order_id : Id;
  expires_at : Timestamp;
  max_downloads : Z;
  download_count : Z;
  is_active : bool;
  created_at : Timestamp;
  updated_at : Timestamp
}.

(** Row of [download_attempts]. *)
Record DownloadAttempt := {
  attempt_id : Id;
  token_id : option Id;
  attempted_email : JSString;
  ip_address : option JSString;
  user_agent : option JSString;
  success : bool;
  failure_reason : option JSString;
  attempted_at : Timestamp
}.

(** What the lookup of [verifyDownloadToken] selects: the token row and the
    embedded document, [null] when the document row is gone. *)
Record TokenData := {
  row : SecureDownloadToken;
  project_documents : option ProjectDocument
}.

(** The object literals handed to [insert] and [update].  A property that
    holds [undefined] ([None]) is left out of the request. *)
Record TokenInsert := {
  new_token : JSString;
  new_document_id : Id;
  new_recipient_email : JSString;
  new_order_id : Id;
  new_expires_at : Timestamp;
  new_max_downloads : option Z;
  new_download_count : Z;
  new_is_active : bool
}.

Record AttemptInsert := {
  log_token_id : option Id;
  log_attempted_email : JSString;
  log_ip_address : option JSString;
  log_user_agent : option JSString;
  log_success : bool;
  log_failure_reason : option JSString;
  log_attempted_at : Timestamp
}.

Record TokenPatch := {
  set_is_active : option bool;
  set_download_count : option Z;
  set_updated_at : Timestamp
}.

(** A response of the client is either [{ data, error: null }] or
    [{ data: null, error }]. *)
Inductive PostgrestError := NotASingleRow | RequestRejected.

Inductive Response (A : Type) : Type :=
| Success (data : A)
| Failure (error : PostgrestError).
Arguments Failure {A} error.

(** What a [try] block can catch. *)
Inductive Exn := FetchError | URIError | RangeError.

(** How the datastore answers one request: it performs it, it reports an
    error, or the call itself raises. *)
Inductive Outcome := Ok | Rejected | Raised.

Inductive RpcOutcome := RpcToken (t : JSString) | RpcRejected | RpcRaised.

(** The answers still to come, one stream per kind of request, consumed from
    the head; an exhausted stream answers [Ok] ([RpcRejected] for the token
    function, [0] for a random draw). *)
Record Oracle := {
  select_replies : list Outcome;
  audit_replies : list Outcome;
  update_replies : list Outcome;
  store_replies : list Outcome;
  rpc_replies : list RpcOutcome;
  random_draws : list N
}.

(** The tables, the ambient values and the answers to come.
    [max_downloads_default] is what the tokens table gives to [max_downloads]
    when an insert leaves it out: the default of the column, which is part of
    the schema and not of the repository.  (A table without such a default
    refuses the insert: that is the answer [Rejected].) *)
Record World := {
  tokens : list SecureDownloadToken;
  attempts : list DownloadAttempt;
  documents : list ProjectDocument;
  max_downloads_default : Z;
  clock : Timestamp;
  origin : JSString;
  next_id : Id;
  oracle : Oracle
}.

Definition with_oracle (o : Oracle) (w : World) : World :=
  {| tokens := tokens w; attempts := attempts w; documents := documents w;
     max_downloads_default := max_downloads_default w;
     clock := clock w; origin := origin w; next_id := next_id w;
     oracle := o |}.

Definition with_tokens (ts : list SecureDownloadToken) (w : World) : World :=
  {| tokens := ts; attempts := attempts w; documents := documents w;
     max_downloads_default := max_downloads_default w;
     clock := clock w; origin := origin w; next_id := next_id w;
     oracle := oracle w |}.

Definition with_attempts (l : list DownloadAttempt) (w : World) : World :=
  {| tokens := tokens w; attempts := l; documents := documents w;
     max_downloads_default := max_downloads_default w;
     clock := clock w; origin := origin w; next_id := next_id w;
     oracle := oracle w |}.

Definition with_clock (t : Timestamp) (w : World) : World :=
  {| tokens := tokens w; attempts := attempts w; documents := documents w;
     max_downloads_default := max_downloads_default w;
     clock := t; origin := origin w; next_id := next_id w;
     oracle := oracle w |}.

Definition with_next_id (n : Id) (w : World) : World :=
  {| tokens := tokens w; attempts := attempts w; documents := documents w;
     max_downloads_default := max_downloads_default w;
     clock := clock w; origin := origin w; next_id := n;
     oracle := oracle w |}.

Definition with_select_replies (l : list Outcome) (o : Oracle) : Oracle :=
  {| select_replies := l; audit_replies := audit_replies o;
     update_replies := update_replies o; store_replies := store_replies o;
     rpc_replies := rpc_replies o; random_draws := random_draws o |}.

Definition with_audit_replies (l : list Outcome) (o : Oracle) : Oracle :=
  {| select_replies := select_replies o; audit_replies := l;
     update_replies := update_replies o; store_replies := store_replies o;
     rpc_replies := rpc_replies o; random_draws := random_draws o |}.

Definition with_update_replies (l : list Outcome) (o : Oracle) : Oracle :=
  {| select_replies := select_replies o; audit_replies := audit_replies o;
     update_replies := l; store_replies := store_replies o;
     rpc_replies := rpc_replies o; random_draws := random_draws o |}.

Definition with_store_replies (l : list Outcome) (o : Oracle) : Oracle :=
  {| select_replies := select_replies o; audit_replies := audit_replies o;
     update_replies := update_replies o; store_replies := l;
     rpc_replies := rpc_replies o; random_draws := random_draws o |}.

Definition with_rpc_replies (l : list RpcOutcome) (o : Oracle) : Oracle :=
  {| select_replies := select_replies o; audit_replies := audit_replies o;
     update_replies := update_replies o; store_replies := store_replies o;
     rpc_replies := l; random_draws := random_draws o |}.

Definition with_random_draws (l : list N) (o : Oracle) : Oracle :=
  {| select_replies := select_replies o; audit_replies := audit_replies o;
     update_replies := update_replies o; store_replies := store_replies o;
     rpc_replies := rpc_replies o; random_draws := l |}.

(** The requests the module issues, indexed by what they resolve to.  [Now],
    [RandomBelow] and [LocationOrigin] are the ambient reads [new Date()],
    [Math.floor(Math.random() * n)] and [window.location.origin]. *)
Inductive Call : Type -> Type :=
| SelectActiveToken (tok : JSString) : Call (Response TokenData)
| UpdateToken (i : Id) (p : TokenPatch) : Call (Response unit)
| InsertAttempt (a : AttemptInsert) : Call (Response unit)
| InsertToken (r : TokenInsert) : Call (Response SecureDownloadToken)
| RpcGenerateSecureToken : Call (Response JSString)
| Now : Call Timestamp
| RandomBelow (n : N) : Call N
| LocationOrigin : Call JSString.

(** [.eq('token', tok).eq('is_active', true)] *)
Definition matchesActive (tok : JSString) (r : SecureDownloadToken) : bool :=
  JS.eqb (token r) tok && is_active r.

(** The embedded [project_documents (...)] of a token row. *)
Definition joinDocument (w : World) (r : SecureDownloadToken)
  : option ProjectDocument :=
  find (fun d => N.eqb (doc_id d) (document_id r)) (documents w).

(** [.update(p).eq('id', i)] on one row. *)
Definition applyPatch (i : Id) (p : TokenPatch) (r : SecureDownloadToken)
  : SecureDownloadToken :=
  if N.eqb (id r) i then
    {| id := id r; token := token r; document_id := document_id r;
       recipient_email := recipient_email r; order_id := order_id r;
       expires_at := expires_at r; max_downloads := max_downloads r;
       download_count :=
         match set_download_count p with
         | Some n => n
         | None => download_count r
         end;
       is_active :=
         match set_is_active p with
         | Some b => b
         | None => is_active r
         end;
       created_at := created_at r;
       updated_at := set_updated_at p |}
  else r.

Definition storedToken (w : World) (r : TokenInsert) : SecureDownloadToken :=
  {| id := next_id w; token := new_token r;
     document_id := new_document_id r;
     recipient_email := new_recipient_email r; order_id := new_order_id r;
     expires_at := new_expires_at r;
     max_downloads :=
       match new_max_downloads r with
       | Some m => m
       | None => max_downloads_default w
       end;
     download_count := new_download_count r; is_active := new_is_active r;
     created_at := clock w; updated_at := clock w |}.

Definition storedAttempt (w : World) (a : AttemptInsert) : DownloadAttempt :=
  {| attempt_id := next_id w; token_id := log_token_id a;
     attempted_email := log_attempted_email a;
     ip_address := log_ip_address a; user_agent := log_user_agent a;
     success := log_success a; failure_reason := log_failure_reason a;
     attempted_at := log_attempted_at a |}.

Definition pop_select (w : World) : World :=
  with_oracle (with_select_replies (tl (select_replies (oracle w))) (oracle w)) w.
Definition pop_audit (w : World) : World :=
  with_oracle (with_audit_replies (tl (audit_replies (oracle w))) (oracle w)) w.
Definition pop_update (w : World) : World :=
  with_oracle (with_update_replies (tl (update_replies (oracle w))) (oracle w)) w.
Definition pop_store (w : World) : World :=
  with_oracle (with_store_replies (tl (store_replies (oracle w))) (oracle w)) w.
Definition pop_rpc (w : World) : World :=
  with_oracle (with_rpc_replies (tl (rpc_replies (oracle w))) (oracle w)) w.
Definition pop_random (w : World) : World :=
  with_oracle (with_random_draws (tl (random_draws (oracle w))) (oracle w)) w.

(** The effect of one request on the world and what it resolves to: a value,
    or the exception the call raises. *)
Definition handle {R : Type} (c : Call R) (w : World) : (R + Exn) * World :=
  match c in Call R return (R + Exn) * World with
  | SelectActiveToken tok =>
      match hd Ok (select_replies (oracle w)) with
      | Raised => (inr FetchError, pop_select w)
      | Rejected => (inl (Failure RequestRejected), pop_select w)
      | Ok =>
          match filter (matchesActive tok) (tokens w) with
          | [r] =>
              (inl (Success {| row := r;
                               project_documents := joinDocument w r |}),
               pop_select w)
          | _ => (inl (Failure NotASingleRow), pop_select w)
          end
      end
  | UpdateToken i p =>
      match hd Ok (update_replies (oracle w)) with
      | Raised => (inr FetchError, pop_update w)
      | Rejected => (inl (Failure RequestRejected), pop_update w)
      | Ok =>
          (inl (Success tt),
           pop_update (with_tokens (List.map (applyPatch i p) (tokens w)) w))
      end
  | InsertAttempt a =>
      match hd Ok (audit_replies (oracle w)) with
      | Raised => (inr FetchError, pop_audit w)
      | Rejected => (inl (Failure RequestRejected), pop_audit w)
      | Ok =>
          (inl (Success tt),
           pop_audit
             (with_next_id (N.succ (next_id w))
                (with_attempts (attempts w ++ [storedAttempt w a]) w)))
      end
  | InsertToken r =>
      match hd Ok (store_replies (oracle w)) with
      | Raised => (inr FetchError, pop_store w)
      | Rejected => (inl (Failure RequestRejected), pop_store w)
      | Ok =>
          (inl (Success (storedToken w r)),
           pop_store
             (with_next_id (N.succ (next_id w))
                (with_tokens (tokens w ++ [storedToken w r]) w)))
      end
  | RpcGenerateSecureToken =>
      match hd RpcRejected (rpc_replies (oracle w)) with
      | RpcRaised => (inr FetchError, pop_rpc w)
      | RpcRejected => (inl (Failure RequestRejected), pop_rpc w)
      | RpcToken t => (inl (Success t), pop_rpc w)
      end
  | Now => (inl (clock w), w)
  | RandomBelow n =>
      (inl (hd 0%N (random_draws (oracle w)) mod n)%N, pop_random w)
  | LocationOrigin => (inl (origin w), w)
  end.

End Store.
Export Store.

(* ================================================================== *)
(** ** Asynchronous programs *)

Module Async.

(** A program is a tree whose nodes are the requests it awaits.  The
    continuation of a request receives what the request resolved to, or the
    exception it raised. *)
Inductive Prog (A : Type) : Type :=
| Ret (a : A)
| Throw (e : Exn)
| Vis (R : Type) (c : Call R) (k : R + Exn -> Prog A).
Arguments Throw {A} e.
Arguments Vis {A R} c k.

Fixpoint bind {A B : Type} (p : Prog A) (f : A -> Prog B) : Prog B :=
  match p with
  | Ret a => f a
  | Throw e => Throw e
  | Vis c k => Vis c (fun r => bind (k r) f)
  end.

(** [try { p } catch (e) { h e }] *)
Fixpoint try_catch {A : Type} (p : Prog A) (h : Exn -> Prog A) : Prog A :=
  match p with
  | Ret a => Ret a
  | Throw e => h e
  | Vis c k => Vis c (fun r => try_catch (k r) h)
  end.

(** [await c] *)
Definition await {R : Type} (c : Call R) : Prog R :=
  Vis c (fun r => match r with inl x => Ret x | inr e => Throw e end).

(** How a program ends. *)
Inductive Completion (A : Type) : Type :=
| Normal (a : A)
| Abrupt (e : Exn).
Arguments Abrupt {A} e.

(** Running a program alone, to completion. *)
Fixpoint run {A : Type} (p : Prog A) (w : World) : Completion A * World :=
  match p with
  | Ret a => (Normal a, w)
  | Throw e => (Abrupt e, w)
  | Vis c k => let (r, w') := handle c w in run (k r) w'
  end.

(** One step of a program: the request it is waiting on is served. *)
Definition resume {A : Type} (p : Prog A) (w : World) : Prog A * World :=
  match p with
  | Vis c k => let (r, w') := handle c w in (k r, w')
  | _ => (p, w)
  end.

End Async.
Export Async.

Declare Scope prog_scope.
Delimit Scope prog_scope with prog.
Notation "x <- p ;; q" := (bind p (fun x => q))
  (at level 61, p at next level, right associativity) : prog_scope.
Notation "p ;; q" := (bind p (fun _ => q))
  (at level 61, right associativity) : prog_scope.
Open Scope prog_scope.

(* ================================================================== *)
(** ** The module [secureDownloads] *)

Module Downloads.

Section OverAnyHost.

Context {runtime : Runtime}.

(** The configuration as it is at run time: a property holds a value, or
    [undefined] ([None]).  Hours and ceilings are whole numbers. *)
Record SecureDownloadConfig := {
  expirationHours : option Z;
  maxDownloads : option Z;
  requireEmailVerification : option bool
}.

(** [Partial<SecureDownloadConfig>]: a key is absent ([None]) or present, and
    a key that is present holds a value or [undefined]. *)
Record PartialConfig := {
  expirationHours_opt : option (option Z);
  maxDownloads_opt : option (option Z);
  requireEmailVerification_opt : option (option bool)
}.

Definition DEFAULT_CONFIG : SecureDownloadConfig :=
  {| expirationHours := Some 72%Z; maxDownloads := Some 5%Z;
     requireEmailVerification := Some true |}.

(** One key of a spread: what the later object holds under it, when it has
    the key. *)
Definition orDefault {A : Type} (o : option A) (d : A) : A :=
  match o with Some a => a | None => d end.

(** [{ ...DEFAULT_CONFIG, ...config }] *)
Definition mergeConfig (d : SecureDownloadConfig) (c : PartialConfig)
  : SecureDownloadConfig :=
  {| expirationHours := orDefault (expirationHours_opt c) (expirationHours d);
     maxDownloads := orDefault (maxDownloads_opt c) (maxDownloads d);
     requireEmailVerification :=
       orDefault (requireEmailVerification_opt c)
                 (requireEmailVerification d) |}.

(** The argument documents of the generator. *)
Record DocumentRef := {
  ref_id : Id;
  ref_name : JSString;
  ref_url : JSString
}.

(** One element of the generator's result. *)
Record SecureUrl := {
  documentId : Id;
  documentName : JSString;
  secureUrl : JSString;
  expiresAt : Timestamp
}.

(** *** Dates

    The time value of a [Date] is a number of milliseconds, or NaN for an
    invalid date ([None]).  The abstract operations are those of ECMA-262,
    with [/] and [mod] rounding down as [floor] and [modulo] do. *)
Definition msPerSecond : Z := 1000.
Definition msPerMinute : Z := 60000.
Definition msPerHour : Z := 3600000.
Definition msPerDay : Z := 86400000.

Definition Day (t : Z) : Z := (t / msPerDay)%Z.
Definition HourFromTime (t : Z) : Z := ((t / msPerHour) mod 24)%Z.
Definition MinFromTime (t : Z) : Z := ((t / msPerMinute) mod 60)%Z.
Definition SecFromTime (t : Z) : Z := ((t / msPerSecond) mod 60)%Z.
Definition msFromTime (t : Z) : Z := (t mod msPerSecond)%Z.

Definition MakeTime (hour min sec ms : Z) : Z :=
  (hour * msPerHour + min * msPerMinute + sec * msPerSecond + ms)%Z.

Definition MakeDate (day time : Z) : Z := (day * msPerDay + time)%Z.

(** A time value outside of +-8.64e15 ms is no date. *)
Definition validDate (t : Z) : bool :=
  (Z.abs t <=? 8640000000000000)%Z.

Definition TimeClip (t : Z) : option Timestamp :=
  if validDate t then Some t else None.

Definition LocalTime (t : Z) : Z := (t + LocalTZA t true)%Z.

Definition UTC (t : Z) : Z := (t - LocalTZA t false)%Z.

(** [d.getHours()], for a date that holds [t]. *)
Definition getHours (t : Timestamp) : Z := HourFromTime (LocalTime t).

(** [number + x], where [x] is a number or [undefined]: NaN ([None]) in the
    second case. *)
Definition plus (n : Z) (x : option Z) : option Z :=
  option_map (Z.add n) x.

(** [d.setHours(hour)], for a date that holds [t]: the time value the date
    holds afterwards.  The minutes, seconds and milliseconds are those of the
    local time of [t]. *)
Definition setHours (t : Timestamp) (hour : option Z) : option Timestamp :=
  match hour with
  | None => None
  | Some h =>
      let local := LocalTime t in
      TimeClip
        (UTC (MakeDate (Day local)
                (MakeTime h (MinFromTime local) (SecFromTime local)
                          (msFromTime local))))
  end.

(** [Date.prototype.toISOString] raises a [RangeError] on an invalid date. *)
Definition toISOString (d : option Timestamp) : Prog Timestamp :=
  match d with
  | Some t => Ret t
  | None => Throw RangeError
  end.

(** [characters.charAt(i)] *)
Definition charAt (s : JSString) (i : N) : JSString :=
  match nth_error s (N.to_nat i) with
  | Some c => [c]
  | None => []
  end.

Definition characters : JSString :=
  js "ABCDEFGHIJKLMNOPQRSTUVWXYZabcdefghijklmnopqrstuvwxyz0123456789".

(** The loop of [generateClientSideToken], [n] iterations being left. *)
Fixpoint clientSideTokenLoop (n : nat) (result : JSString) : Prog JSString :=
  match n with
  | O => Ret result
  | S n' =>
      i <- await (RandomBelow (N.of_nat (List.length characters))) ;;
      clientSideTokenLoop n' (result ++ charAt characters i)
  end.

Definition generateClientSideToken : Prog JSString :=
  clientSideTokenLoop 32 [].

(** Lines 82-112 and 118-148 of the source are the same statements, once for
    the client-side token and once for the token of the database function:
    store the token, [continue] when the store reports an error, otherwise
    push the shareable reference.  The result is [secureUrls] after them. *)
Definition storeAndPush (document : DocumentRef) (tok : JSString)
    (recipientEmail : JSString) (orderId : Id) (expires : option Timestamp)
    (finalConfig : SecureDownloadConfig) (secureUrls : list SecureUrl)
  : Prog (list SecureUrl) :=
  iso <- toISOString expires ;;
  stored <- await (InsertToken
    {| new_token := tok;
       new_document_id := ref_id document;
       new_recipient_email := trim (toLowerCase recipientEmail);
       new_order_id := orderId;
       new_expires_at := iso;
       new_max_downloads := maxDownloads finalConfig;
       new_download_count := 0;
       new_is_active := true |}) ;;
  match stored with
  | Failure _ => Ret secureUrls
  | Success _ =>
      baseUrl <- await LocationOrigin ;;
      match encodeURIComponent recipientEmail with
      | None => Throw URIError
      | Some email =>
          iso' <- toISOString expires ;;
          Ret (secureUrls ++
               [ {| documentId := ref_id document;
                    documentName := ref_name document;
                    secureUrl := baseUrl ++ js "/secure-download/" ++ tok
                                   ++ js "?email=" ++ email;
                    expiresAt := iso' |} ])
      end
  end.

(** The body of the [for] loop, with its [try]/[catch]. *)
Definition generateForDocument (document : DocumentRef)
    (recipientEmail : JSString) (orderId : Id) (expires : option Timestamp)
    (finalConfig : SecureDownloadConfig) (secureUrls : list SecureUrl)
  : Prog (list SecureUrl) :=
  try_catch
    (rpc <- await RpcGenerateSecureToken ;;
     match rpc with
     | Failure _ =>
         tok <- generateClientSideToken ;;
         storeAndPush document tok recipientEmail orderId expires
                      finalConfig secureUrls
     | Success tok =>
         storeAndPush document tok recipientEmail orderId expires
                      finalConfig secureUrls
     end)
    (fun _ => Ret secureUrls).

Fixpoint generateLoop (documents : list DocumentRef)
    (recipientEmail : JSString) (orderId : Id) (expires : option Timestamp)
    (finalConfig : SecureDownloadConfig) (secureUrls : list SecureUrl)
  : Prog (list SecureUrl) :=
  match documents with
  | [] => Ret secureUrls
  | document :: rest =>
      secureUrls' <- generateForDocument document recipientEmail orderId
                       expires finalConfig secureUrls ;;
      generateLoop rest recipientEmail orderId expires finalConfig secureUrls'
  end.

Definition generateSecureDownloadTokens (documents : list DocumentRef)
    (recipientEmail : JSString) (orderId : Id) (config : PartialConfig)
  : Prog (list SecureUrl) :=
  let finalConfig := mergeConfig DEFAULT_CONFIG config in
  now <- await Now ;;
  (* expiresAt.setHours(expiresAt.getHours() + finalConfig.expirationHours) *)
  let expires :=
    setHours now (plus (getHours now) (expirationHours finalConfig)) in
  generateLoop documents recipientEmail orderId expires finalConfig [].

(** The messages returned to the caller; the text of each is a template of
    the source, instantiated with the value the constructor carries. *)
Inductive Reason :=
| InvalidOrExpiredLink
    (* 'Invalid or expired download link. Please check your email ...' *)
| LinkExpiredOn (expiresAt : Timestamp)
    (* `Download link has expired on ${expiresAt.toLocaleDateString()}. ...` *)
| AuthorizedForOnly (recipient_email : JSString)
    (* `This download link is authorized for ${recipient_email} only. ...` *)
| LimitReached (max_downloads : Z)
    (* `Download limit of ${max_downloads} has been reached ...` *)
| DocumentUnavailable
    (* 'The requested document is no longer available. ...' *)
| SystemErrorOccurred.
    (* 'A system error occurred. Please try again or contact support ...' *)

Record VerifyResult := {
  valid : bool;
  document : option ProjectDocument;
  reason : option Reason;
  tokenData : option TokenData
}.

(** Enhanced download attempt logging. *)
Definition logDownloadAttempt (tokenId : option Id) (attemptedEmail : JSString)
    (success : bool) (failureReason : option JSString)
    (ipAddress userAgent : option JSString) : Prog unit :=
  try_catch
    (now <- await Now ;;
     _ <- await (InsertAttempt
       {| log_token_id := tokenId;
          log_attempted_email := trim (toLowerCase attemptedEmail);
          log_ip_address := ipAddress;
          log_user_agent := userAgent;
          log_success := success;
          log_failure_reason := failureReason;
          log_attempted_at := now |}) ;;
     (* both branches of [if (error)] only write to the console *)
     Ret tt)
    (fun _ => Ret tt).

(** Verify and validate download token with enhanced email verification. *)
Definition verifyDownloadToken (tok attemptedEmail : JSString)
    (ipAddress userAgent : option JSString) : Prog VerifyResult :=
  try_catch
    (let normalizedAttemptedEmail := trim (toLowerCase attemptedEmail) in
     lookup <- await (SelectActiveToken tok) ;;
     match lookup with
     | Failure _ =>
         logDownloadAttempt None normalizedAttemptedEmail false
           (Some (js "Invalid or expired token")) ipAddress userAgent ;;
         Ret {| valid := false; document := None;
                reason := Some InvalidOrExpiredLink; tokenData := None |}
     | Success tokenData =>
         let t := row tokenData in
         (* Check expiration *)
         now <- await Now ;;
         let expiresAt := expires_at t in
         if (now >? expiresAt)%Z then
           logDownloadAttempt (Some (id t)) normalizedAttemptedEmail false
             (Some (js "Token expired")) ipAddress userAgent ;;
           (* Deactivate expired token *)
           now' <- await Now ;;
           _ <- await (UpdateToken (id t)
                  {| set_is_active := Some false;
                     set_download_count := None;
                     set_updated_at := now' |}) ;;
           Ret {| valid := false; document := None;
                  reason := Some (LinkExpiredOn expiresAt);
                  tokenData := Some tokenData |}
         else
           let normalizedTokenEmail := trim (toLowerCase (recipient_email t)) in
           (* Check exact email match *)
           if negb (JS.eqb normalizedTokenEmail normalizedAttemptedEmail) then
             logDownloadAttempt (Some (id t)) normalizedAttemptedEmail false
               (Some (js "Email mismatch")) ipAddress userAgent ;;
             Ret {| valid := false; document := None;
                    reason := Some (AuthorizedForOnly (recipient_email t));
                    tokenData := Some tokenData |}
           (* Check download count *)
           else if (download_count t >=? max_downloads t)%Z then
             logDownloadAttempt (Some (id t)) normalizedAttemptedEmail false
               (Some (js "Download limit exceeded")) ipAddress userAgent ;;
             Ret {| valid := false; document := None;
                    reason := Some (LimitReached (max_downloads t));
                    tokenData := Some tokenData |}
           else
             (* Check if document exists *)
             match project_documents tokenData with
             | None =>
                 logDownloadAttempt (Some (id t)) normalizedAttemptedEmail
                   false (Some (js "Document not found")) ipAddress userAgent ;;
                 Ret {| valid := false; document := None;
                        reason := Some DocumentUnavailable;
                        tokenData := Some tokenData |}
             | Some doc =>
                 (* Valid token - log successful attempt *)
                 logDownloadAttempt (Some (id t)) normalizedAttemptedEmail
                   true None ipAddress userAgent ;;
                 (* Increment download count *)
                 now' <- await Now ;;
                 _ <- await (UpdateToken (id t)
                        {| set_is_active := None;
                           set_download_count := Some (download_count t + 1)%Z;
                           set_updated_at := now' |}) ;;
                 (* [if (updateError)] only writes to the console *)
                 Ret {| valid := true; document := Some doc;
                        reason := None; tokenData := Some tokenData |}
             end
     end)
    (fun _ =>
       logDownloadAttempt None (trim (toLowerCase attemptedEmail)) false
         (Some (js "System error")) ipAddress userAgent ;;
       Ret {| valid := false; document := None;
              reason := Some SystemErrorOccurred; tokenData := None |}).

(** [/^[^\s@]+@[^\s@]+\.[^\s@]+$/] *)
Definition notSpaceNorAt (c : CodeUnit) : bool :=
  negb (isWhiteSpace c || N.eqb c 64%N).

Definition emailRegex : Regex :=
  Seq (Plus (Class notSpaceNorAt))
      (Seq (Chr 64%N)
           (Seq (Plus (Class notSpaceNorAt))
                (Seq (Chr 46%N) (Plus (Class notSpaceNorAt))))).

(** Enhanced email validation. *)
Definition validateEmail (email : JSString) : bool :=
  test emailRegex (trim email).

(** Revoke download token. *)
Definition revokeDownloadToken (tokenId : Id) : Prog bool :=
  try_catch
    (now <- await Now ;;
     r <- await (UpdateToken tokenId
            {| set_is_active := Some false;
               set_download_count := None;
               set_updated_at := now |}) ;;
     Ret (match r with Success _ => true | Failure _ => false end))
    (fun _ => Ret false).

End OverAnyHost.

End Downloads.
Export Downloads.

(* ================================================================== *)
(** ** Requests in flight *)

Module Concurrent.

Section OverAnyHost.

Context {runtime : Runtime}.

(** A request being served: a verification or a revocation, suspended at the
    datastore call it awaits. *)
Inductive Thread :=
| Verifying (p : Prog VerifyResult)
| Revoking (p : Prog bool).

Definition resumeThread (t : Thread) (w : World) : Thread * World :=
  match t with
  | Verifying p => let (p', w') := resume p w in (Verifying p', w')
  | Revoking p => let (p', w') := resume p w in (Revoking p', w')
  end.

Fixpoint resumeNth (i : nat) (ts : list Thread) (w : World)
  : list Thread * World :=
  match ts, i with
  | [], _ => ([], w)
  | t :: ts', O => let (t', w') := resumeThread t w in (t' :: ts', w')
  | t :: ts', S i' => let (ts'', w') := resumeNth i' ts' w in (t :: ts'', w')
  end.

(** What can happen next: a new request arrives, the request in slot [i] gets
    the answer it is waiting for, or time passes. *)
Inductive Event :=
| VerifyRequest (tok attemptedEmail : JSString)
                (ipAddress userAgent : option JSString)
| RevokeRequest (tokenId : Id)
| Resume (i : nat)
| Tick (t : Timestamp).

Definition Config := (World * list Thread)%type.

Definition fire (cfg : Config) (ev : Event) : Config :=
  let (w, ts) := cfg in
  match ev with
  | VerifyRequest tok e ip ua =>
      (w, ts ++ [Verifying (verifyDownloadToken tok e ip ua)])
  | RevokeRequest i => (w, ts ++ [Revoking (revokeDownloadToken i)])
  | Resume i => let (ts', w') := resumeNth i ts w in (w', ts')
  | Tick t => (with_clock t w, ts)
  end.

(** Any interleaving of requests is a sequence of events. *)
Definition interleave (evs : list Event) (cfg : Config) : Config :=
  fold_left fire evs cfg.

(** The result of the request in slot [i], once it has returned. *)
Definition verdict (cfg : Config) (i : nat) : option VerifyResult :=
  match nth_error (snd cfg) i with
  | Some (Verifying (Ret r)) => Some r
  | _ => None
  end.

End OverAnyHost.

End Concurrent.
Export Concurrent.

(* ================================================================== *)
(** ** Vocabulary of the specification *)

Module Spec.

Section OverAnyHost.

Context {runtime : Runtime}.

(** The quota invariant of a token row. *)
Definition quotaHolds (r : SecureDownloadToken) : Prop :=
  (0 <= download_count r <= max_downloads r)%Z.

(** The audit requests a program issues when run alone, in order, whether the
    datastore accepts them or not. *)
Fixpoint audited {A : Type} (p : Prog A) (w : World) : list AttemptInsert :=
  match p with
  | Vis c k =>
      let (r, w') := handle c w in
      match c with
      | InsertAttempt a => a :: audited (k r) w'
      | _ => audited (k r) w'
      end
  | _ => []
  end.

(** The checks of the verification pipeline, in the order of the
    specification. *)
Inductive Check :=
| Lookup | Expiration | EmailMatch | Quota | DocumentExistence.

Definition checksAfterLookup : list Check :=
  [Expiration; EmailMatch; Quota; DocumentExistence].

(** The token a lookup of [tok] resolves to: the one active row carrying that
    string, joined with its document. *)
Definition resolves (w : World) (tok : JSString) : option TokenData :=
  match hd Ok (select_replies (oracle w)) with
  | Ok =>
      match filter (matchesActive tok) (tokens w) with
      | [r] => Some {| row := r; project_documents := joinDocument w r |}
      | _ => None
      end
  | _ => None
  end.

Definition normalize (email : JSString) : JSString :=
  trim (toLowerCase email).

(** Whether a check fails for a resolved token, at the time of the world. *)
Definition failsCheck (w : World) (td : TokenData) (email : JSString)
    (c : Check) : bool :=
  match c with
  | Lookup => false
  | Expiration => (clock w >? expires_at (row td))%Z
  | EmailMatch =>
      negb (JS.eqb (normalize (recipient_email (row td))) (normalize email))
  | Quota => (download_count (row td) >=? max_downloads (row td))%Z
  | DocumentExistence =>
      match project_documents td with None => true | Some _ => false end
  end.

(** The first check of the pipeline that fails, if any. *)
Definition firstFailing (w : World) (tok email : JSString) : option Check :=
  match resolves w tok with
  | None => Some Lookup
  | Some td => find (failsCheck w td email) checksAfterLookup
  end.

(** The message and the audit reason that go with each check. *)
Definition messageOf (c : Check) (td : option TokenData) : option Reason :=
  match c, td with
  | Lookup, _ => Some InvalidOrExpiredLink
  | Expiration, Some d => Some (LinkExpiredOn (expires_at (row d)))
  | EmailMatch, Some d => Some (AuthorizedForOnly (recipient_email (row d)))
  | Quota, Some d => Some (LimitReached (max_downloads (row d)))
  | DocumentExistence, Some _ => Some DocumentUnavailable
  | _, None => None
  end.

Definition auditReasonOf (c : Check) : JSString :=
  match c with
  | Lookup => js "Invalid or expired token"
  | Expiration => js "Token expired"
  | EmailMatch => js "Email mismatch"
  | Quota => js "Download limit exceeded"
  | DocumentExistence => js "Document not found"
  end.

(** The one audit request a verification is to issue: against no token when
    the lookup fails, against the resolved token otherwise; a failure with the
    reason of the first failing check, a success when every check passes. *)
Definition expectedAudit (w : World) (tok email : JSString)
    (ip ua : option JSString) : AttemptInsert :=
  {| log_token_id := option_map (fun d => id (row d)) (resolves w tok);
     log_attempted_email := normalize (normalize email);
     log_ip_address := ip;
     log_user_agent := ua;
     log_success :=
       match firstFailing w tok email with None => true | Some _ => false end;
     log_failure_reason := option_map auditReasonOf (firstFailing w tok email);
     log_attempted_at := clock w |}.

(** The result a verification is to return. *)
Definition expectedResult (w : World) (tok email : JSString) : VerifyResult :=
  match firstFailing w tok email with
  | Some c =>
      {| valid := false; document := None;
         reason := messageOf c (resolves w tok);
         tokenData := match c with Lookup => None | _ => resolves w tok end |}
  | None =>
      {| valid := true;
         document :=
           match resolves w tok with
           | Some d => project_documents d
           | None => None
           end;
         reason := None;
         tokenData := resolves w tok |}
  end.

(** Shapes of e-mail addresses. *)
Definition AT : CodeUnit := 64%N.
Definition DOT : CodeUnit := 46%N.

Definition noWhiteSpace (s : JSString) : Prop :=
  Forall (fun c => isWhiteSpace c = false) s.

(** Exactly one [@], between [local] and [domain]. *)
Definition partitioned (s local domain : JSString) : Prop :=
  s = local ++ AT :: domain /\ ~ In AT local /\ ~ In AT domain.

(** The validity check in the words of the specification. *)
Definition claimedEmailShape (s : JSString) : Prop :=
  noWhiteSpace s /\
  exists local domain,
    partitioned s local domain /\ local <> [] /\ In DOT domain.

(** The same with a dot that is neither the first nor the last character of
    the domain. *)
Definition emailShape (s : JSString) : Prop :=
  noWhiteSpace s /\
  exists local domain,
    partitioned s local domain /\ local <> [] /\
    exists d1 d2, domain = d1 ++ DOT :: d2 /\ d1 <> [] /\ d2 <> [].

(** The documents of a batch whose token gets stored: the datastore answers
    one token-function call per document and, unless that call raised, one
    insert; the document is stored when the insert is accepted. *)
Fixpoint storedDocuments (documents : list DocumentRef)
    (rpcs : list RpcOutcome) (stores : list Outcome) : list DocumentRef :=
  match documents with
  | [] => []
  | d :: rest =>
      match hd RpcRejected rpcs with
      | RpcRaised => storedDocuments rest (tl rpcs) stores
      | _ =>
          match hd Ok stores with
          | Ok => d :: storedDocuments rest (tl rpcs) (tl stores)
          | _ => storedDocuments rest (tl rpcs) (tl stores)
          end
      end
  end.

(** The world once the datastore has served a request. *)
Definition served {R : Type} (c : Call R) (w : World) : World :=
  snd (handle c w).

(** What becomes of audit requests sent one after the other: a request is
    recorded when the datastore accepts its insert, under the next
    identifier. *)
Fixpoint recorded (w : World) (answers : list Outcome)
    (requests : list AttemptInsert) : list DownloadAttempt :=
  match requests with
  | [] => []
  | a :: rest =>
      match hd Ok answers with
      | Ok =>
          storedAttempt w a ::
          recorded (with_next_id (N.succ (next_id w)) w) (tl answers) rest
      | _ => recorded w (tl answers) rest
      end
  end.

(** The audit request [logDownloadAttempt] builds. *)
Definition auditOf (w : World) (tokenId : option Id) (attemptedEmail : JSString)
    (success : bool) (failureReason : option JSString)
    (ipAddress userAgent : option JSString) : AttemptInsert :=
  {| log_token_id := tokenId;
     log_attempted_email := normalize attemptedEmail;
     log_ip_address := ipAddress;
     log_user_agent := userAgent;
     log_success := success;
     log_failure_reason := failureReason;
     log_attempted_at := clock w |}.

(** The generic failure of the [catch] block and its audit request. *)
Definition systemError : VerifyResult :=
  {| valid := false; document := None;
     reason := Some SystemErrorOccurred; tokenData := None |}.

Definition systemErrorAudit (w : World) (email : JSString)
    (ip ua : option JSString) : AttemptInsert :=
  auditOf w None (normalize email) false (Some (js "System error")) ip ua.

(** The update that ends a verification: the deactivation of an expired
    token, the increment of the counter on success, none otherwise. *)
Definition finalUpdate (w : World) (tok email : JSString)
  : option (Id * TokenPatch) :=
  match resolves w tok, firstFailing w tok email with
  | Some td, Some Expiration =>
      Some (id (row td),
            {| set_is_active := Some false; set_download_count := None;
               set_updated_at := clock w |})
  | Some td, None =>
      Some (id (row td),
            {| set_is_active := None;
               set_download_count := Some (download_count (row td) + 1)%Z;
               set_updated_at := clock w |})
  | _, _ => None
  end.

(** *** Quota discipline of programs

    The identifier and the ceiling of every token row; no request of the
    module changes them. *)
Definition quotaKeys (w : World) : list (Id * Z) :=
  List.map (fun r => (id r, max_downloads r)) (tokens w).

(** A request respects the quota when the counter it writes lies within the
    ceiling of the rows it addresses, and when it creates no token. *)
Definition callRespectsQuota (K : list (Id * Z)) {R : Type} (c : Call R)
  : Prop :=
  match c with
  | UpdateToken i p =>
      match set_download_count p with
      | Some n => forall m, In (i, m) K -> (0 <= n <= m)%Z
      | None => True
      end
  | InsertToken _ => False
  | _ => True
  end.

(** What a lookup can answer in a world whose rows satisfy the invariant. *)
Definition plausible (K : list (Id * Z)) {R : Type} (c : Call R)
  : R + Exn -> Prop :=
  match c in Call R return R + Exn -> Prop with
  | SelectActiveToken _ => fun r =>
      match r with
      | inl (Success td) =>
          In (id (row td), max_downloads (row td)) K /\
          (0 <= download_count (row td))%Z
      | _ => True
      end
  | _ => fun _ => True
  end.

(** Every request the program may come to issue respects the quota. *)
Fixpoint respectsQuota (K : list (Id * Z)) {A : Type} (p : Prog A) : Prop :=
  match p with
  | Vis c k =>
      callRespectsQuota K c /\
      forall r, plausible K c r -> respectsQuota K (k r)
  | _ => True
  end.

Definition threadRespectsQuota (K : list (Id * Z)) (t : Thread) : Prop :=
  match t with
  | Verifying p => respectsQuota K p
  | Revoking p => respectsQuota K p
  end.

(** The invariant of the tokens table: every row within its quota, and
    identifiers that identify. *)
Definition tokensInvariant (w : World) : Prop :=
  Forall quotaHolds (tokens w) /\ NoDup (List.map id (tokens w)).

(** The reference pushed for a document. *)
Definition shareable (document : DocumentRef) (baseUrl tok email : JSString)
    (expires : Timestamp) : SecureUrl :=
  {| documentId := ref_id document;
     documentName := ref_name document;
     secureUrl := baseUrl ++ js "/secure-download/" ++ tok
                    ++ js "?email=" ++ email;
     expiresAt := expires |}.

End OverAnyHost.

End Spec.
Export Spec.

(* ================================================================== *)
(** ** A small shop *)

Module Examples.

(** The host of the examples: a machine on UTC, with the case mapping of the
    letters A-Z.  The addresses of the examples are made of ASCII characters
    and, for one of them, a lone surrogate: on such strings this is what
    [String.prototype.toLowerCase] gives on every runtime. *)
Definition lowerUnit (c : CodeUnit) : CodeUnit :=
  if ((65 <=? c) && (c <=? 90))%N then (c + 32)%N else c.

Definition onUTC : Runtime :=
  {| toLowerCase := List.map lowerUnit;
     LocalTZA := fun _ _ => 0%Z |}.

(** A host one hour east of UTC until the instant 10000000, and two hours
    east from then on: the clocks go forward by an hour at that instant, and
    a local time of the hour that is skipped is read with the offset from
    before. *)
Definition springForward : Runtime :=
  {| toLowerCase := List.map lowerUnit;
     LocalTZA := fun t isUTC =>
       if isUTC then (if t <? 10000000 then 3600000 else 7200000)%Z
       else (if t <? 17200000 then 3600000 else 7200000)%Z |}.

(** A datastore that performs every request. *)
Definition quietOracle : Oracle :=
  {| select_replies := []; audit_replies := []; update_replies := [];
     store_replies := []; rpc_replies := []; random_draws := [] |}.

Definition manual : ProjectDocument :=
  {| doc_id := 7; doc_name := js "Manual.pdf";
     doc_url := js "https://files.example/manual.pdf" |}.

(** A token bound to [User@Example.com], good for one download. *)
Definition userToken : SecureDownloadToken :=
  {| id := 1; token := js "T1"; document_id := 7;
     recipient_email := js "User@Example.com"; order_id := 3;
     expires_at := 1000; max_downloads := 1; download_count := 0;
     is_active := true; created_at := 0; updated_at := 0 |}.

Definition shop : World :=
  {| tokens := [userToken]; attempts := []; documents := [manual];
     max_downloads_default := 5; clock := 500;
     origin := js "https://shop.example"; next_id := 10;
     oracle := quietOracle |}.

Definition threeDocuments : list DocumentRef :=
  [ {| ref_id := 7; ref_name := js "D1"; ref_url := js "u1" |};
    {| ref_id := 8; ref_name := js "D2"; ref_url := js "u2" |};
    {| ref_id := 9; ref_name := js "D3"; ref_url := js "u3" |} ].

(** The token function answers, and the datastore rejects the second of
    three inserts. *)
Definition secondInsertRejected : Oracle :=
  {| select_replies := []; audit_replies := []; update_replies := [];
     store_replies := [Ok; Rejected; Ok];
     rpc_replies := [RpcToken (js "k1"); RpcToken (js "k2");
                     RpcToken (js "k3")];
     random_draws := [] |}.

Definition threeTokens : Oracle :=
  {| select_replies := []; audit_replies := []; update_replies := [];
     store_replies := [];
     rpc_replies := [RpcToken (js "k1"); RpcToken (js "k2");
                     RpcToken (js "k3")];
     random_draws := [] |}.

Definition defaults : PartialConfig :=
  {| expirationHours_opt := None; maxDownloads_opt := None;
     requireEmailVerification_opt := None |}.

(** Two requests for the same single-use token, each resumed in turn (a
    verification awaits six times on its way to the increment): both
    pass the quota check on the same snapshot, both are told to proceed, both
    write the same counter. *)
Definition race : list Event :=
  [ VerifyRequest (js "T1") (js "user@example.com") None None;
    VerifyRequest (js "T1") (js "user@example.com") None None;
    Resume 0; Resume 1; Resume 0; Resume 1; Resume 0; Resume 1;
    Resume 0; Resume 1; Resume 0; Resume 1; Resume 0; Resume 1 ].

(** The shop after two requests and with a second order: one download of
    the token of order 3, one attempt against no token. *)
Definition busyShop : World :=
  {| tokens :=
       [ userToken;
         {| id := 2; token := js "T2"; document_id := 7;
            recipient_email := js "other@example.com"; order_id := 5;
            expires_at := 100; max_downloads := 5; download_count := 0;
            is_active := true; created_at := 0; updated_at := 0 |} ];
     attempts :=
       [ {| attempt_id := 10; token_id := Some 1%N;
            attempted_email := js "user@example.com"; ip_address := None;
            user_agent := None; success := true; failure_reason := None;
            attempted_at := 400 |};
         {| attempt_id := 11; token_id := None;
            attempted_email := js "who@example.com"; ip_address := None;
            user_agent := None; success := false;
            failure_reason := Some (js "Invalid or expired token");
            attempted_at := 450 |} ];
     documents := [manual]; max_downloads_default := 5; clock := 500;
     origin := js "https://shop.example"; next_id := 12;
     oracle := quietOracle |}.

End Examples.
Export Examples.

(* ================================================================== *)
(** ** The administrative functions of the module *)

Module Admin.

Section OverAnyHost.

Context {runtime : Runtime}.

(** Request new download links (for expired tokens).  The order identifier is
    only printed into the reason, so it is taken as the string it is in the
    source.  The result of the insert is not looked at. *)
Definition requestNewDownloadLinks (orderId recipientEmail : JSString)
  : Prog bool :=
  try_catch
    (now <- await Now ;;
     _ <- await (InsertAttempt
       {| log_token_id := None;
          log_attempted_email := trim (toLowerCase recipientEmail);
          log_ip_address := None;
          log_user_agent := None;
          log_success := false;
          log_failure_reason :=
            Some (js "New download links requested for order " ++ orderId);
          log_attempted_at := now |}) ;;
     Ret true)
    (fun _ => Ret false).

(** *** Statistics

    The read-only queries of [getDownloadStatistics], in direct style: a
    query reads the tables of the world and consumes one answer of the
    datastore to a select. *)
Definition Direct (A : Type) : Type := World -> Completion A * World.

Definition dret {A : Type} (a : A) : Direct A := fun w => (Normal a, w).

Definition dbind {A B : Type} (m : Direct A) (f : A -> Direct B) : Direct B :=
  fun w =>
    match m w with
    | (Normal a, w') => f a w'
    | (Abrupt e, w') => (Abrupt e, w')
    end.

(** [await Promise.all([p, q])]: both queries are sent, and the first
    exception, if any, is raised. *)
Definition all2 {A B : Type} (p : Direct A) (q : Direct B) : Direct (A * B) :=
  fun w =>
    let (a, w1) := p w in
    let (b, w2) := q w1 in
    match a, b with
    | Normal x, Normal y => (Normal (x, y), w2)
    | Abrupt e, _ => (Abrupt e, w2)
    | _, Abrupt e => (Abrupt e, w2)
    end.

Definition select {A : Type} (rows : World -> list A)
  : Direct (Response (list A)) :=
  fun w =>
    match hd Ok (select_replies (oracle w)) with
    | Ok => (Normal (Success (rows w)), pop_select w)
    | Rejected => (Normal (Failure RequestRejected), pop_select w)
    | Raised => (Abrupt FetchError, pop_select w)
    end.

(** [.eq('order_id', orderId)], when an order is given. *)
Definition ofOrder (orderId : option Id) (t : SecureDownloadToken) : bool :=
  match orderId with
  | Some o => N.eqb (order_id t) o
  | None => true
  end.

(** [.in('token_id', tokenIds)], when the filter is set. *)
Definition ofTokens (tokenIds : option (list Id)) (a : DownloadAttempt)
  : bool :=
  match tokenIds with
  | Some ids =>
      match token_id a with
      | Some i => existsb (N.eqb i) ids
      | None => false
      end
  | None => true
  end.

(** [result.data || []] *)
Definition dataOrEmpty {A : Type} (r : Response (list A)) : list A :=
  match r with
  | Success d => d
  | Failure _ => []
  end.

Record DownloadStatistics := {
  totalTokens : nat;
  activeTokens : nat;
  expiredTokens : nat;
  totalAttempts : nat;
  successfulDownloads : nat;
  failedAttempts : nat
}.

Definition noStatistics : DownloadStatistics :=
  {| totalTokens := 0; activeTokens := 0; expiredTokens := 0;
     totalAttempts := 0; successfulDownloads := 0; failedAttempts := 0 |}.

(** The six counts, from the rows the queries returned. *)
Definition summarize (now : Timestamp) (tokens_ : list SecureDownloadToken)
    (attempts_ : list DownloadAttempt) : DownloadStatistics :=
  let active :=
    filter (fun t => is_active t && (expires_at t >? now)%Z) tokens_ in
  let expired :=
    filter (fun t => negb (is_active t) || (expires_at t <=? now)%Z)
           tokens_ in
  let successful := filter (fun a => success a) attempts_ in
  let failed := filter (fun a => negb (success a)) attempts_ in
  {| totalTokens := List.length tokens_;
     activeTokens := List.length active;
     expiredTokens := List.length expired;
     totalAttempts := List.length attempts_;
     successfulDownloads := List.length successful;
     failedAttempts := List.length failed |}.

(** [orderTokens && orderTokens.length > 0]: the identifiers to filter the
    attempts on, when there are any. *)
Definition idsToFilterOn (orderTokens : Response (list Id))
  : option (list Id) :=
  match orderTokens with
  | Success (i :: ids) => Some (i :: ids)
  | _ => None
  end.

(** The [try] block of [getDownloadStatistics]. *)
Definition statisticsQueries (orderId : option Id) : Direct DownloadStatistics :=
  dbind
    (* if (orderId): the token ids of the order, to filter the attempts *)
    match orderId with
    | Some o =>
        dbind
          (select (fun w =>
             List.map id (filter (ofOrder (Some o)) (tokens w))))
          (fun orderTokens => dret (idsToFilterOn orderTokens))
    | None => dret None
    end
    (fun tokenIds =>
       dbind
         (all2 (select (fun w => filter (ofOrder orderId) (tokens w)))
               (select (fun w => filter (ofTokens tokenIds) (attempts w))))
         (fun results w =>
            (Normal (summarize (clock w) (dataOrEmpty (fst results))
                               (dataOrEmpty (snd results))), w))).

(** Get download statistics for admin. *)
Definition getDownloadStatistics (orderId : option Id) (w : World)
  : DownloadStatistics * World :=
  match statisticsQueries orderId w with
  | (Normal s, w') => (s, w')
  | (Abrupt _, w') => (noStatistics, w')
  end.

(** *** The address of the client

    What a lookup service answers: nothing usable (the request fails, or the
    body is not JSON), or a JSON object whose fields [ip], [origin] and
    [query], when present, are strings. *)
Inductive FetchAnswer :=
| FetchFailed
| FetchJson (dataIp dataOrigin dataQuery : option JSString).

(** [if (v) return v]: a present, non-empty string. *)
Definition truthy (v : option JSString) : option JSString :=
  match v with
  | Some (c :: s) => Some (c :: s)
  | _ => None
  end.

Definition ipServices : list JSString :=
  [ js "https://api.ipify.org?format=json";
    js "https://ipapi.co/json/";
    js "https://httpbin.org/ip" ].

(** The body of the loop for one service: the first of [data.ip],
    [data.origin], [data.query] that is set; [None] goes on to the next
    service. *)
Definition addressIn (answer : FetchAnswer) : option JSString :=
  match answer with
  | FetchFailed => None
  | FetchJson dataIp dataOrigin dataQuery =>
      match truthy dataIp with
      | Some a => Some a
      | None =>
          match truthy dataOrigin with
          | Some a => Some a
          | None => truthy dataQuery
          end
      end
  end.

Fixpoint tryServices (fetch : JSString -> FetchAnswer)
    (services : list JSString) : option JSString :=
  match services with
  | [] => None
  | service :: rest =>
      match addressIn (fetch service) with
      | Some a => Some a
      | None => tryServices fetch rest
      end
  end.

(** Get client IP address with multiple fallbacks. *)
Definition getClientIP (fetch : JSString -> FetchAnswer) : option JSString :=
  tryServices fetch ipServices.

End OverAnyHost.

End Admin.
Export Admin.

(* ================================================================== *)
(** ** Vocabulary for the life of a token *)

Module Life.

Section OverAnyHost.

Context {runtime : Runtime}.

(** A row as [generateSecureDownloadTokens] issues it. *)
Definition issuedFor (email : JSString) (orderId : Id) (expires : Timestamp)
    (ceiling : Z) (r : SecureDownloadToken) : Prop :=
  recipient_email r = trim (toLowerCase email) /\
  order_id r = orderId /\
  expires_at r = expires /\
  max_downloads r = ceiling /\
  download_count r = 0%Z /\
  is_active r = true.

(** The instant at which the local clock shows the local time of [t] moved
    by [h] hours. *)
Definition onTheClock (t h : Z) : Z :=
  UTC (LocalTime t + h * msPerHour)%Z.

(** The expiry a batch started at [t] gives its rows, the configured hours
    being [hours]. *)
Definition expiryOf (t : Timestamp) (hours : option Z) : option Timestamp :=
  match hours with
  | Some h => TimeClip (onTheClock t h)
  | None => None
  end.

(** The ceiling a row gets: the one configured, or the default of the
    column. *)
Definition ceilingOf (w : World) (configured : option Z) : Z :=
  match configured with
  | Some m => m
  | None => max_downloads_default w
  end.

(** The object handed to [insert] for a document. *)
Definition tokenInsertFor (document : DocumentRef) (tok email : JSString)
    (orderId : Id) (expires : Timestamp) (cfg : SecureDownloadConfig)
  : TokenInsert :=
  {| new_token := tok; new_document_id := ref_id document;
     new_recipient_email := trim (toLowerCase email);
     new_order_id := orderId; new_expires_at := expires;
     new_max_downloads := maxDownloads cfg; new_download_count := 0;
     new_is_active := true |}.

(** The answers to inserts that are left after one turn of the loop of the
    generator: a turn whose token-function call raises sends no insert. *)
Definition storesAfter (rpcs : list RpcOutcome) (stores : list Outcome)
  : list Outcome :=
  match hd RpcRejected rpcs with
  | RpcRaised => stores
  | _ => tl stores
  end.

(** A string with no white space at either end. *)
Definition trimmed (s : JSString) : Prop :=
  match s with [] => True | c :: _ => isWhiteSpace c = false end /\
  match rev s with [] => True | c :: _ => isWhiteSpace c = false end.

(** A reference that leads to a row: the link carries the token string of
    the row, and the address as encoded. *)
Definition linksTo (base encoded : JSString) (ref : SecureUrl)
    (r : SecureDownloadToken) : Prop :=
  documentId ref = document_id r /\
  secureUrl ref =
    base ++ js "/secure-download/" ++ token r ++ js "?email=" ++ encoded /\
  expiresAt ref = expires_at r.

(** The same verification request, made [n] times in a row. *)
Fixpoint verifyRepeatedly (n : nat) (tok email : JSString)
    (ip ua : option JSString) (w : World)
  : list (Completion VerifyResult) * World :=
  match n with
  | O => ([], w)
  | S n' =>
      let (r, w1) := run (verifyDownloadToken tok email ip ua) w in
      let (rs, w2) := verifyRepeatedly n' tok email ip ua w1 in
      (r :: rs, w2)
  end.

(** What no request of the module changes in a token row once it is
    stored. *)
Definition identity (r : SecureDownloadToken)
  : Id * JSString * Id * JSString * Id * Timestamp * Z * Timestamp :=
  (id r, token r, document_id r, recipient_email r, order_id r,
   expires_at r, max_downloads r, created_at r).

(** A verification touches one token: the row [b] is the row [a], with the
    counter [n] when it carries the identifier [i]. *)
Definition consumedOne (i : Id) (n : Z) (now : Timestamp)
    (a b : SecureDownloadToken) : Prop :=
  if N.eqb (id a) i then
    identity b = identity a /\ is_active b = is_active a /\
    download_count b = n /\ updated_at b = now
  else b = a.

(** A revocation touches one token: the row [b] is the row [a], inactive
    when it carries the identifier [i]. *)
Definition revokedOne (i : Id) (now : Timestamp)
    (a b : SecureDownloadToken) : Prop :=
  if N.eqb (id a) i then
    identity b = identity a /\ is_active b = false /\
    download_count b = download_count a /\ updated_at b = now
  else b = a.

(** A program that never stores a token, whatever it is answered. *)
Fixpoint storesNoToken {A : Type} (p : Prog A) : Prop :=
  match p with
  | Vis c k =>
      match c with InsertToken _ => False | _ => True end /\
      forall r, storesNoToken (k r)
  | _ => True
  end.

Definition threadStoresNoToken (t : Thread) : Prop :=
  match t with
  | Verifying p => storesNoToken p
  | Revoking p => storesNoToken p
  end.

(** What a world keeps through a batch of generation. *)
Definition sameButTokens (w w' : World) : Prop :=
  attempts w' = attempts w /\ documents w' = documents w /\
  clock w' = clock w /\ origin w' = origin w /\
  max_downloads_default w' = max_downloads_default w.

(** Whether a call was told to proceed. *)
Definition granted (c : Completion VerifyResult) : bool :=
  match c with
  | Normal r => valid r
  | Abrupt _ => false
  end.

(** A token that a request can be verified against: the lookup of [tok]
    resolves to it, it has not expired, it is bound to the address claimed
    and its document is there; and the datastore performs the lookups and the
    updates to come. *)
Definition readyToVerify (w : World) (tok email : JSString) (td : TokenData)
    (doc : ProjectDocument) : Prop :=
  select_replies (oracle w) = [] /\
  update_replies (oracle w) = [] /\
  resolves w tok = Some td /\
  (clock w <= expires_at (row td))%Z /\
  trim (toLowerCase (recipient_email (row td))) = trim (toLowerCase email) /\
  project_documents td = Some doc.

(** An attempt made against a token of an order. *)
Definition attemptOnOrder (w : World) (o : Id) (a : DownloadAttempt) : bool :=
  match token_id a with
  | Some i =>
      existsb (fun t => N.eqb (id t) i && N.eqb (order_id t) o) (tokens w)
  | None => false
  end.

End OverAnyHost.

End Life.
Export Life.

(* ================================================================== *)
(** * Theorems *)

(* ------------------------------------------------------------------ *)
(** ** The regular-expression engine decides the language *)

Lemma nullable_Matches (r : Regex) : nullable r = true <-> Matches r [].
Proof.
  split.
  - induction r; simpl; intros H; try discriminate.
    + constructor.
    + apply andb_prop in H as [H1 H2].
      change (@nil CodeUnit) with (@nil CodeUnit ++ []). constructor; auto.
    + apply orb_prop in H as [H | H]; [apply MAltL | apply MAltR]; auto.
    + constructor.
  - intros H. remember (@nil CodeUnit) as s eqn:Es.
    induction H; simpl; subst; try discriminate; auto.
    + apply app_eq_nil in Es as [-> ->]. rewrite IHMatches1, IHMatches2; auto.
    + rewrite IHMatches; auto.
    + rewrite IHMatches, orb_true_r; auto.
Qed.

Lemma deriv_sound (c : CodeUnit) (r : Regex) :
  forall s, Matches (deriv c r) s -> Matches r (c :: s).
Proof.
  induction r; simpl; intros s H.
  - inversion H.
  - inversion H.
  - destruct (p c) eqn:E; inversion H; subst. constructor; assumption.
  - destruct (nullable r1) eqn:E.
    + inversion H; subst.
      * match goal with
        | Hs : Matches (Seq _ _) _ |- _ => inversion Hs; subst
        end.
        change (c :: s1 ++ s2) with ((c :: s1) ++ s2). constructor; auto.
      * change (c :: s) with ([] ++ c :: s). constructor; auto.
        apply nullable_Matches; assumption.
    + inversion H; subst.
      change (c :: s1 ++ s2) with ((c :: s1) ++ s2). constructor; auto.
  - inversion H; subst; [apply MAltL | apply MAltR]; auto.
  - inversion H; subst.
    change (c :: s1 ++ s2) with ((c :: s1) ++ s2). constructor; auto.
Qed.

Lemma deriv_complete (c : CodeUnit) (r : Regex) (s : JSString) :
  Matches r (c :: s) -> Matches (deriv c r) s.
Proof.
  intros H. remember (c :: s) as cs eqn:E. revert s E.
  induction H; intros t E; simpl; try discriminate.
  - injection E as -> <-. rewrite H. constructor.
  - destruct s1 as [| x s1'].
    + simpl in E. subst s2.
      assert (Hn : nullable r1 = true) by (apply nullable_Matches; assumption).
      rewrite Hn. apply MAltR. auto.
    + simpl in E. injection E as -> <-.
      destruct (nullable r1).
      * apply MAltL. constructor; auto.
      * constructor; auto.
  - apply MAltL; auto.
  - apply MAltR; auto.
  - destruct s1 as [| x s1'].
    + simpl in E. apply IHMatches2 in E. exact E.
    + simpl in E. injection E as -> <-. constructor; auto.
Qed.

Lemma test_Matches (r : Regex) (s : JSString) :
  test r s = true <-> Matches r s.
Proof.
  revert r. induction s as [| c s IH]; intros r; simpl.
  - apply nullable_Matches.
  - rewrite IH. split; [apply deriv_sound | apply deriv_complete].
Qed.

Section CharacterClass.

Variable p : CodeUnit -> bool.

Lemma Matches_Star_Class (s : JSString) :
  Matches (Star (Class p)) s <-> Forall (fun c => p c = true) s.
Proof.
  split.
  - intros H. remember (Star (Class p)) as r eqn:E.
    induction H; try discriminate.
    + constructor.
    + injection E as ->. inversion H; subst. simpl. constructor; auto.
  - induction 1 as [| c s' Hc _ IH].
    + constructor.
    + change (c :: s') with ([c] ++ s'). constructor; [constructor |]; auto.
Qed.

Lemma Matches_Plus_Class (s : JSString) :
  Matches (Plus (Class p)) s <-> s <> [] /\ Forall (fun c => p c = true) s.
Proof.
  unfold Plus. split.
  - intros H. inversion H; subst.
    match goal with Hc : Matches (Class _) _ |- _ => inversion Hc; subst end.
    split; [discriminate |]. simpl. constructor; auto.
    apply Matches_Star_Class; assumption.
  - intros [Hne Hall]. destruct s as [| c s]; [contradiction |].
    inversion Hall; subst.
    change (c :: s) with ([c] ++ s). constructor.
    + constructor; assumption.
    + apply Matches_Star_Class; assumption.
Qed.

End CharacterClass.

Lemma Matches_Chr (c : CodeUnit) (s : JSString) :
  Matches (Chr c) s <-> s = [c].
Proof.
  unfold Chr. split.
  - intros H. inversion H; subst.
    match goal with He : N.eqb _ _ = true |- _ => apply N.eqb_eq in He end.
    subst; reflexivity.
  - intros ->. constructor. apply N.eqb_refl.
Qed.

Lemma Matches_Seq (r1 r2 : Regex) (s : JSString) :
  Matches (Seq r1 r2) s <->
  exists s1 s2, s = s1 ++ s2 /\ Matches r1 s1 /\ Matches r2 s2.
Proof.
  split.
  - intros H. inversion H; subst. eauto.
  - intros (s1 & s2 & -> & H1 & H2). constructor; auto.
Qed.

(** The strings [emailRegex] accepts. *)
Lemma emailRegex_language (s : JSString) :
  Matches emailRegex s <->
  exists l d1 d2,
    s = l ++ AT :: d1 ++ DOT :: d2 /\
    (l <> [] /\ Forall (fun c => notSpaceNorAt c = true) l) /\
    (d1 <> [] /\ Forall (fun c => notSpaceNorAt c = true) d1) /\
    (d2 <> [] /\ Forall (fun c => notSpaceNorAt c = true) d2).
Proof.
  unfold emailRegex. rewrite Matches_Seq. split.
  - intros (l & r1 & -> & Hl & H1).
    apply Matches_Seq in H1 as (a & r2 & -> & Ha & H2).
    apply Matches_Seq in H2 as (d1 & r3 & -> & Hd1 & H3).
    apply Matches_Seq in H3 as (b & d2 & -> & Hb & Hd2).
    apply Matches_Chr in Ha, Hb. subst a b.
    apply Matches_Plus_Class in Hl, Hd1, Hd2.
    exists l, d1, d2. simpl. auto.
  - intros (l & d1 & d2 & -> & Hl & Hd1 & Hd2).
    exists l, (AT :: d1 ++ DOT :: d2). split; [reflexivity |].
    split; [apply Matches_Plus_Class; assumption |].
    apply Matches_Seq. exists [AT], (d1 ++ DOT :: d2).
    split; [reflexivity |]. split; [apply Matches_Chr; reflexivity |].
    apply Matches_Seq. exists d1, (DOT :: d2).
    split; [reflexivity |]. split; [apply Matches_Plus_Class; assumption |].
    apply Matches_Seq. exists [DOT], d2.
    split; [reflexivity |]. split; [apply Matches_Chr; reflexivity |].
    apply Matches_Plus_Class; assumption.
Qed.

Lemma notSpaceNorAt_true (c : CodeUnit) :
  notSpaceNorAt c = true <-> isWhiteSpace c = false /\ c <> AT.
Proof.
  unfold notSpaceNorAt, AT. rewrite negb_true_iff, orb_false_iff.
  rewrite N.eqb_neq. tauto.
Qed.

Lemma Forall_notSpaceNorAt (s : JSString) :
  Forall (fun c => notSpaceNorAt c = true) s <->
  noWhiteSpace s /\ ~ In AT s.
Proof.
  unfold noWhiteSpace. rewrite !Forall_forall. split.
  - intros H. split.
    + intros c Hc. apply H in Hc. apply notSpaceNorAt_true in Hc. tauto.
    + intros Hin. apply H in Hin. apply notSpaceNorAt_true in Hin. tauto.
  - intros [Hw Ha] c Hc. apply notSpaceNorAt_true. split; auto.
    intros ->. contradiction.
Qed.

Lemma noWhiteSpace_app (a b : JSString) :
  noWhiteSpace (a ++ b) <-> noWhiteSpace a /\ noWhiteSpace b.
Proof. unfold noWhiteSpace. apply Forall_app. Qed.

Lemma noWhiteSpace_cons (c : CodeUnit) (s : JSString) :
  noWhiteSpace (c :: s) <-> isWhiteSpace c = false /\ noWhiteSpace s.
Proof. unfold noWhiteSpace. apply Forall_cons_iff. Qed.

Lemma emailShape_language (s : JSString) :
  emailShape s <-> Matches emailRegex s.
Proof.
  rewrite emailRegex_language. unfold emailShape, partitioned. split.
  - intros (Hw & l & d & (-> & Hl & Hd) & Hne & d1 & d2 & -> & H1 & H2).
    apply noWhiteSpace_app in Hw as [Hwl Hw].
    apply noWhiteSpace_cons in Hw as [_ Hw].
    apply noWhiteSpace_app in Hw as [Hw1 Hw].
    apply noWhiteSpace_cons in Hw as [_ Hw2].
    exists l, d1, d2. split; [reflexivity |].
    rewrite !Forall_notSpaceNorAt.
    repeat split; auto.
    + intros Hin. apply Hd. apply in_or_app. auto.
    + intros Hin. apply Hd. apply in_or_app. right. right. assumption.
  - intros (l & d1 & d2 & -> & [Hl Fl] & [H1 F1] & [H2 F2]).
    apply Forall_notSpaceNorAt in Fl as [Wl Al], F1 as [W1 A1], F2 as [W2 A2].
    split.
    + apply noWhiteSpace_app. split; [assumption |].
      apply noWhiteSpace_cons. split; [reflexivity |].
      apply noWhiteSpace_app. split; [assumption |].
      apply noWhiteSpace_cons. split; [reflexivity | assumption].
    + exists l, (d1 ++ DOT :: d2). repeat split; auto.
      * intros Hin. apply in_app_or in Hin as [Hin | [Hin | Hin]]; auto.
        discriminate Hin.
      * exists d1, d2. auto.
Qed.

(** C7, as the code has it: [validateEmail] accepts a string exactly when,
    once its leading and trailing white space is trimmed, it contains no
    white space and exactly one [@], with a non-empty local part before it and
    after it a domain holding a dot that is neither its first nor its last
    character. *)
Theorem validateEmail_trimmed_shape (email : JSString) :
  validateEmail email = true <-> emailShape (trim email).
Proof.
  unfold validateEmail. rewrite test_Matches. symmetry.
  apply emailShape_language.
Qed.

(** C7, as the specification words it, fails twice: an address wrapped in
    white space is accepted although it contains white space, and an address
    whose domain starts with its only dot is rejected although the domain
    contains a dot. *)
Lemma validateEmail_claimed_shape_fails :
  (validateEmail (js " a@b.c ") = true /\ ~ claimedEmailShape (js " a@b.c "))
  /\
  (validateEmail (js "a@.c") = false /\ claimedEmailShape (js "a@.c")).
Proof.
  split; split.
  - reflexivity.
  - intros [Hw _]. inversion Hw; subst. discriminate.
  - reflexivity.
  - split.
    + repeat constructor.
    + exists (js "a"), (js ".c"). unfold partitioned. repeat split.
      * intros [H | []]. discriminate H.
      * intros [H | [H | []]]; discriminate H.
      * discriminate.
      * left. reflexivity.
Qed.

(* ------------------------------------------------------------------ *)
(** ** Strings *)

Lemma jsstring_eqb_eq (a b : JSString) : JS.eqb a b = true <-> a = b.
Proof.
  revert b. induction a as [| x a IH]; intros [| y b]; simpl;
    try (split; [discriminate | discriminate]); try tauto.
  rewrite andb_true_iff, N.eqb_eq, IH. split.
  - intros [-> ->]. reflexivity.
  - intros H. injection H as -> ->. auto.
Qed.


(** [trimStart] leaves no white space in front. *)
Lemma trimStart_clean (s : JSString) :
  match trimStart s with
  | [] => True
  | c :: _ => isWhiteSpace c = false
  end.
Proof.
  induction s as [| c s IH]; cbn [trimStart]; [exact I |].
  destruct (isWhiteSpace c) eqn:E; [exact IH | exact E].
Qed.

Lemma trimStart_snoc (a : JSString) (c : CodeUnit) :
  trimStart (a ++ [c]) =
  match trimStart a with
  | [] => if isWhiteSpace c then [] else [c]
  | t => t ++ [c]
  end.
Proof.
  induction a as [| x a IH]; cbn [trimStart app].
  - destruct (isWhiteSpace c); reflexivity.
  - destruct (isWhiteSpace x); [exact IH | reflexivity].
Qed.

(** [trimEnd], read from the front of the string. *)
Lemma trimEnd_cons (c : CodeUnit) (s : JSString) :
  trimEnd (c :: s) =
  match trimEnd s with
  | [] => if isWhiteSpace c then [] else [c]
  | t => c :: t
  end.
Proof.
  unfold trimEnd. cbn [rev]. rewrite trimStart_snoc.
  destruct (trimStart (rev s)) as [| x u] eqn:E.
  - cbn [rev]. destruct (isWhiteSpace c); reflexivity.
  - rewrite rev_app_distr. cbn [rev app].
    destruct (rev u ++ [x]) eqn:E'; [ | reflexivity].
    apply app_eq_nil in E' as [_ E']. discriminate.
Qed.

Lemma trimEnd_keeps_head (s : JSString) :
  match s with [] => True | c :: _ => isWhiteSpace c = false end ->
  match trimEnd s with [] => True | c :: _ => isWhiteSpace c = false end.
Proof.
  destruct s as [| c s]; [intros _; exact I |]. intros Hc.
  rewrite trimEnd_cons. destruct (trimEnd s); [rewrite Hc |]; exact Hc.
Qed.

(** What [trim] returns has no white space at either end. *)
Lemma trim_trimmed (s : JSString) : trimmed (trim s).
Proof.
  unfold trimmed, trim. split.
  - apply trimEnd_keeps_head, trimStart_clean.
  - unfold trimEnd. rewrite rev_involutive. apply trimStart_clean.
Qed.

(* ------------------------------------------------------------------ *)
(** ** Running programs *)

Local Arguments handle {R} !c w / : simpl nomatch.
Local Arguments pop_select w /.
Local Arguments pop_audit w /.
Local Arguments pop_update w /.
Local Arguments pop_store w /.
Local Arguments pop_rpc w /.
Local Arguments pop_random w /.
Local Arguments with_oracle o w /.
Local Arguments with_tokens ts w /.
Local Arguments with_attempts l w /.
Local Arguments with_clock t w /.
Local Arguments with_next_id n w /.
Local Arguments with_select_replies l o /.
Local Arguments with_audit_replies l o /.
Local Arguments with_update_replies l o /.
Local Arguments with_store_replies l o /.
Local Arguments with_rpc_replies l o /.
Local Arguments with_random_draws l o /.
Local Arguments js : simpl never.
Local Arguments trim : simpl never.
Local Arguments Z.gtb : simpl never.
Local Arguments Z.geb : simpl never.
Local Arguments Z.add : simpl never.
Local Arguments JS.eqb : simpl never.
Local Arguments filter : simpl never.
Local Arguments setHours : simpl never.
Local Arguments getHours : simpl never.
Local Arguments plus : simpl never.

(** From here on the host is any host. *)
Section OverAnyHost.

Context {runtime : Runtime}.

Lemma run_bind {A B : Type} (p : Prog A) (f : A -> Prog B) (w : World) :
  run (bind p f) w =
  match run p w with
  | (Normal a, w') => run (f a) w'
  | (Abrupt e, w') => (Abrupt e, w')
  end.
Proof.
  revert w. induction p as [a | e | R c k IH]; intros w; simpl; try reflexivity.
  destruct (handle c w) as [r w']. apply IH.
Qed.

Lemma run_try_catch {A : Type} (p : Prog A) (h : Exn -> Prog A) (w : World) :
  run (try_catch p h) w =
  match run p w with
  | (Normal a, w') => (Normal a, w')
  | (Abrupt e, w') => run (h e) w'
  end.
Proof.
  revert w. induction p as [a | e | R c k IH]; intros w; simpl; try reflexivity.
  destruct (handle c w) as [r w']. apply IH.
Qed.

Lemma audited_bind {A B : Type} (p : Prog A) (f : A -> Prog B) (w : World) :
  audited (bind p f) w =
  audited p w ++
  match run p w with
  | (Normal a, w') => audited (f a) w'
  | (Abrupt e, w') => []
  end.
Proof.
  revert w. induction p as [a | e | R c k IH]; intros w; simpl; try reflexivity.
  destruct (handle c w) as [r w']. destruct c; simpl; rewrite IH; reflexivity.
Qed.

Lemma audited_try_catch {A : Type} (p : Prog A) (h : Exn -> Prog A)
    (w : World) :
  audited (try_catch p h) w =
  audited p w ++
  match run p w with
  | (Normal a, w') => []
  | (Abrupt e, w') => audited (h e) w'
  end.
Proof.
  revert w. induction p as [a | e | R c k IH]; intros w; simpl; try reflexivity.
  destruct (handle c w) as [r w']. destruct c; simpl; rewrite IH; reflexivity.
Qed.

(** A [try] whose handler returns cannot raise. *)
Lemma run_try_catch_returns {A : Type} (p : Prog A) (a : A) (w : World) :
  exists a' w', run (try_catch p (fun _ => Ret a)) w = (Normal a', w').
Proof.
  rewrite run_try_catch. destruct (run p w) as [[a' | e] w']; simpl; eauto.
Qed.

(** *** The audit logger *)

Lemma run_logDownloadAttempt tid e s fr ip ua w :
  run (logDownloadAttempt tid e s fr ip ua) w =
  (Normal tt, served (InsertAttempt (auditOf w tid e s fr ip ua)) w).
Proof.
  unfold logDownloadAttempt, served, auditOf, normalize. cbn.
  destruct (handle _ w) as [[r | x] w']; reflexivity.
Qed.

Lemma audited_logDownloadAttempt tid e s fr ip ua w :
  audited (logDownloadAttempt tid e s fr ip ua) w =
  [auditOf w tid e s fr ip ua].
Proof.
  unfold logDownloadAttempt, auditOf, normalize. cbn.
  destruct (handle _ w) as [[r | x] w']; reflexivity.
Qed.

(** What the datastore does with an audit request. *)
Lemma served_InsertAttempt (a : AttemptInsert) (w : World) :
  served (InsertAttempt a) w =
  match hd Ok (audit_replies (oracle w)) with
  | Ok =>
      pop_audit (with_next_id (N.succ (next_id w))
                   (with_attempts (attempts w ++ [storedAttempt w a]) w))
  | _ => pop_audit w
  end.
Proof.
  unfold served, handle. destruct (hd Ok (audit_replies (oracle w))); reflexivity.
Qed.

Lemma served_UpdateToken (i : Id) (p : TokenPatch) (w : World) :
  served (UpdateToken i p) w =
  match hd Ok (update_replies (oracle w)) with
  | Ok => pop_update (with_tokens (List.map (applyPatch i p) (tokens w)) w)
  | _ => pop_update w
  end.
Proof.
  unfold served, handle. destruct (hd Ok (update_replies (oracle w))); reflexivity.
Qed.

(** *** Symbolic execution of [verifyDownloadToken] *)

Ltac exec :=
  repeat (first [ rewrite run_bind | rewrite run_logDownloadAttempt
                | progress cbn -[logDownloadAttempt] ]).

Ltac split_on l :=
  match goal with
  | |- context [hd ?d l] => destruct (hd d l) eqn:?; cbn -[logDownloadAttempt]
  end.

Ltac crunch w :=
  unfold served, auditOf, systemErrorAudit, normalize, handle;
  cbn -[logDownloadAttempt];
  try split_on (audit_replies (oracle w));
  try split_on (update_replies (oracle w));
  rewrite ?run_bind, ?run_logDownloadAttempt;
  unfold served, auditOf, normalize, handle; cbn;
  try split_on (tl (audit_replies (oracle w)));
  try reflexivity; try congruence.

(** The lookup raises: the [catch] block audits a system error. *)
Lemma run_verify_raised tok e ip ua w :
  hd Ok (select_replies (oracle w)) = Raised ->
  run (verifyDownloadToken tok e ip ua) w =
  (Normal systemError,
   served (InsertAttempt (systemErrorAudit w e ip ua)) (pop_select w)).
Proof.
  intros Hs. unfold verifyDownloadToken.
  rewrite run_try_catch. cbn -[logDownloadAttempt]. unfold handle. rewrite Hs.
  cbn -[logDownloadAttempt].
  rewrite run_bind, run_logDownloadAttempt. reflexivity.
Qed.

(** The lookup is answered: the pipeline runs, and only a raising update can
    divert it into the [catch] block. *)
Lemma run_verify_answered tok e ip ua w :
  hd Ok (select_replies (oracle w)) <> Raised ->
  run (verifyDownloadToken tok e ip ua) w =
  let w1 :=
    served (InsertAttempt (expectedAudit w tok e ip ua)) (pop_select w) in
  match finalUpdate w tok e with
  | None => (Normal (expectedResult w tok e), w1)
  | Some (i, p) =>
      match hd Ok (update_replies (oracle w)) with
      | Raised =>
          (Normal systemError,
           served (InsertAttempt (systemErrorAudit w e ip ua)) (pop_update w1))
      | _ => (Normal (expectedResult w tok e), served (UpdateToken i p) w1)
      end
  end.
Proof.
  intros Hs. unfold verifyDownloadToken.
  rewrite run_try_catch. cbn -[logDownloadAttempt]. unfold handle.
  unfold finalUpdate, expectedResult, expectedAudit, firstFailing, resolves.
  destruct (hd Ok (select_replies (oracle w))) eqn:Es; [ | | congruence].
  - destruct (filter (matchesActive tok) (tokens w)) as [| r [| r' l]] eqn:Hf.
    + exec. reflexivity.
    + cbn -[logDownloadAttempt].
      destruct (clock w >? expires_at r)%Z eqn:Hexp.
      * exec. crunch w.
      * unfold normalize.
        destruct (JS.eqb (trim (toLowerCase (recipient_email r)))
                         (trim (toLowerCase e))) eqn:Hem.
        -- cbn -[logDownloadAttempt].
           destruct (download_count r >=? max_downloads r)%Z eqn:Hq.
           ++ exec. reflexivity.
           ++ cbn -[logDownloadAttempt].
              destruct (joinDocument w r) as [doc |] eqn:Hd.
              ** exec. crunch w.
              ** exec. reflexivity.
        -- exec. reflexivity.
    + exec. reflexivity.
  - exec. reflexivity.
Qed.

Ltac aexec :=
  repeat (first [ rewrite audited_bind | rewrite audited_logDownloadAttempt
                | rewrite run_bind | rewrite run_logDownloadAttempt
                | progress cbn -[logDownloadAttempt] ]);
  unfold auditOf, systemErrorAudit, normalize; cbn.

Lemma audited_verify_raised tok e ip ua w :
  hd Ok (select_replies (oracle w)) = Raised ->
  audited (verifyDownloadToken tok e ip ua) w = [systemErrorAudit w e ip ua].
Proof.
  intros Hs. unfold verifyDownloadToken.
  rewrite audited_try_catch. cbn -[logDownloadAttempt]. unfold handle.
  rewrite Hs. aexec. reflexivity.
Qed.

Lemma audited_verify_answered tok e ip ua w :
  hd Ok (select_replies (oracle w)) <> Raised ->
  audited (verifyDownloadToken tok e ip ua) w =
  expectedAudit w tok e ip ua ::
  match finalUpdate w tok e, hd Ok (update_replies (oracle w)) with
  | Some _, Raised => [systemErrorAudit w e ip ua]
  | _, _ => []
  end.
Proof.
  intros Hs. unfold verifyDownloadToken.
  rewrite audited_try_catch. cbn -[logDownloadAttempt]. unfold handle.
  unfold finalUpdate, expectedResult, expectedAudit, firstFailing, resolves.
  destruct (hd Ok (select_replies (oracle w))) eqn:Es; [ | | congruence].
  - destruct (filter (matchesActive tok) (tokens w)) as [| r [| r' l]] eqn:Hf.
    + aexec. reflexivity.
    + cbn -[logDownloadAttempt].
      destruct (clock w >? expires_at r)%Z eqn:Hexp.
      * aexec. crunch w.
      * unfold normalize.
        destruct (JS.eqb (trim (toLowerCase (recipient_email r)))
                         (trim (toLowerCase e))) eqn:Hem.
        -- cbn -[logDownloadAttempt].
           destruct (download_count r >=? max_downloads r)%Z eqn:Hq.
           ++ aexec. reflexivity.
           ++ cbn -[logDownloadAttempt].
              destruct (joinDocument w r) as [doc |] eqn:Hd.
              ** aexec. crunch w.
              ** aexec. reflexivity.
        -- aexec. reflexivity.
    + aexec. reflexivity.
  - aexec. reflexivity.
Qed.

(* ------------------------------------------------------------------ *)
(** ** The verification pipeline *)

Lemma firstFailing_answered (w : World) (tok e : JSString) :
  firstFailing w tok e <> Some Lookup ->
  hd Ok (select_replies (oracle w)) = Ok.
Proof.
  unfold firstFailing, resolves.
  destruct (hd Ok (select_replies (oracle w))); congruence.
Qed.

(** What the verification leaves in the attempts: of the audit requests it
    issued, those whose insert the datastore accepted. *)
Lemma verify_records (tok e : JSString) (ip ua : option JSString) (w : World) :
  attempts (snd (run (verifyDownloadToken tok e ip ua) w))
  = attempts w ++
    recorded w (audit_replies (oracle w))
      (audited (verifyDownloadToken tok e ip ua) w).
Proof.
  destruct (hd Ok (select_replies (oracle w))) eqn:Es.
  3: { rewrite run_verify_raised, audited_verify_raised by assumption.
       cbn [snd recorded]. rewrite served_InsertAttempt. cbn.
       destruct (hd Ok (audit_replies (oracle w))); cbn;
         rewrite ?app_nil_r; reflexivity. }
  all: rewrite run_verify_answered, audited_verify_answered by congruence;
    cbv zeta;
    destruct (finalUpdate w tok e) as [[i p] |];
    [destruct (hd Ok (update_replies (oracle w))) eqn:Eu |];
    cbn [snd recorded];
    rewrite ?served_UpdateToken, ?served_InsertAttempt; cbn;
    destruct (hd Ok (audit_replies (oracle w))) eqn:Ea; cbn;
    rewrite ?Eu; cbn; rewrite ?app_nil_r; try reflexivity;
    destruct (hd Ok (tl (audit_replies (oracle w)))) eqn:Ea2; cbn;
    rewrite ?app_nil_r, <- ?app_assoc; reflexivity.
Qed.

(** C3, as the code has it: the checks run in the order lookup, expiration,
    e-mail, quota, document, and the pipeline stops at the first that fails.
    Unless a call to the datastore raises, the result is that of the first
    failing check, or the success when none fails, and exactly one audit
    request is issued, for that outcome.  When the lookup raises, the result
    is the system error, with one audit request for it.  When the update
    that closes the call raises (the deactivation of an expired token, or
    the increment), the outcome has been audited already: the result is the
    system error, and a second audit request, for the system error, follows
    the first.  An audit request becomes a record of the attempts exactly
    when the datastore accepts its insert. *)
Theorem verify_first_failing_check_wins
    (tok e : JSString) (ip ua : option JSString) (w : World) :
  let call := verifyDownloadToken tok e ip ua in
  let decided := expectedAudit w tok e ip ua in
  let failed := systemErrorAudit w e ip ua in
  match hd Ok (select_replies (oracle w)),
        finalUpdate w tok e, hd Ok (update_replies (oracle w)) with
  | Raised, _, _ =>
      fst (run call w) = Normal systemError /\
      audited call w = [failed]
  | _, Some _, Raised =>
      fst (run call w) = Normal systemError /\
      audited call w = [decided; failed]
  | _, _, _ =>
      fst (run call w) = Normal (expectedResult w tok e) /\
      audited call w = [decided]
  end /\
  attempts (snd (run call w))
    = attempts w ++ recorded w (audit_replies (oracle w)) (audited call w).
Proof.
  intros call decided failed. split; [ | apply verify_records].
  unfold call, decided, failed.
  destruct (hd Ok (select_replies (oracle w))) eqn:Es.
  3: { rewrite run_verify_raised, audited_verify_raised by assumption.
       split; reflexivity. }
  all: rewrite run_verify_answered, audited_verify_answered by congruence;
    cbv zeta;
    destruct (finalUpdate w tok e) as [[i p] |];
    [destruct (hd Ok (update_replies (oracle w))) |];
    split; reflexivity.
Qed.

(** C2, as the code has it: when every check passes and the datastore reports
    an error for the increment, the verification still returns the success,
    with the document and the record of the token as the lookup found it;
    the audit request it issued is the success, and no token row changes. *)
Theorem rejected_increment_keeps_success
    (tok e : JSString) (ip ua : option JSString) (w : World) :
  firstFailing w tok e = None ->
  hd Ok (update_replies (oracle w)) = Rejected ->
  (exists doc td,
     resolves w tok = Some td /\
     project_documents td = Some doc /\
     fst (run (verifyDownloadToken tok e ip ua) w)
       = Normal {| valid := true; document := Some doc; reason := None;
                   tokenData := Some td |}) /\
  List.map log_success (audited (verifyDownloadToken tok e ip ua) w) = [true] /\
  tokens (snd (run (verifyDownloadToken tok e ip ua) w)) = tokens w.
Proof.
  intros Hff Hu.
  assert (Hs : hd Ok (select_replies (oracle w)) <> Raised).
  { rewrite (firstFailing_answered w tok e); congruence. }
  rewrite (audited_verify_answered tok e ip ua w Hs).
  rewrite (run_verify_answered tok e ip ua w Hs). cbv zeta.
  unfold finalUpdate, expectedResult, expectedAudit. rewrite Hff, Hu.
  unfold firstFailing in Hff.
  destruct (resolves w tok) as [td |] eqn:Er; [ | discriminate].
  cbn [fst snd]. repeat split.
  - pose proof (find_none _ _ Hff DocumentExistence) as Hd.
    unfold checksAfterLookup in Hd. simpl in Hd.
    destruct (project_documents td) as [doc |] eqn:Ed.
    + exists doc, td. split; [reflexivity |]. split; [exact Ed | reflexivity].
    + discriminate Hd. auto.
  - rewrite served_UpdateToken, served_InsertAttempt. cbn.
    destruct (hd Ok (audit_replies (oracle w))); cbn; rewrite Hu; reflexivity.
Qed.

Lemma resolves_inv (w : World) (tok : JSString) (td : TokenData) :
  resolves w tok = Some td ->
  hd Ok (select_replies (oracle w)) = Ok /\
  filter (matchesActive tok) (tokens w) = [row td] /\
  project_documents td = joinDocument w (row td).
Proof.
  unfold resolves. destruct (hd Ok (select_replies (oracle w))); try discriminate.
  destruct (filter (matchesActive tok) (tokens w)) as [| r [| r' l]];
    try discriminate.
  intros H. injection H as <-. auto.
Qed.

(** Deactivating the rows of one identifier removes them from the active
    rows and adds none. *)
Lemma filter_deactivated (tok : JSString) (i : Id) (t : Timestamp)
    (rows : list SecureDownloadToken) :
  filter (matchesActive tok)
    (List.map (applyPatch i {| set_is_active := Some false;
                               set_download_count := None;
                               set_updated_at := t |}) rows)
  = filter (fun r => negb (N.eqb (id r) i))
      (filter (matchesActive tok) rows).
Proof.
  set (f := applyPatch i _).
  set (P := matchesActive tok).
  set (Q := fun r : SecureDownloadToken => negb (N.eqb (id r) i)).
  induction rows as [| r rows IH]; [reflexivity |].
  change (filter P (List.map f (r :: rows)))
    with (if P (f r) then f r :: filter P (List.map f rows)
          else filter P (List.map f rows)).
  change (filter P (r :: rows))
    with (if P r then r :: filter P rows else filter P rows).
  rewrite IH.
  assert (HP : P (f r) = P r && Q r).
  { unfold f, applyPatch, P, matchesActive, Q.
    destruct (N.eqb (id r) i); cbn [token is_active set_is_active negb].
    - rewrite !andb_false_r. reflexivity.
    - rewrite andb_true_r. reflexivity. }
  assert (Hf : Q r = true -> f r = r).
  { unfold f, applyPatch, Q. destruct (N.eqb (id r) i); [discriminate | auto]. }
  rewrite HP.
  destruct (P r); cbn [andb]; [ | reflexivity].
  change (filter Q (r :: filter P rows))
    with (if Q r then r :: filter Q (filter P rows)
          else filter Q (filter P rows)).
  destruct (Q r); [rewrite Hf by reflexivity |]; reflexivity.
Qed.

(** C4: a verification of an active token whose expiry lies strictly in the
    past returns the expired failure and deactivates the token, so that a
    second verification with the same token string no longer finds it and
    returns the invalid-or-expired failure.  The datastore is taken to answer
    the lookup and to perform the deactivating update. *)
Theorem expired_token_is_deactivated
    (tok e : JSString) (ip ua : option JSString) (w : World) (td : TokenData) :
  resolves w tok = Some td ->
  (expires_at (row td) < clock w)%Z ->
  hd Ok (update_replies (oracle w)) = Ok ->
  let out := run (verifyDownloadToken tok e ip ua) w in
  fst out = Normal {| valid := false; document := None;
                      reason := Some (LinkExpiredOn (expires_at (row td)));
                      tokenData := Some td |} /\
  (forall r, In r (tokens (snd out)) -> id r = id (row td) ->
             is_active r = false) /\
  (forall e2 ip2 ua2 w2,
     tokens w2 = tokens (snd out) ->
     hd Ok (select_replies (oracle w2)) <> Raised ->
     fst (run (verifyDownloadToken tok e2 ip2 ua2) w2)
       = Normal {| valid := false; document := None;
                   reason := Some InvalidOrExpiredLink;
                   tokenData := None |}).
Proof.
  intros Hr Hexp Hu out.
  destruct (resolves_inv w tok Hr) as (Hs & Hf & Hd).
  assert (Hff : firstFailing w tok e = Some Expiration).
  { unfold firstFailing. rewrite Hr. cbn.
    replace (clock w >? expires_at (row td))%Z with true; [reflexivity |].
    symmetry. apply Z.gtb_lt. assumption. }
  assert (Hout : out =
    (Normal {| valid := false; document := None;
               reason := Some (LinkExpiredOn (expires_at (row td)));
               tokenData := Some td |},
     served (UpdateToken (id (row td))
               {| set_is_active := Some false; set_download_count := None;
                  set_updated_at := clock w |})
       (served (InsertAttempt (expectedAudit w tok e ip ua)) (pop_select w)))).
  { unfold out. rewrite run_verify_answered by congruence. cbv zeta.
    unfold finalUpdate, expectedResult. rewrite Hr, Hff, Hu. reflexivity. }
  assert (Htk : tokens (snd out) =
    List.map (applyPatch (id (row td))
                {| set_is_active := Some false; set_download_count := None;
                   set_updated_at := clock w |}) (tokens w)).
  { rewrite Hout. cbn [snd].
    rewrite served_UpdateToken, served_InsertAttempt. cbn.
    destruct (hd Ok (audit_replies (oracle w))); cbn; rewrite Hu; reflexivity. }
  split; [rewrite Hout; reflexivity | split].
  - intros r Hin Hid. rewrite Htk in Hin. apply in_map_iff in Hin.
    destruct Hin as (r0 & <- & _). unfold applyPatch in *.
    destruct (N.eqb (id r0) (id (row td))) eqn:Ei.
    + reflexivity.
    + apply N.eqb_neq in Ei. contradiction.
  - intros e2 ip2 ua2 w2 Htok Hs2.
    rewrite run_verify_answered by assumption. cbv zeta.
    assert (Hnone : resolves w2 tok = None).
    { unfold resolves. rewrite Htok, Htk, filter_deactivated, Hf.
      unfold filter. rewrite N.eqb_refl. cbn.
      destruct (hd Ok (select_replies (oracle w2))); reflexivity. }
    unfold finalUpdate, expectedResult, firstFailing. rewrite Hnone.
    reflexivity.
Qed.

(** C5: for a token that the lookup resolves and that has not expired, the
    verification fails with the e-mail mismatch exactly when the stored
    recipient and the claimed address differ once both are lower-cased and
    trimmed. *)
Theorem email_match_is_normalized_equality
    (tok e : JSString) (ip ua : option JSString) (w : World) (td : TokenData) :
  resolves w tok = Some td ->
  (clock w <= expires_at (row td))%Z ->
  (trim (toLowerCase (recipient_email (row td))) <> trim (toLowerCase e) ->
   fst (run (verifyDownloadToken tok e ip ua) w)
     = Normal {| valid := false; document := None;
                 reason := Some (AuthorizedForOnly (recipient_email (row td)));
                 tokenData := Some td |}) /\
  (trim (toLowerCase (recipient_email (row td))) = trim (toLowerCase e) ->
   forall r addr,
     fst (run (verifyDownloadToken tok e ip ua) w) = Normal r ->
     reason r <> Some (AuthorizedForOnly addr)).
Proof.
  intros Hr Hexp.
  destruct (resolves_inv w tok Hr) as (Hs & Hf & Hd).
  assert (Hnexp : (clock w >? expires_at (row td))%Z = false).
  { rewrite Z.gtb_ltb. apply Z.ltb_ge. assumption. }
  assert (Hff : firstFailing w tok e =
    if negb (JS.eqb (trim (toLowerCase (recipient_email (row td))))
                    (trim (toLowerCase e)))
    then Some EmailMatch
    else find (failsCheck w td e) [Quota; DocumentExistence]).
  { unfold firstFailing. rewrite Hr.
    cbn [find checksAfterLookup failsCheck]. rewrite Hnexp. reflexivity. }
  rewrite run_verify_answered by congruence. cbv zeta.
  unfold finalUpdate, expectedResult. rewrite Hr, Hff.
  destruct (JS.eqb (trim (toLowerCase (recipient_email (row td))))
                   (trim (toLowerCase e))) eqn:Em; cbn [negb].
  - apply jsstring_eqb_eq in Em. split; [intros Hne; contradiction |].
    intros _ r addr.
    destruct (find (failsCheck w td e) [Quota; DocumentExistence])
      as [c |] eqn:Ef.
    + apply find_some in Ef as [Hin _].
      destruct Hin as [<- | [<- | []]];
        cbn; intros H; injection H as <-; discriminate.
    + destruct (hd Ok (update_replies (oracle w)));
        cbn; intros H; injection H as <-; discriminate.
  - split; [ | intros Heq; apply jsstring_eqb_eq in Heq; congruence].
    intros _. reflexivity.
Qed.

(** C9: the audit logger returns normally whatever the datastore does with
    the insert, and touches no token; and what a verification returns, and
    what it does to the tokens, does not depend on how the datastore answers
    the audit inserts. *)
Theorem audit_logger_never_raises :
  (forall tid e s fr ip ua w,
     exists w',
       run (logDownloadAttempt tid e s fr ip ua) w = (Normal tt, w') /\
       tokens w' = tokens w /\
       attempts w' =
         attempts w ++
         match hd Ok (audit_replies (oracle w)) with
         | Ok => [storedAttempt w (auditOf w tid e s fr ip ua)]
         | _ => []
         end) /\
  (forall tok e ip ua w l1 l2,
     let w1 := with_oracle (with_audit_replies l1 (oracle w)) w in
     let w2 := with_oracle (with_audit_replies l2 (oracle w)) w in
     fst (run (verifyDownloadToken tok e ip ua) w1)
       = fst (run (verifyDownloadToken tok e ip ua) w2) /\
     tokens (snd (run (verifyDownloadToken tok e ip ua) w1))
       = tokens (snd (run (verifyDownloadToken tok e ip ua) w2))).
Proof.
  split.
  - intros tid e s fr ip ua w. rewrite run_logDownloadAttempt.
    eexists. split; [reflexivity |]. rewrite served_InsertAttempt.
    destruct (hd Ok (audit_replies (oracle w))); cbn;
      rewrite ?app_nil_r; auto.
  - intros tok e ip ua w l1 l2 w1 w2.
    destruct (hd Ok (select_replies (oracle w))) eqn:Es.
    + rewrite !run_verify_answered by (cbn; congruence). cbv zeta.
      change (finalUpdate w1 tok e) with (finalUpdate w tok e).
      change (finalUpdate w2 tok e) with (finalUpdate w tok e).
      change (expectedResult w1 tok e) with (expectedResult w tok e).
      change (expectedResult w2 tok e) with (expectedResult w tok e).
      change (update_replies (oracle w1)) with (update_replies (oracle w)).
      change (update_replies (oracle w2)) with (update_replies (oracle w)).
      destruct (finalUpdate w tok e) as [[i p] |].
      * destruct (hd Ok (update_replies (oracle w))) eqn:Eu;
          (split; [reflexivity |]); cbn [snd];
          rewrite ?served_UpdateToken, !served_InsertAttempt; cbn;
          destruct (hd Ok l1), (hd Ok l2); cbn; rewrite ?Eu; cbn;
          try reflexivity;
          destruct (hd Ok (tl l1)), (hd Ok (tl l2)); reflexivity.
      * split; [reflexivity |]. cbn [snd]. rewrite !served_InsertAttempt. cbn.
        destruct (hd Ok l1), (hd Ok l2); reflexivity.
    + rewrite !run_verify_answered by (cbn; congruence). cbv zeta.
      change (finalUpdate w1 tok e) with (finalUpdate w tok e).
      change (finalUpdate w2 tok e) with (finalUpdate w tok e).
      change (expectedResult w1 tok e) with (expectedResult w tok e).
      change (expectedResult w2 tok e) with (expectedResult w tok e).
      assert (Hn : finalUpdate w tok e = None).
      { unfold finalUpdate, resolves. rewrite Es. reflexivity. }
      rewrite Hn. split; [reflexivity |]. cbn [snd].
      rewrite !served_InsertAttempt. cbn.
      destruct (hd Ok l1), (hd Ok l2); reflexivity.
    + rewrite !run_verify_raised by (cbn; assumption).
      split; [reflexivity |]. cbn [snd]. rewrite !served_InsertAttempt. cbn.
      destruct (hd Ok l1), (hd Ok l2); reflexivity.
Qed.

(** C10: a failed verification hands the resolved token record back to the
    caller exactly for the expiry, e-mail, quota and document failures; the
    lookup failure and the system error carry none.  Whatever comes back is
    one of these.  They do come back: when the lookup resolves a token and a
    check fails, the result is the failure of that check together with the
    record as the lookup found it (for the expiry, when the deactivating
    update does not raise); so a caller with the token string and a wrong
    address is handed the record, stored recipient address included.  When
    the lookup resolves no token, the result is the lookup failure, or the
    system error if the lookup raised, without a record. *)
Theorem failure_results_carry_token_data
    (tok e : JSString) (ip ua : option JSString) (w : World) :
  exists r w',
    run (verifyDownloadToken tok e ip ua) w = (Normal r, w') /\
    match reason r with
    | None => valid r = true
    | Some InvalidOrExpiredLink | Some SystemErrorOccurred =>
        valid r = false /\ tokenData r = None
    | Some (AuthorizedForOnly addr) =>
        valid r = false /\
        exists td, tokenData r = Some td /\ resolves w tok = Some td /\
                   addr = recipient_email (row td) /\
                   trim (toLowerCase addr) <> trim (toLowerCase e)
    | Some (LinkExpiredOn _) | Some (LimitReached _)
    | Some DocumentUnavailable =>
        valid r = false /\
        exists td, tokenData r = Some td /\ resolves w tok = Some td
    end /\
    (forall td c,
       resolves w tok = Some td ->
       firstFailing w tok e = Some c ->
       (c = Expiration -> hd Ok (update_replies (oracle w)) <> Raised) ->
       In c checksAfterLookup /\
       r = {| valid := false; document := None;
              reason := messageOf c (Some td); tokenData := Some td |}) /\
    (forall td,
       resolves w tok = Some td ->
       (clock w <= expires_at (row td))%Z ->
       trim (toLowerCase (recipient_email (row td)))
         <> trim (toLowerCase e) ->
       r = {| valid := false; document := None;
              reason := Some (AuthorizedForOnly (recipient_email (row td)));
              tokenData := Some td |}) /\
    (resolves w tok = None ->
       r = match hd Ok (select_replies (oracle w)) with
           | Raised => systemError
           | _ => {| valid := false; document := None;
                     reason := Some InvalidOrExpiredLink;
                     tokenData := None |}
           end).
Proof.
  destruct (hd Ok (select_replies (oracle w))) eqn:Es.
  2: { rewrite run_verify_answered by congruence. cbv zeta.
       assert (Hn : resolves w tok = None).
       { unfold resolves. rewrite Es. reflexivity. }
       unfold finalUpdate, expectedResult, firstFailing. rewrite Hn.
       do 2 eexists. split; [reflexivity |]. cbn.
       repeat split; auto; intros; discriminate. }
  2: { rewrite run_verify_raised by assumption.
       assert (Hn : resolves w tok = None).
       { unfold resolves. rewrite Es. reflexivity. }
       rewrite Hn.
       do 2 eexists. split; [reflexivity |]. cbn.
       repeat split; auto; intros; discriminate. }
  rewrite run_verify_answered by congruence. cbv zeta.
  unfold finalUpdate, expectedResult, firstFailing.
  destruct (resolves w tok) as [td |] eqn:Er.
  2: { do 2 eexists. split; [reflexivity |]. cbn.
       repeat split; auto; intros; discriminate. }
  assert (Hmail : forall c,
    find (failsCheck w td e) checksAfterLookup = c ->
    (clock w <= expires_at (row td))%Z ->
    trim (toLowerCase (recipient_email (row td))) <> trim (toLowerCase e) ->
    c = Some EmailMatch).
  { intros c Hc Hexp Hne. subst c. cbn [find checksAfterLookup failsCheck].
    replace (clock w >? expires_at (row td))%Z with false
      by (symmetry; rewrite Z.gtb_ltb; apply Z.ltb_ge; assumption).
    unfold normalize.
    destruct (JS.eqb (trim (toLowerCase (recipient_email (row td))))
                     (trim (toLowerCase e))) eqn:Em; [ | reflexivity].
    apply jsstring_eqb_eq in Em. contradiction. }
  destruct (find (failsCheck w td e) checksAfterLookup) as [c |] eqn:Ef.
  - specialize (Hmail (Some c) eq_refl).
    apply find_some in Ef as [Hin Hc].
    assert (Hall : forall r0 : VerifyResult,
      r0 = {| valid := false; document := None;
              reason := messageOf c (Some td); tokenData := Some td |} ->
      (forall td0 c0,
         Some td = Some td0 -> Some c = Some c0 ->
         (c0 = Expiration -> hd Ok (update_replies (oracle w)) <> Raised) ->
         In c0 checksAfterLookup /\
         r0 = {| valid := false; document := None;
                 reason := messageOf c0 (Some td0);
                 tokenData := Some td0 |}) /\
      (forall td0,
         Some td = Some td0 ->
         (clock w <= expires_at (row td0))%Z ->
         trim (toLowerCase (recipient_email (row td0)))
           <> trim (toLowerCase e) ->
         r0 = {| valid := false; document := None;
                 reason := Some (AuthorizedForOnly (recipient_email (row td0)));
                 tokenData := Some td0 |}) /\
      (Some td = None ->
       r0 = {| valid := false; document := None;
               reason := Some InvalidOrExpiredLink; tokenData := None |})).
    { intros r0 ->. split; [ | split].
      - intros td0 c0 H1 H2 _. injection H1 as <-. injection H2 as <-.
        split; [exact Hin | reflexivity].
      - intros td0 H1 Hexp Hne. injection H1 as <-.
        specialize (Hmail Hexp Hne). injection Hmail as ->. reflexivity.
      - discriminate. }
    destruct Hin as [<- | [<- | [<- | [<- | []]]]].
    + destruct (hd Ok (update_replies (oracle w))) eqn:Eu.
      1, 2: do 2 eexists; (split; [reflexivity |]); cbn;
        (split; [eauto |]); apply Hall; reflexivity.
      do 2 eexists. split; [reflexivity |]. cbn.
      split; [auto |]. split; [ | split].
      * intros td0 c0 _ H2 H3. injection H2 as <-.
        exfalso. apply H3; reflexivity.
      * intros td0 H1 Hexp Hne. injection H1 as <-.
        specialize (Hmail Hexp Hne). discriminate.
      * discriminate.
    + do 2 eexists. split; [reflexivity |]. cbn. split.
      * split; [reflexivity |].
        exists td. repeat split.
        cbn in Hc. apply negb_true_iff in Hc. intros Heq.
        apply jsstring_eqb_eq in Heq. unfold normalize in Hc. congruence.
      * apply Hall; reflexivity.
    + do 2 eexists. split; [reflexivity |]. cbn.
      split; [eauto |]. apply Hall; reflexivity.
    + do 2 eexists. split; [reflexivity |]. cbn.
      split; [eauto |]. apply Hall; reflexivity.
  - destruct (hd Ok (update_replies (oracle w)));
      do 2 eexists; (split; [reflexivity |]); cbn;
      (split; [auto |]); (split; [ | split]);
      try discriminate;
      intros td0 H1 Hexp Hne; injection H1 as <-;
      specialize (Hmail None eq_refl Hexp Hne); discriminate.
Qed.

(* ------------------------------------------------------------------ *)
(** ** Revocation *)

Lemma download_count_applyPatch_keep (i : Id) (b : option bool) (t : Timestamp)
    (rows : list SecureDownloadToken) :
  List.map download_count
    (List.map (applyPatch i {| set_is_active := b; set_download_count := None;
                               set_updated_at := t |}) rows)
  = List.map download_count rows.
Proof.
  rewrite map_map. apply map_ext. intros r. unfold applyPatch.
  destruct (N.eqb (id r) i); reflexivity.
Qed.

Lemma run_revokeDownloadToken (tokenId : Id) (w : World) :
  run (revokeDownloadToken tokenId) w =
  (Normal match hd Ok (update_replies (oracle w)) with
          | Ok => true
          | _ => false
          end,
   served (UpdateToken tokenId
             {| set_is_active := Some false; set_download_count := None;
                set_updated_at := clock w |}) w).
Proof.
  unfold revokeDownloadToken, served. cbn. unfold handle.
  destruct (hd Ok (update_replies (oracle w))); reflexivity.
Qed.

(** C8: a revocation returns a boolean and never raises, and it changes no
    download counter; when the datastore performs the update it returns
    [true] and leaves the token inactive, and revoking again returns [true]
    once more, with every token as active or inactive as the first
    revocation left it. *)
Theorem revoke_is_idempotent_and_total (tokenId : Id) (w : World) :
  (exists b w',
     run (revokeDownloadToken tokenId) w = (Normal b, w') /\
     List.map download_count (tokens w') = List.map download_count (tokens w))
  /\
  (hd Ok (update_replies (oracle w)) = Ok ->
   hd Ok (tl (update_replies (oracle w))) = Ok ->
   let first := run (revokeDownloadToken tokenId) w in
   let second := run (revokeDownloadToken tokenId) (snd first) in
   fst first = Normal true /\
   fst second = Normal true /\
   (forall r, In r (tokens (snd first)) -> id r = tokenId ->
              is_active r = false) /\
   List.map is_active (tokens (snd second))
     = List.map is_active (tokens (snd first)) /\
   List.map download_count (tokens (snd second))
     = List.map download_count (tokens w)).
Proof.
  split.
  - rewrite run_revokeDownloadToken. do 2 eexists. split; [reflexivity |].
    rewrite served_UpdateToken.
    destruct (hd Ok (update_replies (oracle w))); cbn;
      rewrite ?download_count_applyPatch_keep; reflexivity.
  - intros H1 H2 first second. unfold second, first.
    rewrite !run_revokeDownloadToken. cbn [fst snd].
    rewrite !served_UpdateToken. rewrite H1. cbn. rewrite H2. cbn.
    repeat split.
    + intros r Hin Hid. apply in_map_iff in Hin as (r0 & <- & _).
      unfold applyPatch in *. destruct (N.eqb (id r0) tokenId) eqn:Ei.
      * reflexivity.
      * apply N.eqb_neq in Ei. contradiction.
    + rewrite !map_map. apply map_ext. intros r. unfold applyPatch.
      destruct (N.eqb (id r) tokenId) eqn:Ei; cbn; rewrite Ei; reflexivity.
    + rewrite !download_count_applyPatch_keep. reflexivity.
Qed.

(* ------------------------------------------------------------------ *)
(** ** The quota invariant under interleaved requests *)

Section QuotaDiscipline.

(** The identifiers and ceilings of the table, each identifier with one
    ceiling. *)
Variable K : list (Id * Z).
Hypothesis K_functional :
  forall i m m', In (i, m) K -> In (i, m') K -> m = m'.

Lemma respectsQuota_bind {A B : Type} (p : Prog A) (f : A -> Prog B) :
  respectsQuota K p -> (forall a, respectsQuota K (f a)) ->
  respectsQuota K (bind p f).
Proof.
  intros Hp Hf. induction p as [a | e | R c k IH]; simpl; auto.
  destruct Hp as [Hc Hk]. split; auto.
Qed.

Lemma respectsQuota_try_catch {A : Type} (p : Prog A) (h : Exn -> Prog A) :
  respectsQuota K p -> (forall e, respectsQuota K (h e)) ->
  respectsQuota K (try_catch p h).
Proof.
  intros Hp Hh. induction p as [a | e | R c k IH]; simpl; auto.
  destruct Hp as [Hc Hk]. split; auto.
Qed.

Lemma respectsQuota_bind_await {R B : Type} (c : Call R) (f : R -> Prog B) :
  callRespectsQuota K c ->
  (forall x, plausible K c (inl x) -> respectsQuota K (f x)) ->
  respectsQuota K (bind (await c) f).
Proof.
  intros Hc Hf. split; [assumption |].
  intros [x | e] Hr; simpl; [apply Hf; assumption | exact I].
Qed.

Lemma respectsQuota_logDownloadAttempt tid e s fr ip ua :
  respectsQuota K (logDownloadAttempt tid e s fr ip ua).
Proof.
  unfold logDownloadAttempt.
  apply respectsQuota_try_catch; [ | intros; exact I].
  apply respectsQuota_bind_await; [exact I |]. intros now _.
  apply respectsQuota_bind_await; [exact I |]. intros; exact I.
Qed.

Lemma respectsQuota_revokeDownloadToken tokenId :
  respectsQuota K (revokeDownloadToken tokenId).
Proof.
  unfold revokeDownloadToken.
  apply respectsQuota_try_catch; [ | intros; exact I].
  apply respectsQuota_bind_await; [exact I |]. intros now _.
  apply respectsQuota_bind_await; [exact I |]. intros; exact I.
Qed.

(** The one place where a counter is written: the snapshot passed the quota
    check, so the value written is within the ceiling of the row, whatever
    happened to the row since the snapshot was taken. *)
Lemma respectsQuota_verifyDownloadToken tok e ip ua :
  respectsQuota K (verifyDownloadToken tok e ip ua).
Proof.
  unfold verifyDownloadToken. cbv zeta.
  apply respectsQuota_try_catch.
  2: { intros _. apply respectsQuota_bind; [ | intros; exact I].
       apply respectsQuota_logDownloadAttempt. }
  apply respectsQuota_bind_await; [exact I |].
  intros [td | err] Hr.
  - destruct Hr as [Hin Hnn].
    apply respectsQuota_bind_await; [exact I |]. intros now _.
    destruct (now >? expires_at (row td))%Z.
    + apply respectsQuota_bind; [apply respectsQuota_logDownloadAttempt |].
      intros _. apply respectsQuota_bind_await; [exact I |]. intros now' _.
      apply respectsQuota_bind_await; [exact I |]. intros; exact I.
    + destruct (negb _).
      * apply respectsQuota_bind; [ | intros; exact I].
        apply respectsQuota_logDownloadAttempt.
      * destruct (download_count (row td) >=? max_downloads (row td))%Z eqn:Eq.
        -- apply respectsQuota_bind; [ | intros; exact I].
           apply respectsQuota_logDownloadAttempt.
        -- destruct (project_documents td).
           ++ apply respectsQuota_bind;
                [apply respectsQuota_logDownloadAttempt |].
              intros _.
              apply respectsQuota_bind_await; [exact I |]. intros now' _.
              apply respectsQuota_bind_await; [ | intros; exact I].
              cbn. intros m Hm.
              rewrite (K_functional _ _ _ Hm Hin).
              rewrite Z.geb_leb in Eq. apply Z.leb_gt in Eq. lia.
           ++ apply respectsQuota_bind; [ | intros; exact I].
              apply respectsQuota_logDownloadAttempt.
  - apply respectsQuota_bind; [ | intros; exact I].
    apply respectsQuota_logDownloadAttempt.
Qed.

End QuotaDiscipline.

Lemma quotaKeys_functional (w : World) :
  NoDup (List.map id (tokens w)) ->
  forall i m m', In (i, m) (quotaKeys w) -> In (i, m') (quotaKeys w) -> m = m'.
Proof.
  unfold quotaKeys. induction (tokens w) as [| r rows IH]; simpl.
  - intros _ i m m' [].
  - intros Hnd i m m' H1 H2. inversion Hnd as [| ? ? Hnotin Hnd']; subst.
    assert (Hid : forall m0, In (i, m0)
                    (List.map (fun r => (id r, max_downloads r)) rows) ->
                  In i (List.map id rows)).
    { intros m0 Hin. apply in_map_iff in Hin as (r0 & Heq & Hin).
      injection Heq as <- _. apply in_map. assumption. }
    destruct H1 as [H1 | H1], H2 as [H2 | H2].
    + congruence.
    + injection H1 as <- _. apply Hid in H2. contradiction.
    + injection H2 as <- _. apply Hid in H1. contradiction.
    + eauto.
Qed.

(** Serving a request that respects the quota keeps the invariant, the
    identifiers and the ceilings, and answers plausibly. *)
Lemma handle_keeps_invariant {R : Type} (c : Call R) (w : World) :
  tokensInvariant w ->
  callRespectsQuota (quotaKeys w) c ->
  tokensInvariant (snd (handle c w)) /\
  quotaKeys (snd (handle c w)) = quotaKeys w /\
  plausible (quotaKeys w) c (fst (handle c w)).
Proof.
  intros [Hq Hnd] Hc. destruct c; cbn in *; unfold handle.
  - destruct (hd Ok (select_replies (oracle w)));
      [ | cbn; repeat split; assumption ..].
    destruct (filter (matchesActive tok) (tokens w)) as [| r [| r' l]] eqn:Hf;
      cbn; repeat split; try assumption.
    + assert (Hin : In r (tokens w)).
      { apply (proj1 (filter_In (matchesActive tok) r (tokens w))).
        rewrite Hf. left. reflexivity. }
      unfold quotaKeys.
      apply (in_map (fun r => (id r, max_downloads r))). assumption.
    + assert (Hin : In r (tokens w)).
      { apply (proj1 (filter_In (matchesActive tok) r (tokens w))).
        rewrite Hf. left. reflexivity. }
      rewrite Forall_forall in Hq. apply Hq in Hin. apply Hin.
  - destruct (hd Ok (update_replies (oracle w)));
      [ | cbn; repeat split; assumption ..].
    cbn. unfold tokensInvariant, quotaKeys. cbn.
    assert (Hkeys :
      List.map (fun r => (id r, max_downloads r))
        (List.map (applyPatch i p) (tokens w))
      = List.map (fun r => (id r, max_downloads r)) (tokens w)).
    { rewrite map_map. apply map_ext. intros r. unfold applyPatch.
      destruct (N.eqb (id r) i); reflexivity. }
    assert (Hids : List.map id (List.map (applyPatch i p) (tokens w))
                   = List.map id (tokens w)).
    { rewrite map_map. apply map_ext. intros r. unfold applyPatch.
      destruct (N.eqb (id r) i); reflexivity. }
    rewrite Hids, Hkeys. repeat split; try assumption.
    apply Forall_forall. intros r' Hin.
    apply in_map_iff in Hin as (r & <- & Hin).
    rewrite Forall_forall in Hq. pose proof (Hq r Hin) as Hr.
    unfold applyPatch. destruct (N.eqb (id r) i) eqn:Ei; [ | assumption].
    apply N.eqb_eq in Ei. unfold quotaHolds in *. cbn.
    destruct (set_download_count p) as [n |]; [ | assumption].
    apply Hc. subst i. unfold quotaKeys.
    apply (in_map (fun r => (id r, max_downloads r))). assumption.
  - destruct (hd Ok (audit_replies (oracle w))); cbn; repeat split; assumption.
  - contradiction.
  - destruct (hd RpcRejected (rpc_replies (oracle w)));
      cbn; repeat split; assumption.
  - repeat split; assumption.
  - repeat split; assumption.
  - repeat split; assumption.
Qed.

Lemma resume_keeps_invariant {A : Type} (p : Prog A) (w : World) :
  tokensInvariant w ->
  respectsQuota (quotaKeys w) p ->
  tokensInvariant (snd (resume p w)) /\
  quotaKeys (snd (resume p w)) = quotaKeys w /\
  respectsQuota (quotaKeys w) (fst (resume p w)).
Proof.
  intros Hinv Hp. destruct p as [a | e | R c k]; cbn; auto.
  destruct Hp as [Hc Hk].
  destruct (@handle_keeps_invariant _ c w Hinv Hc) as (H1 & H2 & H3).
  destruct (handle c w) as [r w']. cbn in *. auto.
Qed.

(** Running a program alone is resuming it until it returns. *)
Lemma run_keeps_invariant {A : Type} (p : Prog A) :
  forall w,
    tokensInvariant w ->
    respectsQuota (quotaKeys w) p ->
    tokensInvariant (snd (run p w)).
Proof.
  induction p as [a | e | R c k IH]; intros w Hinv Hp; cbn; auto.
  destruct Hp as [Hc Hk].
  destruct (@handle_keeps_invariant _ c w Hinv Hc) as (H1 & H2 & H3).
  destruct (handle c w) as [r w']. cbn in *.
  apply IH; [assumption |]. rewrite H2. auto.
Qed.

Lemma resumeNth_keeps_invariant (i : nat) :
  forall (ts : list Thread) (w : World),
    tokensInvariant w ->
    Forall (threadRespectsQuota (quotaKeys w)) ts ->
    tokensInvariant (snd (resumeNth i ts w)) /\
    quotaKeys (snd (resumeNth i ts w)) = quotaKeys w /\
    Forall (threadRespectsQuota (quotaKeys w)) (fst (resumeNth i ts w)).
Proof.
  induction i as [| i IH]; intros [| t ts] w Hinv Hts; cbn; auto.
  - inversion Hts as [| ? ? Ht Hts']; subst.
    destruct t as [p | p]; cbn in *;
      destruct (@resume_keeps_invariant _ p w Hinv Ht) as (H1 & H2 & H3);
      destruct (resume p w) as [p' w']; cbn in *;
      (split; [assumption | split; [assumption |]]);
      constructor; assumption.
  - inversion Hts as [| ? ? Ht Hts']; subst.
    destruct (IH ts w Hinv Hts') as (H1 & H2 & H3).
    destruct (resumeNth i ts w) as [ts' w']. cbn in *.
    split; [assumption | split; [assumption |]].
    constructor; assumption.
Qed.

Lemma fire_keeps_invariant (cfg : Config) (ev : Event) :
  tokensInvariant (fst cfg) ->
  Forall (threadRespectsQuota (quotaKeys (fst cfg))) (snd cfg) ->
  tokensInvariant (fst (fire cfg ev)) /\
  Forall (threadRespectsQuota (quotaKeys (fst (fire cfg ev))))
         (snd (fire cfg ev)).
Proof.
  destruct cfg as [w ts]. cbn [fst snd]. intros Hinv Hts.
  destruct ev as [tok e ip ua | tokenId | i | t]; cbn [fire fst snd].
  - split; [assumption |]. apply Forall_app. split; [assumption |].
    constructor; [ | constructor]. cbn [threadRespectsQuota].
    apply respectsQuota_verifyDownloadToken.
    apply quotaKeys_functional. apply Hinv.
  - split; [assumption |]. apply Forall_app. split; [assumption |].
    constructor; [ | constructor]. cbn [threadRespectsQuota].
    apply respectsQuota_revokeDownloadToken.
  - destruct (@resumeNth_keeps_invariant i ts w Hinv Hts) as (H1 & H2 & H3).
    destruct (resumeNth i ts w) as [ts' w']. cbn in *.
    rewrite H2. auto.
  - split; assumption.
Qed.

Lemma interleave_keeps_invariant (evs : list Event) :
  forall cfg : Config,
    tokensInvariant (fst cfg) ->
    Forall (threadRespectsQuota (quotaKeys (fst cfg))) (snd cfg) ->
    tokensInvariant (fst (interleave evs cfg)).
Proof.
  unfold interleave.
  induction evs as [| ev evs IH]; intros cfg Hinv Hts; cbn; [assumption |].
  destruct (@fire_keeps_invariant cfg ev Hinv Hts) as [H1 H2].
  apply IH; assumption.
Qed.

(** C1: from a tokens table in which every row is within its quota (and
    identifiers identify), every interleaving of verification requests, with
    revocations and the passing of time in between, stopped at any point and
    whatever the datastore answers, leaves every row within its quota.  The
    counter is written from a snapshot that passed the quota check, so the
    value written never exceeds the ceiling. *)
Theorem quota_invariant_under_interleaving (evs : list Event) (w : World) :
  Forall quotaHolds (tokens w) ->
  NoDup (List.map id (tokens w)) ->
  Forall quotaHolds (tokens (fst (interleave evs (w, [])))).
Proof.
  intros Hq Hnd.
  apply (@interleave_keeps_invariant evs (w, [])); cbn.
  - split; assumption.
  - constructor.
Qed.

(** Calls made one after the other keep the invariant as well. *)
Lemma sequential_verify_keeps_quota tok e ip ua (w : World) :
  tokensInvariant w ->
  tokensInvariant (snd (run (verifyDownloadToken tok e ip ua) w)).
Proof.
  intros Hinv. apply run_keeps_invariant; [assumption |].
  apply respectsQuota_verifyDownloadToken.
  apply quotaKeys_functional. apply Hinv.
Qed.

(* ------------------------------------------------------------------ *)
(** ** The expiry of a batch *)

Lemma div_div_pos (t b c : Z) :
  (0 < b)%Z -> (0 < c)%Z -> (t / (b * c) = t / b / c)%Z.
Proof. intros Hb Hc. rewrite Z.div_div by lia. reflexivity. Qed.

(** Setting the hours of a local time to its own hours plus [h] moves it by
    [h] hours: the day, the minutes, the seconds and the milliseconds are
    put back as they were found. *)
Lemma MakeDate_hours_later (t h : Z) :
  MakeDate (Day t)
    (MakeTime (HourFromTime t + h) (MinFromTime t) (SecFromTime t)
              (msFromTime t))
  = (t + h * msPerHour)%Z.
Proof.
  unfold MakeDate, MakeTime, Day, HourFromTime, MinFromTime, SecFromTime,
    msFromTime, msPerDay, msPerHour, msPerMinute, msPerSecond.
  change 86400000%Z with (3600000 * 24)%Z.
  rewrite (@div_div_pos t 3600000 24) by lia.
  change 3600000%Z with (60000 * 60)%Z.
  rewrite (@div_div_pos t 60000 60) by lia.
  change 60000%Z with (1000 * 60)%Z.
  rewrite (@div_div_pos t 1000 60) by lia.
  pose proof (Z.div_mod t 1000 ltac:(lia)) as H1.
  pose proof (Z.div_mod (t / 1000) 60 ltac:(lia)) as H2.
  pose proof (Z.div_mod (t / 1000 / 60) 60 ltac:(lia)) as H3.
  pose proof (Z.div_mod (t / 1000 / 60 / 60) 24 ltac:(lia)) as H4.
  lia.
Qed.

(** [expiresAt.setHours(expiresAt.getHours() + hours)]: the expiry is the
    instant at which the local clock shows the local time of the call moved
    by the configured hours, when that is a date; with hours that are
    [undefined] it is no date. *)
Lemma setHours_getHours (t : Timestamp) (hours : option Z) :
  setHours t (plus (getHours t) hours) = expiryOf t hours.
Proof.
  destruct hours as [h |]; [ | reflexivity].
  unfold setHours, plus, getHours, expiryOf, onTheClock.
  cbn [option_map]. cbv zeta. rewrite MakeDate_hours_later. reflexivity.
Qed.


(* ------------------------------------------------------------------ *)
(** ** Token generation *)

(** The client-side generator only consumes random draws. *)
Lemma run_clientSideTokenLoop (n : nat) :
  forall (result : JSString) (w : World),
  exists tok draws,
    run (clientSideTokenLoop n result) w =
    (Normal tok, with_oracle (with_random_draws draws (oracle w)) w).
Proof.
  induction n as [| n IH]; intros result w.
  - exists result, (random_draws (oracle w)). cbn.
    destruct w as [? ? ? ? ? ? ? []]; reflexivity.
  - cbn [clientSideTokenLoop]. rewrite run_bind. cbn.
    destruct (IH (result ++ charAt characters
                    (hd 0%N (random_draws (oracle w))
                       mod N.of_nat (List.length characters))%N)
                 (pop_random w)) as (tok & draws & Hrun).
    exists tok, draws. cbn in Hrun. exact Hrun.
Qed.

Lemma served_InsertToken (ins : TokenInsert) (w : World) :
  served (InsertToken ins) w =
  match hd Ok (store_replies (oracle w)) with
  | Ok =>
      pop_store (with_next_id (N.succ (next_id w))
                   (with_tokens (tokens w ++ [storedToken w ins]) w))
  | _ => pop_store w
  end.
Proof.
  unfold served, handle. destruct (hd Ok (store_replies (oracle w))); reflexivity.
Qed.

(** Whatever the configuration and the address, the batch returns. *)
Lemma generateLoop_never_raises email orderId expires cfg :
  forall docs acc w,
  exists refs w',
    run (generateLoop docs email orderId expires cfg acc) w
      = (Normal refs, w').
Proof.
  induction docs as [| d rest IH]; intros acc w; cbn [generateLoop].
  - cbn. eauto.
  - rewrite run_bind. unfold generateForDocument.
    match goal with
    | |- context [run (try_catch ?p (fun _ => Ret acc)) w] =>
        destruct (run_try_catch_returns p acc w) as (acc' & w1 & Hrun)
    end.
    rewrite Hrun. apply IH.
Qed.

Lemma generate_never_raises documents email orderId config w :
  exists refs w',
    run (generateSecureDownloadTokens documents email orderId config) w
      = (Normal refs, w').
Proof.
  unfold generateSecureDownloadTokens. cbv zeta. rewrite run_bind.
  cbn -[generateLoop].
  apply generateLoop_never_raises.
Qed.

(** [storeAndPush] in every case: an expiry that is no date raises before
    anything is sent; otherwise the insert is sent, and a reference is pushed
    when the datastore accepts it and the address can be encoded. *)
Lemma run_storeAndPush document tok email orderId expires cfg acc w :
  run (storeAndPush document tok email orderId expires cfg acc) w =
  match expires with
  | None => (Abrupt RangeError, w)
  | Some t =>
      let ins := tokenInsertFor document tok email orderId t cfg in
      match hd Ok (store_replies (oracle w)) with
      | Ok =>
          (match encodeURIComponent email with
           | Some enc =>
               Normal (acc ++ [shareable document (origin w) tok enc t])
           | None => Abrupt URIError
           end, served (InsertToken ins) w)
      | Rejected => (Normal acc, served (InsertToken ins) w)
      | Raised => (Abrupt FetchError, served (InsertToken ins) w)
      end
  end.
Proof.
  unfold storeAndPush, toISOString, served, tokenInsertFor.
  destruct expires as [t |]; [ | reflexivity].
  cbn. unfold handle.
  destruct (hd Ok (store_replies (oracle w))); cbn; try reflexivity.
  destruct (encodeURIComponent email); reflexivity.
Qed.

(** One turn of the loop, in every case.  It never raises.  With an expiry
    that is a date, a row is appended exactly when the token-function call
    does not raise and the insert is accepted, and it is issued for the
    document; with an expiry that is no date nothing is sent.  A reference is
    pushed only with a row, and leads to it. *)
Lemma generateForDocument_effect d email orderId expires cfg acc w :
  exists refs rows w',
    run (generateForDocument d email orderId expires cfg acc) w
      = (Normal (acc ++ refs), w') /\
    tokens w' = tokens w ++ rows /\
    sameButTokens w w' /\
    rpc_replies (oracle w') = tl (rpc_replies (oracle w)) /\
    match expires with
    | None => rows = []
    | Some t =>
        store_replies (oracle w')
          = storesAfter (rpc_replies (oracle w)) (store_replies (oracle w)) /\
        List.map document_id rows =
          List.map ref_id (storedDocuments [d] (rpc_replies (oracle w))
                             (store_replies (oracle w))) /\
        Forall (issuedFor email orderId t (ceilingOf w (maxDownloads cfg)))
               rows
    end /\
    match encodeURIComponent email with
    | Some enc => Forall2 (linksTo (origin w) enc) refs rows
    | None => refs = []
    end.
Proof.
  unfold generateForDocument.
  rewrite run_try_catch, run_bind.
  cbn -[generateClientSideToken storeAndPush storedDocuments storesAfter]. unfold handle.
  (* what the turn amounts to once the token is there *)
  assert (Hstore : forall (tok : JSString) (w0 : World),
    tokens w0 = tokens w -> sameButTokens w w0 ->
    rpc_replies (oracle w0) = tl (rpc_replies (oracle w)) ->
    store_replies (oracle w0) = store_replies (oracle w) ->
    hd RpcRejected (rpc_replies (oracle w)) <> RpcRaised ->
    exists refs rows w',
      match run (storeAndPush d tok email orderId expires cfg acc) w0 with
      | (Normal a, w1) => (Normal a, w1)
      | (Abrupt _, w1) => (Normal acc, w1)
      end = (Normal (acc ++ refs), w') /\
      tokens w' = tokens w ++ rows /\ sameButTokens w w' /\
      rpc_replies (oracle w') = tl (rpc_replies (oracle w)) /\
      match expires with
      | None => rows = []
      | Some t =>
          store_replies (oracle w')
            = storesAfter (rpc_replies (oracle w))
                          (store_replies (oracle w)) /\
          List.map document_id rows =
            List.map ref_id (storedDocuments [d] (rpc_replies (oracle w))
                               (store_replies (oracle w))) /\
          Forall (issuedFor email orderId t (ceilingOf w (maxDownloads cfg)))
                 rows
      end /\
      match encodeURIComponent email with
      | Some enc => Forall2 (linksTo (origin w) enc) refs rows
      | None => refs = []
      end).
  { intros tok w0 Ht (Ha & Hd & Hc & Ho & Hm) Hrpc Hst Hnr.
    rewrite run_storeAndPush.
    destruct expires as [t |].
    2: { exists [], [], w0. rewrite !app_nil_r.
         repeat split; auto.
         destruct (encodeURIComponent email); constructor. }
    cbv zeta. rewrite served_InsertToken, Hst.
    assert (Hafter : storesAfter (rpc_replies (oracle w))
                       (store_replies (oracle w))
                     = tl (store_replies (oracle w))).
    { unfold storesAfter.
      destruct (hd RpcRejected (rpc_replies (oracle w))); congruence. }
    assert (Hdocs : storedDocuments [d] (rpc_replies (oracle w))
                      (store_replies (oracle w))
                    = match hd Ok (store_replies (oracle w)) with
                      | Ok => [d]
                      | _ => []
                      end).
    { cbn [storedDocuments].
      destruct (hd RpcRejected (rpc_replies (oracle w))); congruence. }
    rewrite Hafter, Hdocs.
    destruct (hd Ok (store_replies (oracle w))) eqn:Es.
    - set (r := storedToken w0 _).
      assert (Hr : issuedFor email orderId t
                     (ceilingOf w (maxDownloads cfg)) r).
      { unfold issuedFor, ceilingOf, r, storedToken, tokenInsertFor. cbn.
        rewrite Hm. auto 10. }
      destruct (encodeURIComponent email) as [enc |] eqn:Ee.
      + exists [shareable d (origin w0) tok enc t], [r].
        eexists. split; [reflexivity |]. cbn. rewrite Ht, Hst.
        repeat split; auto.
        constructor; [ | constructor]. unfold linksTo, shareable. cbn.
        rewrite Ho. auto.
      + exists [], [r]. eexists. rewrite app_nil_r.
        split; [reflexivity |]. cbn. rewrite Ht, Hst. repeat split; auto.
    - exists [], [], (pop_store w0). rewrite !app_nil_r. cbn. rewrite Hst.
      repeat split; auto.
      destruct (encodeURIComponent email); constructor.
    - exists [], [], (pop_store w0). rewrite !app_nil_r. cbn. rewrite Hst.
      repeat split; auto.
      destruct (encodeURIComponent email); constructor. }
  destruct (hd RpcRejected (rpc_replies (oracle w))) as [t | |] eqn:Er;
    cbn -[generateClientSideToken storeAndPush storedDocuments storesAfter].
  - apply Hstore; cbn; repeat split; try reflexivity; discriminate.
  - rewrite run_bind. unfold generateClientSideToken.
    destruct (run_clientSideTokenLoop 32 [] (pop_rpc w))
      as (tok & draws & Hrun).
    cbn -[clientSideTokenLoop] in Hrun. rewrite Hrun.
    apply Hstore; cbn; repeat split; try reflexivity; discriminate.
  - exists [], [], (pop_rpc w). rewrite !app_nil_r. cbn.
    repeat split; auto.
    + destruct expires as [t |]; [ | reflexivity].
      unfold storesAfter. cbn [storedDocuments]. rewrite Er.
      repeat split. constructor.
    + destruct (encodeURIComponent email); constructor.
Qed.

Lemma storedDocuments_cons (d : DocumentRef) (rest : list DocumentRef)
    (rpcs : list RpcOutcome) (stores : list Outcome) :
  storedDocuments (d :: rest) rpcs stores
  = storedDocuments [d] rpcs stores
    ++ storedDocuments rest (tl rpcs) (storesAfter rpcs stores).
Proof.
  unfold storesAfter. cbn [storedDocuments].
  destruct (hd RpcRejected rpcs); try reflexivity;
    destruct (hd Ok stores); reflexivity.
Qed.


(** The loop, by induction on the documents. *)
Lemma generateLoop_effect email orderId expires cfg :
  forall docs acc w,
  exists refs rows w',
    run (generateLoop docs email orderId expires cfg acc) w
      = (Normal (acc ++ refs), w') /\
    tokens w' = tokens w ++ rows /\
    sameButTokens w w' /\
    match expires with
    | None => rows = []
    | Some t =>
        List.map document_id rows =
          List.map ref_id (storedDocuments docs (rpc_replies (oracle w))
                             (store_replies (oracle w))) /\
        Forall (issuedFor email orderId t (ceilingOf w (maxDownloads cfg)))
               rows
    end /\
    match encodeURIComponent email with
    | Some enc => Forall2 (linksTo (origin w) enc) refs rows
    | None => refs = []
    end.
Proof.
  induction docs as [| d rest IH]; intros acc w.
  - exists [], [], w. cbn. rewrite !app_nil_r. repeat split; auto.
    + destruct expires; [split; [reflexivity | constructor] | reflexivity].
    + destruct (encodeURIComponent email); constructor.
  - cbn [generateLoop]. rewrite run_bind.
    destruct (generateForDocument_effect d email orderId expires cfg acc w)
      as (refs1 & rows1 & w1 & Hrun1 & Ht1 & Hs1 & Hrpc1 & He1 & Hk1).
    rewrite Hrun1.
    destruct (IH (acc ++ refs1) w1)
      as (refs2 & rows2 & w2 & Hrun2 & Ht2 & Hs2 & He2 & Hk2).
    rewrite Hrun2.
    exists (refs1 ++ refs2), (rows1 ++ rows2), w2.
    destruct Hs1 as (Ha1 & Hd1 & Hc1 & Ho1 & Hm1).
    destruct Hs2 as (Ha2 & Hd2 & Hc2 & Ho2 & Hm2).
    rewrite app_assoc. split; [reflexivity |].
    rewrite Ht2, Ht1, app_assoc. split; [reflexivity |].
    split; [unfold sameButTokens; repeat split; congruence |].
    split.
    + destruct expires as [t |].
      * destruct He1 as (Hst1 & Hdoc1 & Hi1).
        destruct He2 as (Hdoc2 & Hi2).
        rewrite Hrpc1, Hst1 in Hdoc2.
        split.
        -- rewrite storedDocuments_cons, !map_app, Hdoc1, Hdoc2.
           reflexivity.
        -- apply Forall_app. split; [assumption |].
           unfold ceilingOf in *. rewrite Hm1 in Hi2. exact Hi2.
      * subst. reflexivity.
    + rewrite Ho1 in Hk2.
      destruct (encodeURIComponent email).
      * apply Forall2_app; assumption.
      * subst. reflexivity.
Qed.

(** The batch, from the loop. *)
Lemma generate_effect docs email orderId config w :
  let finalConfig := mergeConfig DEFAULT_CONFIG config in
  exists refs rows w',
    run (generateSecureDownloadTokens docs email orderId config) w
      = (Normal refs, w') /\
    tokens w' = tokens w ++ rows /\
    sameButTokens w w' /\
    match expiryOf (clock w) (expirationHours finalConfig) with
    | None => rows = []
    | Some t =>
        List.map document_id rows =
          List.map ref_id (storedDocuments docs (rpc_replies (oracle w))
                             (store_replies (oracle w))) /\
        Forall (issuedFor email orderId t
                  (ceilingOf w (maxDownloads finalConfig))) rows
    end /\
    match encodeURIComponent email with
    | Some enc => Forall2 (linksTo (origin w) enc) refs rows
    | None => refs = []
    end.
Proof.
  intros finalConfig.
  unfold generateSecureDownloadTokens. cbv zeta. rewrite run_bind.
  cbn -[generateLoop]. fold finalConfig. rewrite setHours_getHours.
  destruct (generateLoop_effect email orderId
              (expiryOf (clock w) (expirationHours finalConfig))
              finalConfig docs [] w)
    as (refs & rows & w' & Hrun & Ht & Hs & He & Hk).
  exists refs, rows, w'. auto.
Qed.

Lemma Forall2_linksTo_documents (base enc : JSString)
    (refs : list SecureUrl) (rows : list SecureDownloadToken) :
  Forall2 (linksTo base enc) refs rows ->
  List.map documentId refs = List.map document_id rows.
Proof.
  induction 1 as [| ref r refs rows (Hd & _) _ IH]; cbn; [reflexivity |].
  rewrite Hd, IH. reflexivity.
Qed.

(** C6, as the code has it: a batch never raises, and a datastore that
    rejects an insert, or a call that raises, costs the batch the token of
    that document only.  When the expiry is a date, a token is stored for
    exactly the documents whose insert the datastore accepts, in their order;
    when it is not, none is.  One reference per stored token is returned, in
    the same order, when the address can be encoded into the link; when it
    cannot, the tokens are stored all the same and no reference is
    returned. *)
Theorem generation_isolates_failures
    (documents : list DocumentRef) (email : JSString) (orderId : Id)
    (config : PartialConfig) (w : World) :
  exists refs rows w',
    run (generateSecureDownloadTokens documents email orderId config) w
      = (Normal refs, w') /\
    tokens w' = tokens w ++ rows /\
    List.map document_id rows =
      match expiryOf (clock w)
              (expirationHours (mergeConfig DEFAULT_CONFIG config)) with
      | Some _ =>
          List.map ref_id
            (storedDocuments documents (rpc_replies (oracle w))
               (store_replies (oracle w)))
      | None => []
      end /\
    match encodeURIComponent email with
    | Some _ => List.map documentId refs = List.map document_id rows
    | None => refs = []
    end.
Proof.
  destruct (generate_effect documents email orderId config w)
    as (refs & rows & w' & Hrun & Ht & Hs & He & Hk).
  exists refs, rows, w'. split; [exact Hrun |]. split; [exact Ht |]. split.
  - destruct (expiryOf _ _); [apply He | subst; reflexivity].
  - destruct (encodeURIComponent email) as [enc |]; [ | exact Hk].
    eapply Forall2_linksTo_documents; eassumption.
Qed.

(* ------------------------------------------------------------------ *)
(** ** What generation stores and returns *)

(** The client-side token: 32 characters of the alphabet, whatever is
    drawn. *)
Lemma charAt_characters (n : N) :
  exists c, charAt characters (n mod N.of_nat (List.length characters))%N = [c]
            /\ In c characters.
Proof.
  unfold charAt.
  destruct (nth_error characters
              (N.to_nat (n mod N.of_nat (List.length characters))%N))
    as [c |] eqn:E.
  - exists c. split; [reflexivity |]. eapply nth_error_In; eassumption.
  - exfalso. apply nth_error_None in E.
    assert (H : (n mod N.of_nat (List.length characters)
                 < N.of_nat (List.length characters))%N).
    { apply N.mod_lt. discriminate. }
    lia.
Qed.

Lemma run_clientSideTokenLoop_shape (n : nat) :
  forall (result : JSString) (w : World),
  exists suffix draws,
    run (clientSideTokenLoop n result) w =
    (Normal (result ++ suffix),
     with_oracle (with_random_draws draws (oracle w)) w) /\
    List.length suffix = n /\
    Forall (fun c => In c characters) suffix.
Proof.
  induction n as [| n IH]; intros result w.
  - exists [], (random_draws (oracle w)). rewrite app_nil_r. cbn.
    destruct w as [? ? ? ? ? ? ? []]; auto.
  - cbn [clientSideTokenLoop]. rewrite run_bind. cbn.
    destruct (charAt_characters (hd 0%N (random_draws (oracle w))))
      as (c & Hc & Hin).
    rewrite Hc.
    destruct (IH (result ++ [c]) (pop_random w))
      as (suffix & draws & Hrun & Hlen & Hall).
    exists (c :: suffix), draws. cbn in Hrun.
    rewrite <- app_assoc in Hrun. cbn in Hrun.
    split; [exact Hrun |]. split; [cbn; lia |]. constructor; assumption.
Qed.

(** X1: [generateClientSideToken] returns 32 characters, each of them a letter
    or a digit of its alphabet, for every sequence of random draws; it never
    raises and changes no table. *)
Theorem client_side_token_shape (w : World) :
  exists tok w',
    run generateClientSideToken w = (Normal tok, w') /\
    List.length tok = 32%nat /\
    Forall (fun c => In c characters) tok /\
    tokens w' = tokens w /\ attempts w' = attempts w.
Proof.
  unfold generateClientSideToken.
  destruct (run_clientSideTokenLoop_shape 32 [] w)
    as (suffix & draws & Hrun & Hlen & Hall).
  exists suffix, (with_oracle (with_random_draws draws (oracle w)) w).
  cbn [app] in Hrun. auto.
Qed.


(** X3: when the address can be encoded, the references returned are, in
    order, those of the rows stored: each link is the origin of the page,
    [/secure-download/], the token string of its row, and the address as
    given, percent-encoded; each carries the document and the expiry of its
    row. *)
Theorem references_lead_to_stored_tokens
    (docs : list DocumentRef) (email : JSString) (orderId : Id)
    (config : PartialConfig) (w : World) (enc : JSString) :
  encodeURIComponent email = Some enc ->
  exists refs rows w',
    run (generateSecureDownloadTokens docs email orderId config) w
      = (Normal refs, w') /\
    tokens w' = tokens w ++ rows /\
    Forall2 (linksTo (origin w) enc) refs rows.
Proof.
  intros He.
  destruct (generate_effect docs email orderId config w)
    as (refs & rows & w' & Hrun & Ht & Hs & _ & Hk).
  rewrite He in Hk.
  exists refs, rows, w'. split; [exact Hrun |]. split; assumption.
Qed.

(* ------------------------------------------------------------------ *)
(** ** From generation to verification *)

Lemma jsstring_eqb_refl (a : JSString) : JS.eqb a a = true.
Proof. apply jsstring_eqb_eq. reflexivity. Qed.

(** The conditions under which every check passes. *)
Lemma firstFailing_none (w : World) (tok e : JSString) (td : TokenData)
    (doc : ProjectDocument) :
  resolves w tok = Some td ->
  (clock w <= expires_at (row td))%Z ->
  trim (toLowerCase (recipient_email (row td))) = trim (toLowerCase e) ->
  (download_count (row td) < max_downloads (row td))%Z ->
  project_documents td = Some doc ->
  firstFailing w tok e = None.
Proof.
  intros Hr Hexp Hem Hq Hd. unfold firstFailing. rewrite Hr.
  cbn [find checksAfterLookup failsCheck]. unfold normalize.
  replace (clock w >? expires_at (row td))%Z with false
    by (symmetry; rewrite Z.gtb_ltb; apply Z.ltb_ge; assumption).
  rewrite Hem, jsstring_eqb_refl. cbn [negb].
  replace (download_count (row td) >=? max_downloads (row td))%Z with false
    by (symmetry; rewrite Z.geb_leb; apply Z.leb_gt; assumption).
  rewrite Hd. reflexivity.
Qed.

(** A verification whose checks all pass, as long as the increment does not
    raise. *)
Lemma run_verify_granted (tok e : JSString) (ip ua : option JSString)
    (w : World) (td : TokenData) (doc : ProjectDocument) :
  resolves w tok = Some td ->
  firstFailing w tok e = None ->
  project_documents td = Some doc ->
  hd Ok (update_replies (oracle w)) <> Raised ->
  run (verifyDownloadToken tok e ip ua) w =
  (Normal {| valid := true; document := Some doc; reason := None;
             tokenData := Some td |},
   served (UpdateToken (id (row td))
             {| set_is_active := None;
                set_download_count := Some (download_count (row td) + 1)%Z;
                set_updated_at := clock w |})
     (served (InsertAttempt (expectedAudit w tok e ip ua)) (pop_select w))).
Proof.
  intros Hr Hff Hd Hu.
  destruct (resolves_inv w tok Hr) as (Hs & _ & _).
  rewrite run_verify_answered by congruence. cbv zeta.
  unfold finalUpdate, expectedResult. rewrite Hr, Hff, Hd.
  destruct (hd Ok (update_replies (oracle w))); [reflexivity .. | congruence].
Qed.


(* ------------------------------------------------------------------ *)
(** ** What a verification changes, and what it leaves alone *)

Lemma tokens_served_InsertAttempt (a : AttemptInsert) (w : World) :
  tokens (served (InsertAttempt a) w) = tokens w.
Proof.
  rewrite served_InsertAttempt.
  destruct (hd Ok (audit_replies (oracle w))); reflexivity.
Qed.

Lemma tokens_served_UpdateToken (i : Id) (p : TokenPatch) (w : World) :
  tokens (served (UpdateToken i p) w) =
  match hd Ok (update_replies (oracle w)) with
  | Ok => List.map (applyPatch i p) (tokens w)
  | _ => tokens w
  end.
Proof.
  rewrite served_UpdateToken.
  destruct (hd Ok (update_replies (oracle w))); reflexivity.
Qed.

Lemma update_replies_served_InsertAttempt (a : AttemptInsert) (w : World) :
  update_replies (oracle (served (InsertAttempt a) (pop_select w)))
  = update_replies (oracle w).
Proof.
  rewrite served_InsertAttempt. cbn.
  destruct (hd Ok (audit_replies (oracle w))); reflexivity.
Qed.

Lemma finalUpdate_cases (w : World) (tok e : JSString) :
  match finalUpdate w tok e with
  | None => firstFailing w tok e <> None /\
            firstFailing w tok e <> Some Expiration
  | Some (i, p) =>
      exists td, resolves w tok = Some td /\ i = id (row td) /\
        set_updated_at p = clock w /\
        ((firstFailing w tok e = Some Expiration /\
          set_is_active p = Some false /\ set_download_count p = None) \/
         (firstFailing w tok e = None /\
          set_is_active p = None /\
          set_download_count p = Some (download_count (row td) + 1)%Z))
  end.
Proof.
  unfold finalUpdate.
  destruct (resolves w tok) as [td |] eqn:Er.
  - destruct (firstFailing w tok e) as [[] |] eqn:Ef;
      try (split; congruence);
      exists td; repeat split; auto.
  - unfold firstFailing. rewrite Er. split; congruence.
Qed.

Lemma expectedResult_valid (w : World) (tok e : JSString) :
  valid (expectedResult w tok e) =
  match firstFailing w tok e with None => true | Some _ => false end.
Proof.
  unfold expectedResult. destruct (firstFailing w tok e); reflexivity.
Qed.

Lemma expectedResult_reason (w : World) (tok e : JSString) (t : Timestamp) :
  reason (expectedResult w tok e) = Some (LinkExpiredOn t) ->
  firstFailing w tok e = Some Expiration.
Proof.
  unfold expectedResult.
  destruct (firstFailing w tok e) as [[] |] eqn:Ef; cbn;
    destruct (resolves w tok); cbn; congruence.
Qed.

Lemma download_count_deactivate (i : Id) (t : Timestamp)
    (rows : list SecureDownloadToken) :
  List.map download_count
    (List.map (applyPatch i {| set_is_active := Some false;
                               set_download_count := None;
                               set_updated_at := t |}) rows)
  = List.map download_count rows.
Proof. apply download_count_applyPatch_keep. Qed.

(** X5: a verification that is refused consumes nothing: no download counter
    changes, whatever the datastore answers; and unless the refusal is the
    expiry, which deactivates the token, no token row changes at all. *)
Theorem refused_verification_consumes_nothing
    (tok e : JSString) (ip ua : option JSString) (w : World)
    (r : VerifyResult) :
  fst (run (verifyDownloadToken tok e ip ua) w) = Normal r ->
  valid r = false ->
  List.map download_count
    (tokens (snd (run (verifyDownloadToken tok e ip ua) w)))
    = List.map download_count (tokens w) /\
  ((forall t, reason r <> Some (LinkExpiredOn t)) ->
   tokens (snd (run (verifyDownloadToken tok e ip ua) w)) = tokens w).
Proof.
  destruct (hd Ok (select_replies (oracle w))) eqn:Es.
  3: { rewrite run_verify_raised by assumption. cbn [fst snd].
       rewrite tokens_served_InsertAttempt. auto. }
  all: rewrite run_verify_answered by congruence; cbv zeta;
    pose proof (finalUpdate_cases w tok e) as Hfu;
    destruct (finalUpdate w tok e) as [[i p] |];
    [ | cbn [fst snd]; rewrite tokens_served_InsertAttempt; auto];
    destruct Hfu as (td & Hr & -> & Hnow & Hcase);
    destruct (hd Ok (update_replies (oracle w))) eqn:Eu; cbn [fst snd];
    [ | rewrite tokens_served_UpdateToken,
          update_replies_served_InsertAttempt, Eu,
          tokens_served_InsertAttempt; auto
      | rewrite tokens_served_InsertAttempt; cbn [tokens pop_update with_oracle];
        rewrite tokens_served_InsertAttempt; auto];
    rewrite tokens_served_UpdateToken, update_replies_served_InsertAttempt,
      Eu, tokens_served_InsertAttempt; cbn [tokens pop_select with_oracle];
    intros Hres Hval; injection Hres as <-;
    rewrite expectedResult_valid in Hval;
    (destruct Hcase as [(Hff & Ha & Hc) | (Hff & Ha & Hc)];
     rewrite Hff in Hval; [ | discriminate]);
    destruct p as [pa pc pu]; cbn in Ha, Hc; subst pa pc;
    rewrite download_count_applyPatch_keep; (split; [reflexivity |]);
    intros Hne; exfalso;
    unfold expectedResult in Hne; rewrite Hff, Hr in Hne; cbn in Hne;
    eapply Hne; reflexivity.
Qed.

Lemma Forall2_map_patch (P : SecureDownloadToken -> SecureDownloadToken -> Prop)
    (f : SecureDownloadToken -> SecureDownloadToken)
    (rows : list SecureDownloadToken) :
  (forall a, P a (f a)) -> Forall2 P rows (List.map f rows).
Proof.
  intros H. induction rows; cbn; constructor; auto.
Qed.

(** X6: a verification that is granted, with the increment performed, consumes
    exactly one download of the token it resolved: the rows carrying its
    identifier get the counter of the snapshot plus one, every other row is
    left as it is, and no row is added or removed. *)
Theorem granted_verification_consumes_one
    (tok e : JSString) (ip ua : option JSString) (w : World)
    (r : VerifyResult) :
  fst (run (verifyDownloadToken tok e ip ua) w) = Normal r ->
  valid r = true ->
  hd Ok (update_replies (oracle w)) = Ok ->
  exists td,
    tokenData r = Some td /\ resolves w tok = Some td /\
    Forall2 (consumedOne (id (row td)) (download_count (row td) + 1)
               (clock w))
            (tokens w)
            (tokens (snd (run (verifyDownloadToken tok e ip ua) w))).
Proof.
  intros Hres Hval Hu.
  destruct (hd Ok (select_replies (oracle w))) eqn:Es.
  3: { rewrite run_verify_raised in Hres by assumption.
       injection Hres as <-. discriminate. }
  all: rewrite run_verify_answered in * by congruence; cbv zeta in *;
    pose proof (finalUpdate_cases w tok e) as Hfu;
    destruct (finalUpdate w tok e) as [[i p] |].
  all: try (cbn [fst] in Hres; injection Hres as <-;
            rewrite expectedResult_valid in Hval;
            destruct Hfu as [Hne _];
            destruct (firstFailing w tok e); congruence).
  all: destruct Hfu as (td & Hr & -> & Hnow & Hcase); rewrite Hu in *;
    cbn [fst snd] in *; injection Hres as <-;
    rewrite expectedResult_valid in Hval;
    destruct Hcase as [(Hff & Ha & Hc) | (Hff & Ha & Hc)];
    rewrite Hff in Hval; try discriminate.
  all: exists td; unfold expectedResult; rewrite Hff, Hr;
    split; [reflexivity | split; [reflexivity |]];
    rewrite tokens_served_UpdateToken, update_replies_served_InsertAttempt,
      Hu, tokens_served_InsertAttempt;
    apply Forall2_map_patch; intros a; unfold consumedOne, applyPatch;
    destruct (N.eqb (id a) (id (row td))); [ | reflexivity];
    rewrite Hc, Ha, Hnow; cbn; auto.
Qed.

(** X7: the audit trail is append-only through a verification: the attempts
    that were there stay, in order; at most two are added, and each carries
    the claimed address as the code normalises it, which is twice over
    (lower-cased and trimmed by the verification, and once more by the
    logger), the context of the request and the time of the call. *)
Theorem verification_appends_to_audit_trail
    (tok e : JSString) (ip ua : option JSString) (w : World) :
  exists new,
    attempts (snd (run (verifyDownloadToken tok e ip ua) w))
      = attempts w ++ new /\
    (List.length new <= 2)%nat /\
    Forall (fun a =>
              attempted_email a
                = trim (toLowerCase (trim (toLowerCase e))) /\
              ip_address a = ip /\ user_agent a = ua /\
              attempted_at a = clock w) new.
Proof.
  assert (Hstored : forall w0 a,
    log_attempted_email a = normalize (normalize e) ->
    log_ip_address a = ip -> log_user_agent a = ua ->
    log_attempted_at a = clock w ->
    attempted_email (storedAttempt w0 a)
      = trim (toLowerCase (trim (toLowerCase e))) /\
    ip_address (storedAttempt w0 a) = ip /\
    user_agent (storedAttempt w0 a) = ua /\
    attempted_at (storedAttempt w0 a) = clock w).
  { intros w0 a H1 H2 H3 H4. unfold storedAttempt. cbn.
    rewrite H1. unfold normalize. auto. }
  destruct (hd Ok (select_replies (oracle w))) eqn:Es.
  3: { rewrite run_verify_raised by assumption. cbn [snd].
       rewrite served_InsertAttempt. cbn.
       destruct (hd Ok (audit_replies (oracle w))); cbn.
       - eexists. split; [reflexivity |]. split; [cbn; lia |].
         constructor; [ | constructor]. apply Hstored; reflexivity.
       - exists []. rewrite app_nil_r. repeat split; [cbn; lia | constructor].
       - exists []. rewrite app_nil_r. repeat split; [cbn; lia | constructor]. }
  all: rewrite run_verify_answered by congruence; cbv zeta.
  all: destruct (finalUpdate w tok e) as [[i p] |];
    [destruct (hd Ok (update_replies (oracle w))) eqn:Eu |]; cbn [snd];
    rewrite ?served_UpdateToken, ?served_InsertAttempt; cbn;
    destruct (hd Ok (audit_replies (oracle w))) eqn:Ea; cbn;
    rewrite ?Eu; cbn;
    try destruct (hd Ok (tl (audit_replies (oracle w)))) eqn:Ea2; cbn.
  all: try (exists []; rewrite app_nil_r;
            repeat split; [cbn; lia | constructor]; fail).
  all: try (eexists; split; [reflexivity |]; split; [cbn; lia |];
            constructor; [ | constructor]; apply Hstored; reflexivity).
  all: rewrite <- app_assoc; eexists; (split; [reflexivity |]);
    (split; [cbn; lia |]);
    constructor; [ | constructor; [ | constructor]];
    apply Hstored; reflexivity.
Qed.

(* ------------------------------------------------------------------ *)
(** ** The same request, again and again *)

Lemma filter_counted (tok : JSString) (i : Id) (n : Z) (t : Timestamp)
    (rows : list SecureDownloadToken) :
  filter (matchesActive tok)
    (List.map (applyPatch i {| set_is_active := None;
                               set_download_count := Some n;
                               set_updated_at := t |}) rows)
  = List.map (applyPatch i {| set_is_active := None;
                              set_download_count := Some n;
                              set_updated_at := t |})
      (filter (matchesActive tok) rows).
Proof.
  set (f := applyPatch i _).
  assert (Hf : forall r, matchesActive tok (f r) = matchesActive tok r).
  { intros r. unfold f, applyPatch, matchesActive.
    destruct (N.eqb (id r) i); reflexivity. }
  induction rows as [| r rows IH]; [reflexivity |].
  change (filter (matchesActive tok) (List.map f (r :: rows)))
    with (if matchesActive tok (f r)
          then f r :: filter (matchesActive tok) (List.map f rows)
          else filter (matchesActive tok) (List.map f rows)).
  change (filter (matchesActive tok) (r :: rows))
    with (if matchesActive tok r
          then r :: filter (matchesActive tok) rows
          else filter (matchesActive tok) rows).
  rewrite Hf, IH. destruct (matchesActive tok r); reflexivity.
Qed.

Lemma ready_step_granted (tok e : JSString) (ip ua : option JSString)
    (w : World) (td : TokenData) (doc : ProjectDocument) :
  readyToVerify w tok e td doc ->
  (download_count (row td) < max_downloads (row td))%Z ->
  fst (run (verifyDownloadToken tok e ip ua) w)
    = Normal {| valid := true; document := Some doc; reason := None;
                tokenData := Some td |} /\
  exists td',
    readyToVerify (snd (run (verifyDownloadToken tok e ip ua) w)) tok e td' doc
    /\ download_count (row td') = (download_count (row td) + 1)%Z
    /\ max_downloads (row td') = max_downloads (row td).
Proof.
  intros (Hsel & Hupd & Hr & Hexp & Hem & Hd) Hq.
  destruct (resolves_inv w tok Hr) as (Hs & Hf & Hj).
  assert (Hff : firstFailing w tok e = None)
    by (eapply firstFailing_none; eassumption).
  assert (Hu : hd Ok (update_replies (oracle w)) <> Raised)
    by (rewrite Hupd; discriminate).
  rewrite (@run_verify_granted tok e ip ua w td doc Hr Hff Hd Hu).
  cbn [fst snd]. split; [reflexivity |].
  set (p := {| set_is_active := None;
               set_download_count := Some (download_count (row td) + 1)%Z;
               set_updated_at := clock w |}).
  set (w1 := served (UpdateToken (id (row td)) p) _).
  assert (Hw1 : tokens w1 = List.map (applyPatch (id (row td)) p) (tokens w)
                /\ documents w1 = documents w /\ clock w1 = clock w
                /\ select_replies (oracle w1) = []
                /\ update_replies (oracle w1) = []).
  { unfold w1. rewrite served_UpdateToken, served_InsertAttempt. cbn.
    destruct (hd Ok (audit_replies (oracle w))); cbn;
      rewrite Hupd, Hsel; cbn; auto. }
  destruct Hw1 as (Ht1 & Hd1 & Hc1 & Hs1 & Hu1).
  exists {| row := applyPatch (id (row td)) p (row td);
            project_documents := Some doc |}.
  assert (Hrow : applyPatch (id (row td)) p (row td) =
    {| id := id (row td); token := token (row td);
       document_id := document_id (row td);
       recipient_email := recipient_email (row td);
       order_id := order_id (row td); expires_at := expires_at (row td);
       max_downloads := max_downloads (row td);
       download_count := (download_count (row td) + 1)%Z;
       is_active := is_active (row td); created_at := created_at (row td);
       updated_at := clock w |}).
  { unfold applyPatch. rewrite N.eqb_refl. reflexivity. }
  unfold readyToVerify. cbn [row project_documents].
  rewrite Hrow, Hc1. cbn.
  repeat split; auto.
  unfold resolves. rewrite Hs1, Ht1. cbn [hd]. unfold p.
  rewrite filter_counted, Hf. cbn [List.map]. fold p. rewrite Hrow.
  unfold joinDocument. rewrite Hd1. cbn [document_id].
  change (find (fun d => N.eqb (doc_id d) (document_id (row td)))
            (documents w)) with (joinDocument w (row td)).
  rewrite <- Hj, Hd. reflexivity.
Qed.

Lemma ready_step_refused (tok e : JSString) (ip ua : option JSString)
    (w : World) (td : TokenData) (doc : ProjectDocument) :
  readyToVerify w tok e td doc ->
  (max_downloads (row td) <= download_count (row td))%Z ->
  fst (run (verifyDownloadToken tok e ip ua) w)
    = Normal {| valid := false; document := None;
                reason := Some (LimitReached (max_downloads (row td)));
                tokenData := Some td |} /\
  readyToVerify (snd (run (verifyDownloadToken tok e ip ua) w)) tok e td doc.
Proof.
  intros (Hsel & Hupd & Hr & Hexp & Hem & Hd) Hq.
  destruct (resolves_inv w tok Hr) as (Hs & Hf & Hj).
  assert (Hff : firstFailing w tok e = Some Quota).
  { unfold firstFailing. rewrite Hr.
    cbn [find checksAfterLookup failsCheck]. unfold normalize.
    replace (clock w >? expires_at (row td))%Z with false
      by (symmetry; rewrite Z.gtb_ltb; apply Z.ltb_ge; assumption).
    rewrite Hem, jsstring_eqb_refl. cbn [negb].
    replace (download_count (row td) >=? max_downloads (row td))%Z with true
      by (symmetry; rewrite Z.geb_leb; apply Z.leb_le; assumption).
    reflexivity. }
  rewrite run_verify_answered by congruence. cbv zeta.
  unfold finalUpdate, expectedResult. rewrite Hr, Hff. cbn [fst snd].
  split; [reflexivity |].
  set (w1 := served _ _).
  assert (Hw1 : tokens w1 = tokens w /\ documents w1 = documents w
                /\ clock w1 = clock w /\ select_replies (oracle w1) = []
                /\ update_replies (oracle w1) = []).
  { unfold w1. rewrite served_InsertAttempt. cbn.
    destruct (hd Ok (audit_replies (oracle w))); cbn;
      rewrite Hupd, Hsel; cbn; auto. }
  destruct Hw1 as (Ht1 & Hd1 & Hc1 & Hs1 & Hu1).
  unfold readyToVerify. rewrite Hc1. repeat split; auto.
  unfold resolves in *. rewrite Hs1, Ht1. rewrite Hsel in Hr. cbn [hd] in *.
  unfold joinDocument in *. rewrite Hd1. exact Hr.
Qed.

(** X8: a token grants exactly what is left of its quota.  When the same
    request is made [n] times in a row against a token that is found, not
    expired, bound to the address claimed and whose document exists, with a
    datastore that performs every lookup and update, the first
    [max_downloads - download_count] calls are granted and every later one
    is refused with the quota message; the counter ends at the ceiling at
    most. *)
Theorem token_grants_until_quota (n : nat) :
  forall (tok e : JSString) (ip ua : option JSString) (w : World)
         (td : TokenData) (doc : ProjectDocument),
  readyToVerify w tok e td doc ->
  let remaining :=
    Z.to_nat (max_downloads (row td) - download_count (row td)) in
  let results := fst (verifyRepeatedly n tok e ip ua w) in
  List.map granted results
    = repeat true (Nat.min n remaining) ++ repeat false (n - remaining) /\
  Forall (fun c =>
            granted c = false ->
            exists r, c = Normal r /\
                      reason r = Some (LimitReached (max_downloads (row td))))
         results /\
  exists td',
    readyToVerify (snd (verifyRepeatedly n tok e ip ua w)) tok e td' doc /\
    download_count (row td')
      = (download_count (row td) + Z.of_nat (Nat.min n remaining))%Z.
Proof.
  induction n as [| n IH]; intros tok e ip ua w td doc Hready remaining results.
  - cbn. repeat split; [constructor |].
    exists td. split; [assumption | lia].
  - unfold results. cbn [verifyRepeatedly].
    destruct (Z.lt_ge_cases (download_count (row td)) (max_downloads (row td)))
      as [Hlt | Hge].
    + destruct (@ready_step_granted tok e ip ua w td doc Hready Hlt)
        as (Hfst & td1 & Hready1 & Hc1 & Hm1).
      destruct (run (verifyDownloadToken tok e ip ua) w) as [c w1].
      cbn [fst snd] in *. subst c.
      specialize (IH tok e ip ua w1 td1 doc Hready1).
      cbv zeta in IH. rewrite Hc1, Hm1 in IH.
      destruct (verifyRepeatedly n tok e ip ua w1) as [rs w2].
      cbn [fst snd] in *.
      destruct IH as (Hmap & Hall & td2 & Hready2 & Hc2).
      assert (Hrem : remaining =
        S (Z.to_nat (max_downloads (row td) - (download_count (row td) + 1))))
        by (unfold remaining; lia).
      rewrite Hrem. cbn [Nat.min Nat.sub List.map granted valid repeat app].
      rewrite Hmap. split; [reflexivity |]. split.
      * constructor; [ | assumption]. cbn. discriminate.
      * exists td2. split; [assumption |]. rewrite Hc2. lia.
    + destruct (@ready_step_refused tok e ip ua w td doc Hready Hge)
        as (Hfst & Hready1).
      destruct (run (verifyDownloadToken tok e ip ua) w) as [c w1].
      cbn [fst snd] in *. subst c.
      specialize (IH tok e ip ua w1 td doc Hready1).
      cbv zeta in IH.
      destruct (verifyRepeatedly n tok e ip ua w1) as [rs w2].
      cbn [fst snd] in *.
      destruct IH as (Hmap & Hall & td2 & Hready2 & Hc2).
      assert (Hrem : remaining = 0%nat) by (unfold remaining; lia).
      rewrite Hrem in *.
      replace (Z.to_nat (max_downloads (row td) - download_count (row td)))
        with 0%nat in * by lia.
      rewrite Nat.min_0_r in *. rewrite Nat.sub_0_r in *.
      cbn [List.map granted valid repeat app] in *.
      rewrite Hmap. split; [reflexivity |]. split.
      * constructor; [ | assumption]. intros _. eexists.
        split; reflexivity.
      * exists td2. split; [assumption |]. rewrite Hc2. lia.
Qed.

(* ------------------------------------------------------------------ *)
(** ** Revocation, once more *)

(** X9: a revocation that the datastore performs touches the rows of the
    identifier it is given and no other: those rows become inactive and get
    the time of the call, every other row is left as it is.  For an
    identifier that no row carries it still reports success, and nothing
    changes. *)
Theorem revoke_touches_one_token (tokenId : Id) (w : World) :
  hd Ok (update_replies (oracle w)) = Ok ->
  fst (run (revokeDownloadToken tokenId) w) = Normal true /\
  Forall2 (revokedOne tokenId (clock w)) (tokens w)
          (tokens (snd (run (revokeDownloadToken tokenId) w))) /\
  ((forall r, In r (tokens w) -> id r <> tokenId) ->
   tokens (snd (run (revokeDownloadToken tokenId) w)) = tokens w).
Proof.
  intros Hu. rewrite run_revokeDownloadToken. cbn [fst snd].
  rewrite tokens_served_UpdateToken, Hu. split; [reflexivity |]. split.
  - apply Forall2_map_patch. intros a. unfold revokedOne, applyPatch.
    destruct (N.eqb (id a) tokenId); cbn; auto.
  - intros Hnone. rewrite <- (map_id (tokens w)) at 2.
    apply map_ext_in. intros r Hin. unfold applyPatch.
    destruct (N.eqb (id r) tokenId) eqn:Ei; [ | reflexivity].
    apply N.eqb_eq in Ei. apply Hnone in Hin. contradiction.
Qed.

(** X10: a revoked token no longer verifies.  Once the datastore has performed
    the revocation of the token that a token string resolves to, every
    verification with that string, with any address and at any time, is
    refused as an invalid or expired link. *)
Theorem revoked_token_no_longer_verifies
    (tok : JSString) (w : World) (td : TokenData) :
  resolves w tok = Some td ->
  hd Ok (update_replies (oracle w)) = Ok ->
  forall e ip ua w2,
    tokens w2 = tokens (snd (run (revokeDownloadToken (id (row td))) w)) ->
    hd Ok (select_replies (oracle w2)) <> Raised ->
    fst (run (verifyDownloadToken tok e ip ua) w2)
      = Normal {| valid := false; document := None;
                  reason := Some InvalidOrExpiredLink; tokenData := None |}.
Proof.
  intros Hr Hu e ip ua w2 Htok Hs2.
  destruct (resolves_inv w tok Hr) as (_ & Hf & _).
  rewrite run_revokeDownloadToken in Htok. cbn [snd] in Htok.
  rewrite tokens_served_UpdateToken, Hu in Htok.
  rewrite run_verify_answered by assumption. cbv zeta.
  assert (Hnone : resolves w2 tok = None).
  { unfold resolves. rewrite Htok, filter_deactivated, Hf.
    unfold filter. rewrite N.eqb_refl. cbn.
    destruct (hd Ok (select_replies (oracle w2))); reflexivity. }
  unfold finalUpdate, expectedResult, firstFailing. rewrite Hnone.
  reflexivity.
Qed.

(* ------------------------------------------------------------------ *)
(** ** Requests for new links *)

(** X11: [requestNewDownloadLinks] never raises and never touches a token.  It
    reports success whenever the insert does not raise, also when the
    datastore rejects it: the error of the insert is not looked at.  When the
    insert is accepted, exactly one attempt is appended: against no token, a
    failure, for the address lower-cased and trimmed, without request
    context, with a reason that ends in the order identifier. *)
Theorem request_new_links_reports_success_unless_raised
    (orderId email : JSString) (w : World) :
  exists b w',
    run (requestNewDownloadLinks orderId email) w = (Normal b, w') /\
    tokens w' = tokens w /\
    match hd Ok (audit_replies (oracle w)) with
    | Ok =>
        b = true /\
        attempts w' = attempts w ++
          [ {| attempt_id := next_id w; token_id := None;
               attempted_email := trim (toLowerCase email);
               ip_address := None; user_agent := None; success := false;
               failure_reason :=
                 Some (js "New download links requested for order "
                       ++ orderId);
               attempted_at := clock w |} ]
    | Rejected => b = true /\ attempts w' = attempts w
    | Raised => b = false /\ attempts w' = attempts w
    end.
Proof.
  unfold requestNewDownloadLinks. cbn. unfold handle.
  destruct (hd Ok (audit_replies (oracle w))); cbn;
    do 2 eexists; (split; [reflexivity |]); cbn; auto.
Qed.

(* ------------------------------------------------------------------ *)
(** ** Statistics *)

Lemma filter_partition_length {A : Type} (f g : A -> bool) (l : list A) :
  (forall a, g a = negb (f a)) ->
  List.length l = (List.length (filter f l) + List.length (filter g l))%nat.
Proof.
  intros H. induction l as [| a l IH]; [reflexivity |].
  change (filter f (a :: l)) with (if f a then a :: filter f l else filter f l).
  change (filter g (a :: l)) with (if g a then a :: filter g l else filter g l).
  rewrite H. destruct (f a); cbn; lia.
Qed.

Lemma active_or_expired (now : Timestamp) (t : SecureDownloadToken) :
  negb (is_active t) || (expires_at t <=? now)%Z
  = negb (is_active t && (expires_at t >? now)%Z).
Proof.
  rewrite negb_andb. f_equal.
  rewrite Z.gtb_ltb, Z.leb_antisym. reflexivity.
Qed.

Lemma summarize_adds_up (now : Timestamp) (ts : list SecureDownloadToken)
    (ats : list DownloadAttempt) :
  let s := summarize now ts ats in
  totalTokens s = (activeTokens s + expiredTokens s)%nat /\
  totalAttempts s = (successfulDownloads s + failedAttempts s)%nat.
Proof.
  cbn. split.
  - apply filter_partition_length. intros t. apply active_or_expired.
  - apply filter_partition_length. intros a. reflexivity.
Qed.

Ltac split_answers :=
  repeat match goal with
         | |- context [match hd Ok ?l with _ => _ end] =>
             lazymatch l with
             | context [match _ with _ => _ end] => fail
             | _ => destruct (hd Ok l) eqn:?; cbn
             end
         end.

(** What [getDownloadStatistics] returns is the summary of some rows, at the
    time of the call. *)
Lemma getDownloadStatistics_summary (orderId : option Id) (w : World) :
  exists ts ats,
    fst (getDownloadStatistics orderId w) = summarize (clock w) ts ats.
Proof.
  unfold getDownloadStatistics, statisticsQueries, dbind, all2, select, dret.
  destruct orderId as [o |]; cbn; split_answers;
    try (exists [], []; reflexivity);
    do 2 eexists; reflexivity.
Qed.

(** X12: the statistics add up, whatever is asked and whatever the datastore
    answers: every token counted is either active or expired, never both and
    never neither, and every attempt counted is either a successful download
    or a failed attempt. *)
Theorem statistics_add_up (orderId : option Id) (w : World) :
  let s := fst (getDownloadStatistics orderId w) in
  totalTokens s = (activeTokens s + expiredTokens s)%nat /\
  totalAttempts s = (successfulDownloads s + failedAttempts s)%nat.
Proof.
  cbv zeta.
  destruct (getDownloadStatistics_summary orderId w) as (ts & ats & ->).
  apply summarize_adds_up.
Qed.

Lemma existsb_ids (i o : Id) (ts : list SecureDownloadToken) :
  existsb (N.eqb i) (List.map id (filter (ofOrder (Some o)) ts))
  = existsb (fun t => N.eqb (id t) i && N.eqb (order_id t) o) ts.
Proof.
  induction ts as [| t ts IH]; [reflexivity |].
  change (filter (ofOrder (Some o)) (t :: ts))
    with (if N.eqb (order_id t) o
          then t :: filter (ofOrder (Some o)) ts
          else filter (ofOrder (Some o)) ts).
  cbn [existsb]. destruct (N.eqb (order_id t) o); cbn [List.map existsb].
  - rewrite IH, andb_true_r, (N.eqb_sym i). reflexivity.
  - rewrite IH, andb_false_r. reflexivity.
Qed.

(** X13: asked about an order that has tokens, with a datastore that answers,
    the statistics count the tokens of that order and the attempts made
    against those tokens, and no other: attempts against tokens of other
    orders and attempts against no token are left out. *)
Theorem statistics_of_an_order (o : Id) (w : World) :
  select_replies (oracle w) = [] ->
  filter (ofOrder (Some o)) (tokens w) <> [] ->
  let s := fst (getDownloadStatistics (Some o) w) in
  totalTokens s
    = List.length (filter (fun t => N.eqb (order_id t) o) (tokens w)) /\
  totalAttempts s
    = List.length (filter (attemptOnOrder w o) (attempts w)).
Proof.
  intros Hs Hne. cbv zeta.
  assert (Hids :
    idsToFilterOn
      (Success (List.map id (filter (ofOrder (Some o)) (tokens w))))
    = Some (List.map id (filter (ofOrder (Some o)) (tokens w)))).
  { destruct (filter (ofOrder (Some o)) (tokens w)); [congruence | reflexivity]. }
  unfold getDownloadStatistics, statisticsQueries, dbind, all2, select, dret.
  cbn -[idsToFilterOn]. rewrite Hs. cbn -[idsToFilterOn]. rewrite Hids.
  cbn. split; [reflexivity |].
  f_equal. apply filter_ext. intros a.
  unfold attemptOnOrder, ofTokens.
  destruct (token_id a) as [i |]; [ | reflexivity].
  apply existsb_ids.
Qed.

(** X14: asked about an order that has no token, the statistics report no
    token, but the attempts of the whole table: the filter on the attempts is
    only set when the order has tokens. *)
Theorem statistics_of_an_unknown_order (o : Id) (w : World) :
  select_replies (oracle w) = [] ->
  filter (ofOrder (Some o)) (tokens w) = [] ->
  let s := fst (getDownloadStatistics (Some o) w) in
  totalTokens s = 0%nat /\
  totalAttempts s = List.length (attempts w) /\
  successfulDownloads s
    = List.length (filter (fun a => success a) (attempts w)).
Proof.
  intros Hs He. cbv zeta.
  unfold getDownloadStatistics, statisticsQueries, dbind, all2, select, dret.
  cbn. rewrite Hs. cbn. rewrite He. cbn.
  assert (Hall : filter (fun _ : DownloadAttempt => true) (attempts w)
                 = attempts w).
  { induction (attempts w) as [| a l IH]; [reflexivity |].
    change (filter (fun _ : DownloadAttempt => true) (a :: l))
      with (a :: filter (fun _ : DownloadAttempt => true) l).
    rewrite IH. reflexivity. }
  unfold ofTokens. rewrite Hall. auto.
Qed.

(* ------------------------------------------------------------------ *)
(** ** The address of the client *)

Lemma truthy_nonempty (v : option JSString) (a : JSString) :
  truthy v = Some a -> a <> [].
Proof.
  destruct v as [[| c s] |]; cbn; try discriminate.
  intros H. injection H as <-. discriminate.
Qed.

Lemma addressIn_nonempty (answer : FetchAnswer) (a : JSString) :
  addressIn answer = Some a -> a <> [].
Proof.
  destruct answer as [| i o q]; cbn; [discriminate |].
  destruct (truthy i) eqn:Ei.
  - intros H. injection H as <-. eapply truthy_nonempty; eassumption.
  - destruct (truthy o) eqn:Eo.
    + intros H. injection H as <-. eapply truthy_nonempty; eassumption.
    + apply truthy_nonempty.
Qed.

Lemma tryServices_first (fetch : JSString -> FetchAnswer)
    (services : list JSString) (a : JSString) :
  tryServices fetch services = Some a <->
  exists before service after,
    services = before ++ service :: after /\
    addressIn (fetch service) = Some a /\
    forall s, In s before -> addressIn (fetch s) = None.
Proof.
  induction services as [| s rest IH]; cbn.
  - split; [discriminate |]. intros (b & sv & af & H & _).
    destruct b; discriminate.
  - destruct (addressIn (fetch s)) as [x |] eqn:E.
    + split.
      * intros H. injection H as <-. exists [], s, rest. cbn. auto.
        repeat split; auto. intros ? [].
      * intros ([| b0 before] & sv & af & H & Ha & Hb).
        -- cbn in H. injection H as <- _. congruence.
        -- cbn in H. injection H as <- _.
           rewrite Hb in E by (left; reflexivity). discriminate.
    + rewrite IH. split.
      * intros (before & sv & af & -> & Ha & Hb).
        exists (s :: before), sv, af. repeat split; auto.
        intros s0 [<- | Hin]; auto.
      * intros ([| b0 before] & sv & af & H & Ha & Hb).
        -- cbn in H. injection H as <- _. congruence.
        -- cbn in H. injection H as <- ->.
           exists before, sv, af. repeat split; auto.
           intros s0 Hin. apply Hb. right. assumption.
Qed.

(** X15: [getClientIP] asks ipify, ipapi and httpbin in that order and returns
    what the first of them that gives an address gives; a service that fails
    or answers without an address is passed over.  It returns nothing exactly
    when none of the three gives an address, and what it returns is never the
    empty string. *)
Theorem client_ip_is_first_address_given (fetch : JSString -> FetchAnswer) :
  (forall a,
     getClientIP fetch = Some a <->
     exists before service after,
       ipServices = before ++ service :: after /\
       addressIn (fetch service) = Some a /\
       forall s, In s before -> addressIn (fetch s) = None) /\
  (getClientIP fetch = None <->
   forall s, In s ipServices -> addressIn (fetch s) = None) /\
  (forall a, getClientIP fetch = Some a -> a <> []).
Proof.
  unfold getClientIP. split; [ | split].
  - intros a. apply tryServices_first.
  - generalize ipServices as services.
    induction services as [| s rest IH]; cbn.
    + split; [intros _ ? [] | reflexivity].
    + destruct (addressIn (fetch s)) eqn:E.
      * split; [discriminate |]. intros H.
        rewrite H in E by (left; reflexivity). discriminate.
      * rewrite IH. split.
        -- intros H s0 [<- | Hin]; auto.
        -- intros H s0 Hin. apply H. right. assumption.
  - intros a H. apply tryServices_first in H
      as (before & service & after & _ & Ha & _).
    eapply addressIn_nonempty; eassumption.
Qed.

(* ------------------------------------------------------------------ *)
(** ** What no interleaving changes *)

Lemma storesNoToken_bind {A B : Type} (p : Prog A) (f : A -> Prog B) :
  storesNoToken p -> (forall a, storesNoToken (f a)) ->
  storesNoToken (bind p f).
Proof.
  intros Hp Hf. induction p as [a | e | R c k IH]; simpl; auto.
  destruct Hp as [Hc Hk]. split; auto.
Qed.

Lemma storesNoToken_try_catch {A : Type} (p : Prog A) (h : Exn -> Prog A) :
  storesNoToken p -> (forall e, storesNoToken (h e)) ->
  storesNoToken (try_catch p h).
Proof.
  intros Hp Hh. induction p as [a | e | R c k IH]; simpl; auto.
  destruct Hp as [Hc Hk]. split; auto.
Qed.

Lemma storesNoToken_await {R : Type} (c : Call R) :
  match c with InsertToken _ => False | _ => True end ->
  storesNoToken (await c).
Proof.
  intros Hc. split; [assumption |]. intros [x | e]; exact I.
Qed.

Ltac no_store :=
  repeat first
    [ exact I
    | intro
    | apply storesNoToken_try_catch
    | apply storesNoToken_bind
    | apply storesNoToken_await
    | match goal with
      | |- storesNoToken (match ?x with _ => _ end) => destruct x
      end ].

Lemma storesNoToken_logDownloadAttempt tid e s fr ip ua :
  storesNoToken (logDownloadAttempt tid e s fr ip ua).
Proof. unfold logDownloadAttempt. no_store. Qed.

Lemma storesNoToken_verifyDownloadToken tok e ip ua :
  storesNoToken (verifyDownloadToken tok e ip ua).
Proof.
  unfold verifyDownloadToken. cbv zeta.
  repeat first
    [ exact I
    | intro
    | apply storesNoToken_logDownloadAttempt
    | apply storesNoToken_try_catch
    | apply storesNoToken_bind
    | apply storesNoToken_await
    | match goal with
      | |- storesNoToken (match ?x with _ => _ end) => destruct x
      end ].
Qed.

Lemma storesNoToken_revokeDownloadToken tokenId :
  storesNoToken (revokeDownloadToken tokenId).
Proof. unfold revokeDownloadToken. no_store. Qed.

Lemma identity_applyPatch (i : Id) (p : TokenPatch)
    (rows : list SecureDownloadToken) :
  List.map identity (List.map (applyPatch i p) rows) = List.map identity rows.
Proof.
  rewrite map_map. apply map_ext. intros r. unfold applyPatch.
  destruct (N.eqb (id r) i); reflexivity.
Qed.

Lemma handle_keeps_identities {R : Type} (c : Call R) (w : World) :
  match c with InsertToken _ => False | _ => True end ->
  List.map identity (tokens (snd (handle c w))) = List.map identity (tokens w)
  /\ exists new, attempts (snd (handle c w)) = attempts w ++ new.
Proof.
  intros Hc. destruct c; cbn in Hc; try contradiction; unfold handle.
  - destruct (hd Ok (select_replies (oracle w)));
      [destruct (filter _ _) as [| ? [| ? ?]] | | ]; cbn;
      (split; [reflexivity | exists []; rewrite app_nil_r; reflexivity]).
  - destruct (hd Ok (update_replies (oracle w))); cbn;
      rewrite ?identity_applyPatch;
      (split; [reflexivity | exists []; rewrite app_nil_r; reflexivity]).
  - destruct (hd Ok (audit_replies (oracle w))); cbn;
      (split; [reflexivity |]);
      [eexists; reflexivity | exists []; rewrite app_nil_r; reflexivity ..].
  - destruct (hd RpcRejected (rpc_replies (oracle w))); cbn;
      (split; [reflexivity | exists []; rewrite app_nil_r; reflexivity]).
  - cbn. split; [reflexivity | exists []; rewrite app_nil_r; reflexivity].
  - cbn. split; [reflexivity | exists []; rewrite app_nil_r; reflexivity].
  - cbn. split; [reflexivity | exists []; rewrite app_nil_r; reflexivity].
Qed.

Lemma resume_keeps_identities {A : Type} (p : Prog A) (w : World) :
  storesNoToken p ->
  storesNoToken (fst (resume p w)) /\
  List.map identity (tokens (snd (resume p w))) = List.map identity (tokens w)
  /\ exists new, attempts (snd (resume p w)) = attempts w ++ new.
Proof.
  intros Hp. destruct p as [a | e | R c k]; cbn.
  1, 2: split; [exact I |]; split; [reflexivity |];
        exists []; rewrite app_nil_r; reflexivity.
  destruct Hp as [Hc Hk].
  pose proof (@handle_keeps_identities _ c w Hc) as H.
  destruct (handle c w) as [r w']. cbn in *. split; [apply Hk | exact H].
Qed.

Lemma resumeNth_keeps_identities (i : nat) :
  forall (ts : list Thread) (w : World),
    Forall threadStoresNoToken ts ->
    Forall threadStoresNoToken (fst (resumeNth i ts w)) /\
    List.map identity (tokens (snd (resumeNth i ts w)))
      = List.map identity (tokens w) /\
    exists new, attempts (snd (resumeNth i ts w)) = attempts w ++ new.
Proof.
  induction i as [| i IH]; intros [| t ts] w Hts; cbn.
  1, 3: split; [constructor |]; split; [reflexivity |];
        exists []; rewrite app_nil_r; reflexivity.
  - inversion Hts as [| ? ? Ht Hts']; subst.
    destruct t as [p | p]; cbn in *;
      destruct (@resume_keeps_identities _ p w Ht) as (H1 & H2 & H3);
      destruct (resume p w) as [p' w']; cbn in *;
      (split; [constructor; assumption | split; assumption]).
  - inversion Hts as [| ? ? Ht Hts']; subst.
    destruct (IH ts w Hts') as (H1 & H2 & H3).
    destruct (resumeNth i ts w) as [ts' w']. cbn in *.
    split; [constructor; assumption | split; assumption].
Qed.

Lemma interleave_keeps_identities (evs : list Event) :
  forall cfg : Config,
    Forall threadStoresNoToken (snd cfg) ->
    List.map identity (tokens (fst (interleave evs cfg)))
      = List.map identity (tokens (fst cfg)) /\
    exists new, attempts (fst (interleave evs cfg))
                = attempts (fst cfg) ++ new.
Proof.
  unfold interleave.
  induction evs as [| ev evs IH]; intros [w ts] Hts; cbn [fold_left fst snd].
  - split; [reflexivity | exists []; rewrite app_nil_r; reflexivity].
  - cbn [snd] in Hts.
    assert (Hstep :
      Forall threadStoresNoToken (snd (fire (w, ts) ev)) /\
      List.map identity (tokens (fst (fire (w, ts) ev)))
        = List.map identity (tokens w) /\
      exists new, attempts (fst (fire (w, ts) ev)) = attempts w ++ new).
    { destruct ev as [tok e ip ua | tokenId | i | t]; cbn [fire fst snd].
      - split; [ | split; [reflexivity |
                           exists []; rewrite app_nil_r; reflexivity]].
        apply Forall_app. split; [assumption |].
        constructor; [ | constructor].
        apply storesNoToken_verifyDownloadToken.
      - split; [ | split; [reflexivity |
                           exists []; rewrite app_nil_r; reflexivity]].
        apply Forall_app. split; [assumption |].
        constructor; [ | constructor].
        apply storesNoToken_revokeDownloadToken.
      - destruct (@resumeNth_keeps_identities i ts w Hts) as (H1 & H2 & H3).
        destruct (resumeNth i ts w) as [ts' w']. cbn in *. auto.
      - split; [assumption |]. split; [reflexivity |].
        exists []. rewrite app_nil_r. reflexivity. }
    destruct Hstep as (H1 & H2 & new1 & H3).
    destruct (IH (fire (w, ts) ev) H1) as (H4 & new2 & H5).
    split; [congruence |].
    exists (new1 ++ new2). rewrite H5, H3, app_assoc. reflexivity.
Qed.

(** X16: however verification and revocation requests interleave, and whatever
    the datastore answers, no token row is added or removed, and no row
    changes its identifier, token string, document, recipient, order,
    expiry, ceiling or creation time; and the attempts recorded before are
    all still there, in order, with new ones after them. *)
Theorem interleaving_keeps_identities_and_trail
    (evs : list Event) (w : World) :
  List.map identity (tokens (fst (interleave evs (w, []))))
    = List.map identity (tokens w) /\
  exists new,
    attempts (fst (interleave evs (w, []))) = attempts w ++ new.
Proof.
  apply (@interleave_keeps_identities evs (w, [])). constructor.
Qed.

(* ------------------------------------------------------------------ *)
(** ** Verifications, as the statistics see them *)

Lemma filter_all {A : Type} (f : A -> bool) (l : list A) :
  (forall a, f a = true) -> filter f l = l.
Proof.
  intros H. induction l as [| a l IH]; [reflexivity |].
  change (filter f (a :: l)) with (if f a then a :: filter f l else filter f l).
  rewrite H, IH. reflexivity.
Qed.

(** Asked about no order in particular, with a datastore that answers, the
    statistics summarise the two tables. *)
Lemma statistics_of_everything (w : World) :
  select_replies (oracle w) = [] ->
  fst (getDownloadStatistics None w)
  = summarize (clock w) (tokens w) (attempts w).
Proof.
  intros Hs.
  unfold getDownloadStatistics, statisticsQueries, dbind, all2, select, dret.
  cbn. rewrite Hs. cbn.
  rewrite !filter_all by reflexivity. reflexivity.
Qed.

Lemma length_filter_snoc {A : Type} (f : A -> bool) (l : list A) (a : A) :
  List.length (filter f (l ++ [a]))
  = (List.length (filter f l) + if f a then 1 else 0)%nat.
Proof.
  rewrite filter_app, length_app.
  change (filter f [a]) with (if f a then [a] else []).
  destruct (f a); reflexivity.
Qed.

(** X19: every verification shows in the statistics.  With a datastore that
    performs every request, the statistics taken after a call of
    [verifyDownloadToken] count one attempt more than those taken before it:
    one more successful download when the call was granted, one more failed
    attempt when it was refused. *)
Theorem verification_shows_in_statistics
    (tok e : JSString) (ip ua : option JSString) (w : World) :
  oracle w = quietOracle ->
  let before := fst (getDownloadStatistics None w) in
  let out := run (verifyDownloadToken tok e ip ua) w in
  let after := fst (getDownloadStatistics None (snd out)) in
  totalAttempts after = S (totalAttempts before) /\
  if granted (fst out)
  then successfulDownloads after = S (successfulDownloads before) /\
       failedAttempts after = failedAttempts before
  else successfulDownloads after = successfulDownloads before /\
       failedAttempts after = S (failedAttempts before).
Proof.
  intros Hq before out after.
  assert (Hs : select_replies (oracle w) = []) by (rewrite Hq; reflexivity).
  assert (Ha : audit_replies (oracle w) = []) by (rewrite Hq; reflexivity).
  assert (Hu : update_replies (oracle w) = []) by (rewrite Hq; reflexivity).
  set (a := storedAttempt w (expectedAudit w tok e ip ua)).
  assert (Hout :
    granted (fst out) = log_success (expectedAudit w tok e ip ua) /\
    attempts (snd out) = attempts w ++ [a] /\
    select_replies (oracle (snd out)) = []).
  { unfold out. rewrite run_verify_answered by (rewrite Hs; discriminate).
    cbv zeta. rewrite Hu. cbn [hd].
    destruct (finalUpdate w tok e) as [[i p] |]; cbn [fst snd granted];
      rewrite expectedResult_valid;
      rewrite ?served_UpdateToken, served_InsertAttempt; cbn;
      rewrite Ha; cbn; rewrite ?Hu, Hs; cbn; auto. }
  destruct Hout as (Hg & Hatt & Hs').
  unfold before, after.
  rewrite (statistics_of_everything w Hs),
    (statistics_of_everything (snd out) Hs').
  rewrite Hg, Hatt. cbn [summarize totalAttempts successfulDownloads
                           failedAttempts].
  rewrite !length_filter_snoc, length_app. cbn [List.length].
  replace (success a) with (log_success (expectedAudit w tok e ip ua))
    by reflexivity.
  destruct (log_success (expectedAudit w tok e ip ua)); cbn [negb]; lia.
Qed.

(* ------------------------------------------------------------------ *)
(** ** Addresses as they are stored *)

Lemma recorded_emails (P : JSString -> Prop) (requests : list AttemptInsert) :
  Forall (fun a => P (log_attempted_email a)) requests ->
  forall (w : World) (answers : list Outcome),
    Forall (fun a => P (attempted_email a)) (recorded w answers requests).
Proof.
  induction 1 as [| a rest Ha _ IH]; intros w answers; cbn [recorded].
  - constructor.
  - destruct (hd Ok answers); [constructor; [exact Ha |] | ..]; apply IH.
Qed.

(** Every audit request of a verification is for the claimed address,
    normalised by the verification and once more by the logger. *)
Lemma audited_verify_emails (tok e : JSString) (ip ua : option JSString)
    (w : World) :
  Forall (fun a => log_attempted_email a = normalize (normalize e))
         (audited (verifyDownloadToken tok e ip ua) w).
Proof.
  destruct (hd Ok (select_replies (oracle w))) eqn:Es.
  3: { rewrite audited_verify_raised by assumption.
       constructor; [reflexivity | constructor]. }
  all: rewrite audited_verify_answered by congruence;
    constructor; [reflexivity |];
    destruct (finalUpdate w tok e);
    [destruct (hd Ok (update_replies (oracle w))) |];
    repeat constructor.
Qed.

(** X17: the addresses the module stores are trimmed, whatever the case
    mapping of the runtime does to them: the recipient of every row a batch
    stores, and the address of every attempt a verification records, has no
    white space at either end.  In both places [trim] is what is applied
    last. *)
Theorem stored_addresses_are_trimmed :
  (forall docs email orderId config w,
     exists rows,
       tokens (snd (run (generateSecureDownloadTokens docs email orderId
                           config) w)) = tokens w ++ rows /\
       Forall (fun r => trimmed (recipient_email r)) rows) /\
  (forall tok e ip ua w,
     exists new,
       attempts (snd (run (verifyDownloadToken tok e ip ua) w))
         = attempts w ++ new /\
       Forall (fun a => trimmed (attempted_email a)) new).
Proof.
  split.
  - intros docs email orderId config w.
    destruct (generate_effect docs email orderId config w)
      as (refs & rows & w' & Hrun & Ht & _ & He & _).
    exists rows. rewrite Hrun. split; [exact Ht |].
    destruct (expiryOf _ _); [ | subst; constructor].
    destruct He as [_ Hi]. eapply Forall_impl; [ | exact Hi].
    intros r (Hrec & _). rewrite Hrec. apply trim_trimmed.
  - intros tok e ip ua w. eexists. split; [apply verify_records |].
    apply recorded_emails.
    eapply Forall_impl; [ | apply audited_verify_emails].
    intros a Ha. cbn beta in Ha. rewrite Ha. apply trim_trimmed.
Qed.

End OverAnyHost.

(* ================================================================== *)
(** * The theorems at work

    The shop of the examples runs on a machine on UTC. *)

#[local] Existing Instance onUTC.

(* ------------------------------------------------------------------ *)
(** ** Verifications on the shop *)

(** A wrong address for the token of the shop: the e-mail check is the first
    to fail, one audit request is issued, for the mismatch, and it is
    recorded. *)
Lemma verify_first_failing_check_wins_witness :
  let call := verifyDownloadToken (js "T1") (js "other@x.com") None None in
  (fst (run call shop)
     = Normal (expectedResult shop (js "T1") (js "other@x.com")) /\
   audited call shop
     = [expectedAudit shop (js "T1") (js "other@x.com") None None]) /\
  reason (expectedResult shop (js "T1") (js "other@x.com"))
    = Some (AuthorizedForOnly (js "User@Example.com")) /\
  List.map failure_reason (attempts (snd (run call shop)))
    = [Some (js "Email mismatch")].
Proof.
  intros call. split; [ | split; reflexivity].
  exact (proj1 (verify_first_failing_check_wins (js "T1") (js "other@x.com")
                  None None shop)).
Defined.

(** C3, as the specification words it, fails on the number of records.  Every
    check passes and the increment raises: the success has been recorded, the
    call returns the system error and records it as well, two records for
    one call, and a failure although no check failed.  And when the datastore
    rejects the audit insert, a granted call leaves no record at all. *)
Lemma verify_one_record_per_call_fails :
  (let w := with_oracle (with_update_replies [Raised] quietOracle) shop in
   let out := run (verifyDownloadToken (js "T1") (js "user@example.com")
                     None None) w in
   firstFailing w (js "T1") (js "user@example.com") = None /\
   fst out = Normal systemError /\
   attempts w = [] /\
   List.map failure_reason (attempts (snd out))
     = [None; Some (js "System error")])
  /\
  (let w := with_oracle (with_audit_replies [Rejected] quietOracle) shop in
   let out := run (verifyDownloadToken (js "T1") (js "user@example.com")
                     None None) w in
   option_map valid
     (match fst out with Normal r => Some r | Abrupt _ => None end)
     = Some true /\
   attempts (snd out) = []).
Proof. split; repeat split. Qed.

Lemma rejected_increment_keeps_success_witness :
  let w := with_oracle (with_update_replies [Rejected] quietOracle) shop in
  let call := verifyDownloadToken (js "T1") (js "user@example.com") None None in
  (exists doc td,
     resolves w (js "T1") = Some td /\
     project_documents td = Some doc /\
     fst (run call w)
       = Normal {| valid := true; document := Some doc; reason := None;
                   tokenData := Some td |}) /\
  List.map log_success (audited call w) = [true] /\
  tokens (snd (run call w)) = tokens w.
Proof.
  intros w call.
  apply (rejected_increment_keeps_success (js "T1") (js "user@example.com")
           None None w); reflexivity.
Defined.

(** C2, as the specification words it, fails: the increment is rejected, and
    the call returns the success and audits a success, not a quota failure. *)
Lemma rejected_increment_is_not_a_quota_failure :
  let w := with_oracle (with_update_replies [Rejected] quietOracle) shop in
  let call := verifyDownloadToken (js "T1") (js "user@example.com") None None in
  hd Ok (update_replies (oracle w)) = Rejected /\
  fst (run call w)
    = Normal {| valid := true; document := Some manual; reason := None;
                tokenData := Some {| row := userToken;
                                     project_documents := Some manual |} |} /\
  List.map log_failure_reason (audited call w) = [None] /\
  List.map success (attempts (snd (run call w))) = [true].
Proof. repeat split. Qed.

Lemma expired_token_is_deactivated_witness :
  let late := with_clock 2000 shop in
  let out := run (verifyDownloadToken (js "T1") (js "user@example.com")
                    None None) late in
  List.map is_active (tokens (snd out)) = [false] /\
  fst (run (verifyDownloadToken (js "T1") (js "user@example.com") None None)
         (with_clock 3000 (snd out)))
    = Normal {| valid := false; document := None;
                reason := Some InvalidOrExpiredLink; tokenData := None |}.
Proof.
  intros late out.
  destruct (expired_token_is_deactivated (js "T1") (js "user@example.com")
              None None late
              (td := {| row := userToken; project_documents := Some manual |}))
    as (_ & _ & H3).
  - reflexivity.
  - reflexivity.
  - reflexivity.
  - split; [reflexivity |].
    apply H3; [reflexivity | discriminate].
Defined.

(** The example of the specification: a token bound to [User@Example.com]
    verifies with the claimed address [ user@example.com ]. *)
Lemma email_match_is_normalized_equality_witness :
  let call :=
    verifyDownloadToken (js "T1") (js " user@example.com ") None None in
  (forall addr r, fst (run call shop) = Normal r ->
                  reason r <> Some (AuthorizedForOnly addr)) /\
  fst (run call shop)
    = Normal {| valid := true; document := Some manual; reason := None;
                tokenData := Some {| row := userToken;
                                     project_documents := Some manual |} |}.
Proof.
  intros call. split; [ | reflexivity].
  intros addr r.
  destruct (email_match_is_normalized_equality (js "T1")
              (js " user@example.com ") None None shop
              (td := {| row := userToken; project_documents := Some manual |}))
    as (_ & H2).
  - reflexivity.
  - unfold shop, userToken; simpl; lia.
  - apply H2. reflexivity.
Defined.

(** A caller holding the token string and a wrong address is handed the
    record, with the stored recipient address. *)
Lemma failure_results_carry_token_data_witness :
  fst (run (verifyDownloadToken (js "T1") (js "mallory@evil.example")
              None None) shop)
  = Normal {| valid := false; document := None;
              reason := Some (AuthorizedForOnly (js "User@Example.com"));
              tokenData := Some {| row := userToken;
                                   project_documents := Some manual |} |}.
Proof.
  destruct (failure_results_carry_token_data (js "T1")
              (js "mallory@evil.example") None None shop)
    as (r & w' & Hrun & _ & _ & Hmail & _).
  rewrite Hrun. cbn [fst]. f_equal.
  apply (Hmail {| row := userToken; project_documents := Some manual |}).
  - reflexivity.
  - cbn. lia.
  - intros H. vm_compute in H. discriminate H.
Defined.

(* ------------------------------------------------------------------ *)
(** ** Revocations and races on the shop *)

Lemma revoke_is_idempotent_and_total_witness :
  let first := run (revokeDownloadToken 1%N) shop in
  let second := run (revokeDownloadToken 1%N) (snd first) in
  fst first = Normal true /\ fst second = Normal true /\
  List.map download_count (tokens (snd second)) = [0%Z].
Proof.
  intros first second.
  destruct (proj2 (revoke_is_idempotent_and_total 1%N shop))
    as (H1 & H2 & _ & _ & H5).
  - reflexivity.
  - reflexivity.
  - split; [exact H1 | split; [exact H2 | exact H5]].
Defined.

Lemma quota_invariant_under_interleaving_witness :
  Forall quotaHolds (tokens (fst (interleave race (shop, [])))) /\
  List.map download_count (tokens (fst (interleave race (shop, [])))) = [1%Z].
Proof.
  split; [ | reflexivity].
  apply quota_invariant_under_interleaving.
  - constructor; [ | constructor]. unfold quotaHolds. simpl. lia.
  - constructor; [ | constructor]. intros [].
Defined.

(** The same race, seen from the callers: the counter stays within the
    ceiling, but both requests are granted the single download. *)
Example race_grants_two_downloads :
  let cfg := interleave race (shop, []) in
  option_map valid (verdict cfg 0) = Some true /\
  option_map valid (verdict cfg 1) = Some true /\
  List.map success (attempts (fst cfg)) = [true; true] /\
  List.map download_count (tokens (fst cfg)) = [1%Z].
Proof. repeat split. Qed.

(* ------------------------------------------------------------------ *)
(** ** Batches for the shop *)

(** The example of the specification: three documents, the datastore rejects
    the insert of the second, two references come back. *)
Lemma generation_isolates_failures_witness :
  let w := with_oracle secondInsertRejected shop in
  let out := run (generateSecureDownloadTokens threeDocuments
                     (js "Buyer@x.com") 3%N defaults) w in
  (exists refs, fst out = Normal refs /\
                List.map documentId refs = [7%N; 9%N]) /\
  List.map document_id (tokens (snd out)) = [7%N; 7%N; 9%N].
Proof.
  intros w out.
  destruct (generation_isolates_failures threeDocuments (js "Buyer@x.com")
              3%N defaults w)
    as (refs & rows & w' & Hrun & Htok & Hrows & Hrefs).
  change (List.map document_id rows = [7%N; 9%N]) in Hrows.
  change (List.map documentId refs = List.map document_id rows) in Hrefs.
  unfold out. rewrite Hrun. cbn [fst snd]. split.
  - exists refs. split; [reflexivity |]. rewrite Hrefs. exact Hrows.
  - rewrite Htok, map_app, Hrows. reflexivity.
Defined.

(** C6, as the specification words it, fails on an address that cannot be
    encoded into a link.  [validateEmail] accepts the address (a lone
    surrogate is neither white space nor [@]), the datastore accepts the
    three inserts and three tokens are stored, and no reference is returned:
    not one per stored document. *)
Lemma stored_tokens_without_references :
  let address := 55296%N :: js "@x.co" in
  let w := with_oracle threeTokens shop in
  let out := run (generateSecureDownloadTokens threeDocuments address 3%N
                    defaults) w in
  validateEmail address = true /\
  fst out = Normal [] /\
  List.map document_id (tokens w) = [7%N] /\
  List.map document_id (tokens (snd out)) = [7%N; 7%N; 8%N; 9%N].
Proof. repeat split. Qed.

(** A batch whose expiry is not a valid date stores nothing and returns no
    reference, without raising: hours beyond the range of dates, or hours
    that the configuration holds as [undefined]. *)
Example generation_with_invalid_date :
  run (generateSecureDownloadTokens threeDocuments (js "Buyer@x.com") 3%N
         {| expirationHours_opt := Some (Some 9000000000000%Z);
            maxDownloads_opt := None;
            requireEmailVerification_opt := None |}) shop
  = (Normal [], with_oracle (with_rpc_replies [] quietOracle) shop)
  /\
  run (generateSecureDownloadTokens threeDocuments (js "Buyer@x.com") 3%N
         {| expirationHours_opt := Some None;
            maxDownloads_opt := None;
            requireEmailVerification_opt := None |}) shop
  = (Normal [], with_oracle (with_rpc_replies [] quietOracle) shop).
Proof. split; reflexivity. Qed.

(** A ceiling that the configuration holds as [undefined] is left out of the
    insert, and the row gets the default of the column. *)
Example generation_with_undefined_ceiling :
  let out := run (generateSecureDownloadTokens threeDocuments
                    (js "Buyer@x.com") 3%N
                    {| expirationHours_opt := None;
                       maxDownloads_opt := Some None;
                       requireEmailVerification_opt := None |})
               (with_oracle threeTokens shop) in
  List.map max_downloads (tokens (snd out)) = [1; 5; 5; 5]%Z.
Proof. reflexivity. Qed.

(** On a machine whose clocks go forward by an hour between the call and the
    expiry, a link configured for two hours expires one hour after the
    call. *)
Example generation_across_a_clock_change :
  let w := with_clock 9000000 (with_oracle threeTokens shop) in
  let out := run (generateSecureDownloadTokens (runtime := springForward)
                    threeDocuments (js "Buyer@x.com") 3%N
                    {| expirationHours_opt := Some (Some 2%Z);
                       maxDownloads_opt := None;
                       requireEmailVerification_opt := None |}) w in
  List.map expires_at (skipn 1 (tokens (snd out)))
    = [12600000; 12600000; 12600000]%Z /\
  (12600000 = clock w + 1 * 3600000)%Z.
Proof. split; reflexivity. Qed.



Lemma references_lead_to_stored_tokens_witness :
  exists refs rows w',
    run (generateSecureDownloadTokens threeDocuments (js "Buyer@x.com") 3%N
           defaults) (with_oracle secondInsertRejected shop)
      = (Normal refs, w') /\
    tokens w' = tokens (with_oracle secondInsertRejected shop) ++ rows /\
    Forall2 (linksTo (js "https://shop.example") (js "Buyer%40x.com"))
            refs rows.
Proof.
  apply (@references_lead_to_stored_tokens onUTC threeDocuments (js "Buyer@x.com")
           3%N defaults (with_oracle secondInsertRejected shop)
           (js "Buyer%40x.com")).
  reflexivity.
Defined.


(* ------------------------------------------------------------------ *)
(** ** What calls change, on the shop *)

Lemma refused_verification_consumes_nothing_witness :
  let call := verifyDownloadToken (js "T1") (js "other@x.com") None None in
  tokens (snd (run call shop)) = tokens shop.
Proof.
  intros call.
  destruct (@refused_verification_consumes_nothing onUTC (js "T1")
              (js "other@x.com") None None shop
              {| valid := false; document := None;
                 reason := Some (AuthorizedForOnly (js "User@Example.com"));
                 tokenData := Some {| row := userToken;
                                      project_documents := Some manual |} |})
    as [_ H].
  - reflexivity.
  - reflexivity.
  - apply H. intros t. discriminate.
Defined.

Lemma granted_verification_consumes_one_witness :
  let call := verifyDownloadToken (js "T1") (js "user@example.com") None None in
  List.map download_count (tokens (snd (run call shop))) = [1%Z].
Proof.
  intros call.
  destruct (@granted_verification_consumes_one onUTC (js "T1")
              (js "user@example.com") None None shop
              {| valid := true; document := Some manual; reason := None;
                 tokenData := Some {| row := userToken;
                                      project_documents := Some manual |} |})
    as (td & Htd & _ & H).
  - reflexivity.
  - reflexivity.
  - reflexivity.
  - reflexivity.
Defined.

Lemma token_grants_until_quota_witness :
  List.map granted
    (fst (verifyRepeatedly 3 (js "T1") (js "user@example.com") None None shop))
  = [true; false; false].
Proof.
  assert (Hready : readyToVerify shop (js "T1") (js "user@example.com")
                     {| row := userToken; project_documents := Some manual |}
                     manual).
  { unfold readyToVerify.
    split; [reflexivity |]. split; [reflexivity |]. split; [reflexivity |].
    split; [cbn; lia |]. split; reflexivity. }
  exact (proj1 (@token_grants_until_quota onUTC 3 (js "T1") (js "user@example.com")
                  None None shop _ manual Hready)).
Defined.

Lemma revoke_touches_one_token_witness :
  fst (run (revokeDownloadToken 99%N) shop) = Normal true /\
  tokens (snd (run (revokeDownloadToken 99%N) shop)) = tokens shop.
Proof.
  destruct (@revoke_touches_one_token 99%N shop) as (H1 & _ & H3).
  - reflexivity.
  - split; [exact H1 |]. apply H3.
    intros r [<- | []]. discriminate.
Defined.

Lemma revoked_token_no_longer_verifies_witness :
  fst (run (verifyDownloadToken (js "T1") (js "user@example.com") None None)
         (snd (run (revokeDownloadToken 1%N) shop)))
    = Normal {| valid := false; document := None;
                reason := Some InvalidOrExpiredLink; tokenData := None |}.
Proof.
  apply (@revoked_token_no_longer_verifies onUTC (js "T1") shop
           {| row := userToken; project_documents := Some manual |});
    try reflexivity.
  discriminate.
Defined.

(* ------------------------------------------------------------------ *)
(** ** Statistics and addresses *)

Lemma statistics_of_an_order_witness :
  let s := fst (getDownloadStatistics (Some 3%N) busyShop) in
  totalTokens s = 1%nat /\ totalAttempts s = 1%nat.
Proof.
  apply (@statistics_of_an_order 3%N busyShop).
  - reflexivity.
  - discriminate.
Defined.

Lemma statistics_of_an_unknown_order_witness :
  let s := fst (getDownloadStatistics (Some 4%N) busyShop) in
  totalTokens s = 0%nat /\ totalAttempts s = 2%nat /\
  successfulDownloads s = 1%nat.
Proof.
  apply (@statistics_of_an_unknown_order 4%N busyShop); reflexivity.
Defined.

(** ipify is down, ipapi answers without an address, httpbin gives one. *)
Example client_ip_falls_back :
  getClientIP
    (fun service =>
       if JS.eqb service (js "https://api.ipify.org?format=json")
       then FetchFailed
       else if JS.eqb service (js "https://ipapi.co/json/")
       then FetchJson (Some []) None None
       else FetchJson None (Some (js "203.0.113.7")) (Some (js "ignored")))
  = Some (js "203.0.113.7").
Proof. reflexivity. Qed.

Lemma client_ip_is_first_address_given_witness :
  let fetch := fun service =>
    if JS.eqb service (js "https://api.ipify.org?format=json")
    then FetchFailed
    else FetchJson None (Some (js "203.0.113.7")) None in
  getClientIP fetch = Some (js "203.0.113.7") /\ js "203.0.113.7" <> [].
Proof.
  intros fetch. split; [reflexivity |].
  apply (proj2 (proj2 (@client_ip_is_first_address_given fetch))
           (js "203.0.113.7")).
  reflexivity.
Defined.

Lemma verification_shows_in_statistics_witness :
  let out := run (verifyDownloadToken (js "T1") (js "other@x.com") None None)
               busyShop in
  failedAttempts (fst (getDownloadStatistics None (snd out))) = 2%nat.
Proof.
  intros out.
  destruct (@verification_shows_in_statistics onUTC (js "T1") (js "other@x.com")
              None None busyShop eq_refl) as [_ H].
  exact (proj2 H).
Defined.
